(** * Rubik's cube mechanics engine: a shallow embedding

    Sources embedded here:
    - [types.ts] (types, constants, [getMoveFromNotation]);
    - [components/RubiksCube.tsx] (cubie registry, slice selector, move
      execution state machine, gesture interpreter);
    - [components/Cubie.tsx] (the stickers of a cubie);
    - [App.tsx] (history, lock of the interface, scramble and reset);
    - the single-file build of the same application, whose copy of
      [getMoveFromNotation] differs (module [SingleFile]).

    JavaScript numbers are modelled as exact rationals kept in lowest
    terms, so that numerically equal values are equal terms.  IEEE rounding
    is not modelled. *)

From Stdlib Require Import QArith Qround Qabs Qminmax Lqa ZArith Lia.
From Stdlib Require Import List String Ascii Bool Permutation.
From Stdlib Require Import Morphisms Setoid.
Import ListNotations.

Set Implicit Arguments.

(** ** Numbers *)

Module Num.

Definition num : Type := Q.

Definition add (x y : num) : num := Qred (x + y).
Definition sub (x y : num) : num := Qred (x - y).
Definition mul (x y : num) : num := Qred (x * y).
Definition div (x y : num) : num := Qred (x / y).
Definition neg (x : num) : num := Qred (- x).

(** [x < y], [x <= y] and [x === y] as JavaScript evaluates them. *)
Definition ltb (x y : num) : bool := negb (Qle_bool y x).
Definition leb (x y : num) : bool := Qle_bool x y.
Definition eqb (x y : num) : bool := Qeq_bool x y.

(** [Math.abs]. *)
Definition abs (x : num) : num := Qred (Qabs x).

(** [Math.round]: the nearest integer, halves rounded up. *)
Definition round (x : num) : num := inject_Z (Qfloor (x + (1 # 2))).

(** An integer used as a number, and a decimal literal. *)
Definition int (k : Z) : num := inject_Z k.
Definition lit (q : Q) : num := Qred q.

(** [Math.PI], the double nearest to pi: 884279719003555 / 2^48. *)
Definition PI : num := 884279719003555 # 281474976710656.

End Num.

Import Num.

Declare Scope num_scope.
Delimit Scope num_scope with num.
Bind Scope num_scope with num.
Infix "+" := Num.add : num_scope.
Infix "-" := Num.sub : num_scope.
Infix "*" := Num.mul : num_scope.
Infix "/" := Num.div : num_scope.
Notation "- x" := (Num.neg x) : num_scope.
Infix "<?" := Num.ltb : num_scope.
Infix "<=?" := Num.leb : num_scope.
Open Scope num_scope.

(** ** types.ts *)

Inductive Axis : Type := X | Y | Z_.

Definition Axis_eqb (a b : Axis) : bool :=
  match a, b with
  | X, X | Y, Y | Z_, Z_ => true
  | _, _ => false
  end.

(** [interface Move]: [direction] has the literal type [1 | -1]. *)
Record Move : Type := mkMove {
  axis : Axis;
  slice : num;
  direction : Z
}.

Definition set_direction (d : Z) (m : Move) : Move :=
  {| axis := axis m; slice := slice m; direction := d |}.

Definition CUBE_GAP : num := lit 0.02.
Definition CUBE_SIZE : num := 1.

(** [interface CubieData]. *)
Record Vec3 : Type := mkVec3 { vx : num; vy : num; vz : num }.

Record CubieData : Type := mkCubieData {
  id : Z;
  position : Vec3;
  rotation : Vec3;
  initialPosition : Vec3
}.

(** *** Strings: [includes] and [replace] with a string pattern *)

Fixpoint string_drop (n : nat) (s : string) : string :=
  match n, s with
  | O, _ => s
  | S n', String _ s' => string_drop n' s'
  | S _, EmptyString => EmptyString
  end.

(** [s.includes(p)]. *)
Fixpoint includes (p s : string) : bool :=
  if String.prefix p s then true
  else match s with
       | EmptyString => false
       | String _ s' => includes p s'
       end.

(** [s.replace(p, r)] with a string pattern: the first occurrence only. *)
Fixpoint replace (p r s : string) : string :=
  if String.prefix p s then r ++ string_drop (String.length p) s
  else match s with
       | EmptyString => EmptyString
       | String c s' => String c (replace p r s')
       end.

(** A [switch] over string cases, every case ending in [break]: the first
    matching case assigns, no match leaves the value as it was. *)
Fixpoint switch (A : Type) (scrutinee : string) (cases : list (string * A))
  (current : A) : A :=
  match cases with
  | [] => current
  | (label, v) :: rest =>
      if String.eqb scrutinee label then v else switch scrutinee rest current
  end.

Definition notation_cases : list (string * Move) :=
  [ ("R", mkMove X 1 (-1));
    ("L", mkMove X (-1)%Q 1);
    ("U", mkMove Y 1 (-1));
    ("D", mkMove Y (-1)%Q 1);
    ("F", mkMove Z_ 1 (-1));
    ("B", mkMove Z_ (-1)%Q 1);
    ("M", mkMove X 0 1);
    ("E", mkMove Y 0 1);
    ("S", mkMove Z_ 0 (-1)) ]%string.

(** [getMoveFromNotation] of types.ts. *)
Definition getMoveFromNotation (notation : string) : Move :=
  let isPrime := includes "'" notation in
  let base := replace "'" "" notation in
  let move := mkMove X 0 1 in
  let move := switch base notation_cases move in
  if isPrime then set_direction (direction move * -1)%Z move else move.

Module SingleFile.

(** The single-file build's [switch] has the six face cases only. *)
Definition notation_cases : list (string * Move) :=
  [ ("R", mkMove X 1 (-1));
    ("L", mkMove X (-1)%Q 1);
    ("U", mkMove Y 1 (-1));
    ("D", mkMove Y (-1)%Q 1);
    ("F", mkMove Z_ 1 (-1));
    ("B", mkMove Z_ (-1)%Q 1) ]%string.

Definition getMoveFromNotation (notation : string) : Move :=
  let isPrime := includes "'" notation in
  let base := replace "'" "" notation in
  let move := mkMove X 0 1 in
  let move := switch base notation_cases move in
  if isPrime then set_direction (direction move * -1)%Z move else move.

End SingleFile.

(** ** The render backend

    Modelled from the spec: the scene graph (three.js) is an external
    collaborator; the engine consumes from it a world-space position query
    and an attach primitive that re-parents an object while preserving its
    world transform.  Objects carry a local position and local Euler angles
    (order XYZ) under a parent; the pivot's own parent and the scene have
    the identity transform, and every scale is 1.  The transcendental
    functions the backend evaluates are a parameter. *)

Class JSMath : Type := {
  Math_cos : num -> num;
  Math_sin : num -> num;
  Math_asin : num -> num;
  Math_atan2 : num -> num -> num
}.

Module Three.

Record Matrix3 : Type := mkMatrix3 {
  m11 : num; m12 : num; m13 : num;
  m21 : num; m22 : num; m23 : num;
  m31 : num; m32 : num; m33 : num
}.

(** A rigid transform: the upper 3x3 block and the translation column of a
    4x4 matrix whose last row is (0,0,0,1). *)
Record Matrix4 : Type := mkMatrix4 { linear : Matrix3; translation : Vec3 }.

Inductive Parent : Type := Scene | Pivot.

Record Object3D : Type := mkObject3D {
  position : Vec3;
  rotation : Vec3;
  parent : Parent
}.

Definition zero3 : Vec3 := mkVec3 0 0 0.

Definition identity3 : Matrix3 := mkMatrix3 1 0 0 0 1 0 0 0 1.
Definition identity : Matrix4 := mkMatrix4 identity3 zero3.

Definition apply3 (m : Matrix3) (v : Vec3) : Vec3 :=
  mkVec3 (m11 m * vx v + m12 m * vy v + m13 m * vz v)
         (m21 m * vx v + m22 m * vy v + m23 m * vz v)
         (m31 m * vx v + m32 m * vy v + m33 m * vz v).

Definition multiply3 (a b : Matrix3) : Matrix3 :=
  mkMatrix3
    (m11 a * m11 b + m12 a * m21 b + m13 a * m31 b)
    (m11 a * m12 b + m12 a * m22 b + m13 a * m32 b)
    (m11 a * m13 b + m12 a * m23 b + m13 a * m33 b)
    (m21 a * m11 b + m22 a * m21 b + m23 a * m31 b)
    (m21 a * m12 b + m22 a * m22 b + m23 a * m32 b)
    (m21 a * m13 b + m22 a * m23 b + m23 a * m33 b)
    (m31 a * m11 b + m32 a * m21 b + m33 a * m31 b)
    (m31 a * m12 b + m32 a * m22 b + m33 a * m32 b)
    (m31 a * m13 b + m32 a * m23 b + m33 a * m33 b).

Definition add3 (u v : Vec3) : Vec3 :=
  mkVec3 (vx u + vx v) (vy u + vy v) (vz u + vz v).

Definition negate3 (v : Vec3) : Vec3 := mkVec3 (- vx v) (- vy v) (- vz v).

(** [a.multiply(b)]. *)
Definition multiply (a b : Matrix4) : Matrix4 :=
  mkMatrix4 (multiply3 (linear a) (linear b))
            (add3 (apply3 (linear a) (translation b)) (translation a)).

Definition determinant3 (m : Matrix3) : num :=
  m11 m * (m22 m * m33 m - m23 m * m32 m)
  - m12 m * (m21 m * m33 m - m23 m * m31 m)
  + m13 m * (m21 m * m32 m - m22 m * m31 m).

(** [m.invert()]: the adjugate over the determinant; a singular matrix
    inverts to the zero matrix. *)
Definition invert3 (m : Matrix3) : Matrix3 :=
  let det := determinant3 m in
  if Num.eqb det 0 then mkMatrix3 0 0 0 0 0 0 0 0 0
  else
    let detInv := 1 / det in
    mkMatrix3
      ((m22 m * m33 m - m23 m * m32 m) * detInv)
      ((m13 m * m32 m - m12 m * m33 m) * detInv)
      ((m12 m * m23 m - m13 m * m22 m) * detInv)
      ((m23 m * m31 m - m21 m * m33 m) * detInv)
      ((m11 m * m33 m - m13 m * m31 m) * detInv)
      ((m13 m * m21 m - m11 m * m23 m) * detInv)
      ((m21 m * m32 m - m22 m * m31 m) * detInv)
      ((m12 m * m31 m - m11 m * m32 m) * detInv)
      ((m11 m * m22 m - m12 m * m21 m) * detInv).

Definition invert (m : Matrix4) : Matrix4 :=
  let inv := invert3 (linear m) in
  mkMatrix4 inv (negate3 (apply3 inv (translation m))).

Definition clamp (value lo hi : num) : num :=
  let upper := if hi <? value then hi else value in
  if upper <? lo then lo else upper.

Section WithMath.
Context {math : JSMath}.

(** [Matrix4.makeRotationFromEuler], order XYZ. *)
Definition makeRotationFromEuler (euler : Vec3) : Matrix3 :=
  let a := Math_cos (vx euler) in let b := Math_sin (vx euler) in
  let c := Math_cos (vy euler) in let d := Math_sin (vy euler) in
  let e := Math_cos (vz euler) in let f := Math_sin (vz euler) in
  let ae := a * e in let af := a * f in
  let be := b * e in let bf := b * f in
  mkMatrix3
    (c * e)          (- (c * f))      d
    (af + be * d)    (ae - bf * d)    (- (b * c))
    (bf - ae * d)    (be + af * d)    (a * c).

(** [Euler.setFromRotationMatrix], order XYZ. *)
Definition setFromRotationMatrix (m : Matrix3) : Vec3 :=
  let y := Math_asin (clamp (m13 m) (-1)%Q 1) in
  if Num.abs (m13 m) <? lit 0.9999999
  then mkVec3 (Math_atan2 (- m23 m) (m33 m)) y (Math_atan2 (- m12 m) (m11 m))
  else mkVec3 (Math_atan2 (m32 m) (m22 m)) y 0.

(** The local matrix composed from position and rotation (unit scale). *)
Definition matrix (o : Object3D) : Matrix4 :=
  mkMatrix4 (makeRotationFromEuler (rotation o)) (position o).

(** [Matrix4.decompose] into an object's position and rotation. *)
Definition decompose (m : Matrix4) (p : Parent) : Object3D :=
  mkObject3D (translation m) (setFromRotationMatrix (linear m)) p.

(** The world matrix of a parent node, given the pivot group. *)
Definition parentWorld (pivot : Object3D) (p : Parent) : Matrix4 :=
  match p with
  | Scene => identity
  | Pivot => matrix pivot
  end.

Definition matrixWorld (pivot o : Object3D) : Matrix4 :=
  multiply (parentWorld pivot (parent o)) (matrix o).

(** [o.getWorldPosition(target)]. *)
Definition getWorldPosition (pivot o : Object3D) : Vec3 :=
  translation (matrixWorld pivot o).

(** [target.attach(o)]: [o] becomes a child of [target] and keeps its
    world transform. *)
Definition attach (pivot : Object3D) (target : Parent) (o : Object3D)
  : Object3D :=
  let m := multiply (invert (parentWorld pivot target))
                    (parentWorld pivot (parent o)) in
  decompose (multiply m (matrix o)) target.

End WithMath.

Definition set_position (p : Vec3) (o : Object3D) : Object3D :=
  mkObject3D p (rotation o) (parent o).

Definition set_rotation (r : Vec3) (o : Object3D) : Object3D :=
  mkObject3D (position o) r (parent o).

End Three.

(** Reading and writing a vector component by axis name. *)
Definition component (v : Vec3) (a : Axis) : num :=
  match a with
  | X => vx v
  | Y => vy v
  | Z_ => vz v
  end.

Definition set_component (a : Axis) (x : num) (v : Vec3) : Vec3 :=
  match a with
  | X => mkVec3 x (vy v) (vz v)
  | Y => mkVec3 (vx v) x (vz v)
  | Z_ => mkVec3 (vx v) (vy v) x
  end.

(** ** components/RubiksCube.tsx *)

(** An element of [moveQueue]: [{ move, speed }]. *)
Record QueuedMove : Type := mkQueuedMove { move : Move; speed : num }.

(** The component's refs, and the calls of [onMoveComplete] so far (oldest
    first).  [cubieRefs] holds the mounted meshes, [pivotRef] the pivot
    group; [orbitEnabled] is [orbitRef.current.enabled]. *)
Record State : Type := mkState {
  cubieRefs : list (option Three.Object3D);
  isAnimating : bool;
  moveQueue : list QueuedMove;
  currentMove : option QueuedMove;
  currentAngle : num;
  pivotRef : option Three.Object3D;
  activeCubieIndices : list nat;
  orbitEnabled : bool;
  dragStart : option (num * num);
  intersectedFaceNormal : option Vec3;
  intersectedCubieIndex : Z;
  completed : list Move
}.

Definition with_cubieRefs (v : list (option Three.Object3D)) (s : State) :=
  mkState v (isAnimating s) (moveQueue s) (currentMove s) (currentAngle s)
    (pivotRef s) (activeCubieIndices s) (orbitEnabled s) (dragStart s)
    (intersectedFaceNormal s) (intersectedCubieIndex s) (completed s).

Definition with_isAnimating (v : bool) (s : State) :=
  mkState (cubieRefs s) v (moveQueue s) (currentMove s) (currentAngle s)
    (pivotRef s) (activeCubieIndices s) (orbitEnabled s) (dragStart s)
    (intersectedFaceNormal s) (intersectedCubieIndex s) (completed s).

Definition with_moveQueue (v : list QueuedMove) (s : State) :=
  mkState (cubieRefs s) (isAnimating s) v (currentMove s) (currentAngle s)
    (pivotRef s) (activeCubieIndices s) (orbitEnabled s) (dragStart s)
    (intersectedFaceNormal s) (intersectedCubieIndex s) (completed s).

Definition with_currentMove (v : option QueuedMove) (s : State) :=
  mkState (cubieRefs s) (isAnimating s) (moveQueue s) v (currentAngle s)
    (pivotRef s) (activeCubieIndices s) (orbitEnabled s) (dragStart s)
    (intersectedFaceNormal s) (intersectedCubieIndex s) (completed s).

Definition with_currentAngle (v : num) (s : State) :=
  mkState (cubieRefs s) (isAnimating s) (moveQueue s) (currentMove s) v
    (pivotRef s) (activeCubieIndices s) (orbitEnabled s) (dragStart s)
    (intersectedFaceNormal s) (intersectedCubieIndex s) (completed s).

Definition with_pivotRef (v : option Three.Object3D) (s : State) :=
  mkState (cubieRefs s) (isAnimating s) (moveQueue s) (currentMove s)
    (currentAngle s) v (activeCubieIndices s) (orbitEnabled s) (dragStart s)
    (intersectedFaceNormal s) (intersectedCubieIndex s) (completed s).

Definition with_activeCubieIndices (v : list nat) (s : State) :=
  mkState (cubieRefs s) (isAnimating s) (moveQueue s) (currentMove s)
    (currentAngle s) (pivotRef s) v (orbitEnabled s) (dragStart s)
    (intersectedFaceNormal s) (intersectedCubieIndex s) (completed s).

Definition with_orbitEnabled (v : bool) (s : State) :=
  mkState (cubieRefs s) (isAnimating s) (moveQueue s) (currentMove s)
    (currentAngle s) (pivotRef s) (activeCubieIndices s) v (dragStart s)
    (intersectedFaceNormal s) (intersectedCubieIndex s) (completed s).

Definition with_dragStart (v : option (num * num)) (s : State) :=
  mkState (cubieRefs s) (isAnimating s) (moveQueue s) (currentMove s)
    (currentAngle s) (pivotRef s) (activeCubieIndices s) (orbitEnabled s) v
    (intersectedFaceNormal s) (intersectedCubieIndex s) (completed s).

Definition with_intersectedFaceNormal (v : option Vec3) (s : State) :=
  mkState (cubieRefs s) (isAnimating s) (moveQueue s) (currentMove s)
    (currentAngle s) (pivotRef s) (activeCubieIndices s) (orbitEnabled s)
    (dragStart s) v (intersectedCubieIndex s) (completed s).

Definition with_intersectedCubieIndex (v : Z) (s : State) :=
  mkState (cubieRefs s) (isAnimating s) (moveQueue s) (currentMove s)
    (currentAngle s) (pivotRef s) (activeCubieIndices s) (orbitEnabled s)
    (dragStart s) (intersectedFaceNormal s) v (completed s).

Definition with_completed (v : list Move) (s : State) :=
  mkState (cubieRefs s) (isAnimating s) (moveQueue s) (currentMove s)
    (currentAngle s) (pivotRef s) (activeCubieIndices s) (orbitEnabled s)
    (dragStart s) (intersectedFaceNormal s) (intersectedCubieIndex s) v.

(** *** The imperative handle *)

(** A default parameter value. *)
Definition default (A : Type) (d : A) (arg : option A) : A :=
  match arg with
  | Some v => v
  | None => d
  end.

Definition addMove (m : Move) (speedMultiplier : option num) (s : State)
  : State :=
  let speedMultiplier := default 1 speedMultiplier in
  with_moveQueue (moveQueue s ++ [mkQueuedMove m speedMultiplier]) s.

Definition addMoves (moves : list Move) (speedMultiplier : option num)
  (s : State) : State :=
  let speedMultiplier := default 1 speedMultiplier in
  fold_left
    (fun s m =>
       with_moveQueue (moveQueue s ++ [mkQueuedMove m speedMultiplier]) s)
    moves s.

(** *** Initialization of the cubies *)

(** [for (let v = lo; v <= hi; v++) body(v)], threading the loop's state;
    [fuel] bounds the number of iterations. *)
Fixpoint for_loop (S : Type) (fuel : nat) (v hi : Z) (body : Z -> S -> S)
  (s : S) : S :=
  match fuel with
  | O => s
  | Datatypes.S fuel' =>
      if (v <=? hi)%Z then for_loop fuel' (v + 1)%Z hi body (body v s) else s
  end.

Definition for_range (S : Type) (lo hi : Z) (body : Z -> S -> S) (s : S) : S :=
  for_loop (Z.to_nat (hi - lo + 1)) lo hi body s.

(** The effect that builds [initialCubies]; the loop state is the counter
    [id] and the array. *)
Definition initialCubies : list CubieData :=
  snd
    (for_range (-1) 1 (fun x =>
       for_range (-1) 1 (fun y =>
         for_range (-1) 1 (fun z '(id, cubies) =>
           ((id + 1)%Z,
            cubies ++
              [ mkCubieData id
                  (mkVec3 (int x * (1 + CUBE_GAP)) (int y * (1 + CUBE_GAP))
                          (int z * (1 + CUBE_GAP)))
                  (mkVec3 0 0 0)
                  (mkVec3 (int x) (int y) (int z)) ]))))
       (0%Z, [])).

(** Rendering mounts one mesh per cubie, with the cubie's position and
    rotation, and stores it in [cubieRefs]. *)
Definition mount (cubies : list CubieData) : list (option Three.Object3D) :=
  map (fun data =>
         Some (Three.mkObject3D (position data) (rotation data) Three.Scene))
      cubies.

(** The component once mounted. *)
Definition mounted : State :=
  mkState (mount initialCubies) false [] None 0
    (Some (Three.mkObject3D Three.zero3 Three.zero3 Three.Scene))
    [] true None None (-1) [].

(** *** Array helpers *)

(** [array.forEach((element, index) => body)], threading a state. *)
Fixpoint forEach_from (A S : Type) (index : nat) (array : list A)
  (body : A -> nat -> S -> S) (s : S) : S :=
  match array with
  | [] => s
  | element :: rest =>
      forEach_from (Datatypes.S index) rest body (body element index s)
  end.

Definition forEach (A S : Type) (array : list A) (body : A -> nat -> S -> S)
  (s : S) : S :=
  forEach_from 0 array body s.

(** [array[index]] for an array of nullable objects: out of range reads
    [undefined], which is as falsy as [null]. *)
Definition at_index (A : Type) (array : list (option A)) (index : nat)
  : option A :=
  match nth_error array index with
  | Some element => element
  | None => None
  end.

(** In-place mutation of the object stored at [index]. *)
Fixpoint update_at (A : Type) (index : nat) (v : A) (array : list (option A))
  : list (option A) :=
  match array, index with
  | [], _ => []
  | _ :: rest, O => Some v :: rest
  | element :: rest, Datatypes.S index' => element :: update_at index' v rest
  end.

Definition HALF_PI : num := Num.PI / 2.

Section Engine.
Context {math : JSMath}.

(** A mesh's world position; without a mounted pivot nothing is attached
    to one. *)
Definition worldPosition (s : State) (mesh : Three.Object3D) : Vec3 :=
  match pivotRef s with
  | Some pivot => Three.getWorldPosition pivot mesh
  | None => Three.position mesh
  end.

(** *** The slice selector *)

Definition getCubiesInSlice (axis : Axis) (sliceIndex : num) (s : State)
  : list nat :=
  let epsilon := lit 0.1 in
  forEach (cubieRefs s)
    (fun mesh index indices =>
       match mesh with
       | None => indices
       | Some mesh =>
           let pos := worldPosition s mesh in
           let val := component pos axis in
           let normalizedVal := val / (1 + CUBE_GAP) in
           if Num.abs (normalizedVal - sliceIndex) <? epsilon
           then indices ++ [index]
           else indices
       end)
    [].

(** *** The move execution state machine *)

Definition startMove (m : Move) (speed : num) (s : State) : State :=
  match pivotRef s with
  | None => s
  | Some pivot =>
      let s := with_isAnimating true s in
      let s := with_currentMove (Some (mkQueuedMove m speed)) s in
      let s := with_currentAngle 0 s in
      let indices := getCubiesInSlice (axis m) (slice m) s in
      let s := with_activeCubieIndices indices s in
      let pivot := Three.set_rotation (mkVec3 0 0 0) pivot in
      let pivot := Three.set_position (mkVec3 0 0 0) pivot in
      let s := with_pivotRef (Some pivot) s in
      fold_left
        (fun s idx =>
           match at_index (cubieRefs s) idx with
           | Some mesh =>
               with_cubieRefs
                 (update_at idx (Three.attach pivot Three.Pivot mesh)
                    (cubieRefs s)) s
           | None => s
           end)
        indices s
  end.

(** The closure [snap] of [finishMove]. *)
Definition snap (val grid : num) : num := Num.round (val / grid) * grid.

(** The snapping of a mesh in [finishMove]: position to the grid of
    [1 + CUBE_GAP], rotation to multiples of [Math.PI / 2]. *)
Definition snapMesh (mesh : Three.Object3D) : Three.Object3D :=
  let pos := Three.position mesh in
  let rot := Three.rotation mesh in
  let mesh :=
    Three.set_position
      (mkVec3 (snap (vx pos) (1 + CUBE_GAP))
              (snap (vy pos) (1 + CUBE_GAP))
              (snap (vz pos) (1 + CUBE_GAP))) mesh in
  Three.set_rotation
    (mkVec3 (Num.round (vx rot / (Num.PI / 2)) * (Num.PI / 2))
            (Num.round (vy rot / (Num.PI / 2)) * (Num.PI / 2))
            (Num.round (vz rot / (Num.PI / 2)) * (Num.PI / 2))) mesh.

Definition finishMove (s : State) : State :=
  match pivotRef s, currentMove s with
  | Some pivot, Some current =>
      let moveObj := move current in
      let pivot :=
        Three.set_rotation
          (set_component (axis moveObj)
             (Num.PI / 2 * int (direction moveObj))
             (Three.rotation pivot)) pivot in
      let s := with_pivotRef (Some pivot) s in
      let s :=
        fold_left
          (fun s idx =>
             match at_index (cubieRefs s) idx with
             | Some mesh =>
                 let mesh := Three.attach pivot Three.Scene mesh in
                 let mesh := snapMesh mesh in
                 with_cubieRefs (update_at idx mesh (cubieRefs s)) s
             | None => s
             end)
          (activeCubieIndices s) s in
      let pivot := Three.set_rotation (mkVec3 0 0 0) pivot in
      let s := with_pivotRef (Some pivot) s in
      let s := with_completed (completed s ++ [moveObj]) s in
      let s := with_isAnimating false s in
      let s := with_currentMove None s in
      with_activeCubieIndices [] s
  | _, _ => s
  end.

(** The angle step of one tick: [speed] towards the target, clamped to
    the remaining angle. *)
Definition frame_step (delta : num) (current : QueuedMove) (angle : num)
  : num :=
  let baseSpeed := lit 5.0 * delta in
  let speed := baseSpeed * speed current in
  let targetAngle := Num.PI / 2 * int (direction (move current)) in
  let step := if 0 <? targetAngle then speed else - speed in
  let remaining := targetAngle - angle in
  if Num.abs remaining <? Num.abs step then remaining else step.

(** The per-frame callback. *)
Definition useFrame (delta : num) (s : State) : State :=
  match isAnimating s, currentMove s, pivotRef s with
  | true, Some current, Some pivot =>
      let step := frame_step delta current (currentAngle s) in
      let a := axis (move current) in
      let pivot :=
        Three.set_rotation
          (set_component a (component (Three.rotation pivot) a + step)
             (Three.rotation pivot)) pivot in
      let s := with_pivotRef (Some pivot) s in
      let s := with_currentAngle (currentAngle s + step) s in
      if Num.PI / 2 - lit 0.001 <=? Num.abs (currentAngle s)
      then finishMove s
      else s
  | _, _, _ =>
      if (0 <? List.length (moveQueue s))%nat && negb (isAnimating s)
      then match moveQueue s with
           | next :: rest =>
               startMove (move next) (speed next) (with_moveQueue rest s)
           | [] => s
           end
      else s
  end.

(** *** The gesture interpreter *)

(** What a pointer-down event carries: the object hit (a cubie mesh of
    [cubieRefs], or something else), the face normal already transformed to
    world space and rounded, and the pointer's client coordinates. *)
Inductive Target : Type := CubieMesh (index : nat) | OtherObject.

Record PointerEvent : Type := mkPointerEvent {
  object : Target;
  normal : Vec3;
  clientX : num;
  clientY : num
}.

(** [cubieRefs.current.indexOf(e.object)]. *)
Definition indexOf (s : State) (t : Target) : Z :=
  match t with
  | CubieMesh i =>
      match at_index (cubieRefs s) i with
      | Some _ => Z.of_nat i
      | None => (-1)%Z
      end
  | OtherObject => (-1)%Z
  end.

Definition isCubie (t : Target) : bool :=
  match t with
  | CubieMesh _ => true
  | OtherObject => false
  end.

Definition handlePointerDown (e : PointerEvent) (s : State) : State :=
  if isAnimating s || (0 <? List.length (moveQueue s))%nat then s
  else if isCubie (object e) then
    let s := with_orbitEnabled false s in
    let s := with_intersectedFaceNormal (Some (normal e)) s in
    let s := with_intersectedCubieIndex (indexOf s (object e)) s in
    with_dragStart (Some (clientX e, clientY e)) s
  else s.

Definition handlePointerUp (s : State) : State :=
  let s := with_orbitEnabled true s in
  let s := with_dragStart None s in
  let s := with_intersectedFaceNormal None s in
  with_intersectedCubieIndex (-1) s.

(** [cubieRefs.current[i]] for a number [i]. *)
Definition mesh_at (s : State) (i : Z) : option Three.Object3D :=
  if (i <? 0)%Z then None else at_index (cubieRefs s) (Z.to_nat i).

Definition flip_if (negative : bool) (m : Move) : Move :=
  if negative then set_direction (direction m * -1)%Z m else m.

(** The move a gesture infers, from the stored normal, the grabbed mesh's
    world position and the drag delta. *)
Definition gestureMove (normal worldPos : Vec3) (dx dy : num) : Move :=
  let absDx := Num.abs dx in
  let absDy := Num.abs dy in
  let isHorizontal := absDy <? absDx in
  if lit 0.5 <? Num.abs (vx normal) then
    if isHorizontal then
      flip_if (vx normal <? 0)
        (mkMove Y (Num.round (vy worldPos / (1 + CUBE_GAP)))
           (if 0 <? dx then -1 else 1))
    else
      flip_if (vx normal <? 0)
        (mkMove Z_ (Num.round (vz worldPos / (1 + CUBE_GAP)))
           (if 0 <? dy then -1 else 1))
  else if lit 0.5 <? Num.abs (vy normal) then
    if isHorizontal then
      flip_if (vy normal <? 0)
        (mkMove Z_ (Num.round (vz worldPos / (1 + CUBE_GAP)))
           (if 0 <? dx then -1 else 1))
    else
      flip_if (vy normal <? 0)
        (mkMove X (Num.round (vx worldPos / (1 + CUBE_GAP)))
           (if 0 <? dy then -1 else 1))
  else
    if isHorizontal then
      flip_if (vz normal <? 0)
        (mkMove Y (Num.round (vy worldPos / (1 + CUBE_GAP)))
           (if 0 <? dx then 1 else -1))
    else
      flip_if (vz normal <? 0)
        (mkMove X (Num.round (vx worldPos / (1 + CUBE_GAP)))
           (if 0 <? dy then 1 else -1)).

Definition triggerMoveFromGesture (dx dy : num) (s : State) : State :=
  match intersectedFaceNormal s, mesh_at s (intersectedCubieIndex s) with
  | Some normal, Some mesh =>
      let worldPos := worldPosition s mesh in
      let m := gestureMove normal worldPos dx dy in
      with_moveQueue (moveQueue s ++ [mkQueuedMove m 1]) s
  | _, _ => s
  end.

(** [Math.sqrt(v) < bound] for [bound > 0]: over exact numbers the square
    root is not rational, and the test is that of the squares. *)
Definition sqrt_ltb (v bound : num) : bool := v <? bound * bound.

Definition handlePointerMove (clientX clientY : num) (s : State) : State :=
  match dragStart s, intersectedFaceNormal s with
  | Some (startX, startY), Some _ =>
      if (intersectedCubieIndex s =? -1)%Z then s
      else
        let dx := clientX - startX in
        let dy := clientY - startY in
        if sqrt_ltb (dx * dx + dy * dy) 15 then s
        else
          let s := triggerMoveFromGesture dx dy s in
          let s := with_dragStart None s in
          let s := with_intersectedFaceNormal None s in
          let s := with_intersectedCubieIndex (-1) s in
          with_orbitEnabled true s
  | _, _ => s
  end.

(** *** The component driven by its environment *)

Inductive Event : Type :=
| AddMove (m : Move) (speedMultiplier : option num)
| AddMoves (moves : list Move) (speedMultiplier : option num)
| Frame (delta : num)
| PointerDown (e : PointerEvent)
| PointerUp
| PointerMove (clientX clientY : num).

Definition step (s : State) (ev : Event) : State :=
  match ev with
  | AddMove m speed => addMove m speed s
  | AddMoves moves speed => addMoves moves speed s
  | Frame delta => useFrame delta s
  | PointerDown e => handlePointerDown e s
  | PointerUp => handlePointerUp s
  | PointerMove x y => handlePointerMove x y s
  end.

Definition run (events : list Event) (s : State) : State :=
  fold_left step events s.

End Engine.

(** The mapping table of the notation translator. *)
Definition notation_table : list (string * (Axis * num * Z)) :=
  [ ("R", (X, 1, (-1)%Z)); ("L", (X, (-1)%Q, 1%Z));
    ("U", (Y, 1, (-1)%Z)); ("D", (Y, (-1)%Q, 1%Z));
    ("F", (Z_, 1, (-1)%Z)); ("B", (Z_, (-1)%Q, 1%Z));
    ("M", (X, 0, 1%Z)); ("E", (Y, 0, 1%Z)); ("S", (Z_, 0, (-1)%Z)) ]%string.

Definition triple (m : Move) : Axis * num * Z := (axis m, slice m, direction m).

Definition recognized (base : string) : Prop :=
  In base (map fst notation_table).


(** The history replayed backwards by [handleReset] of the application:
    [[...history].reverse().map(m => ({...m, direction: m.direction * -1}))]. *)
Definition reverseMoves (history : list Move) : list Move :=
  map (fun m => set_direction (direction m * -1)%Z m) (rev history).

(** ** A backend exact on quarter turns *)

(** The number of quarter turns nearest to an angle. *)
Definition turns (x : num) : Z := Qfloor (x / HALF_PI + (1 # 2))%Q.

(** Cosine and sine of [k] quarter turns. *)
Definition cosq (k : Z) : num :=
  match (k mod 4)%Z with
  | 0%Z => 1
  | 2%Z => (-1)%Q
  | _ => 0
  end.

Definition sinq (k : Z) : num :=
  match (k mod 4)%Z with
  | 1%Z => 1
  | 3%Z => (-1)%Q
  | _ => 0
  end.

(** What the properties of the rotations assume of the backend's
    transcendental functions: they are exact at the quarter turns. *)
Definition quarter_exact (math : JSMath) : Prop :=
  (forall k : Z, Math_cos (int k * HALF_PI) = cosq k) /\
  (forall k : Z, Math_sin (int k * HALF_PI) = sinq k) /\
  Math_asin 0 = 0 /\
  Math_asin 1 = HALF_PI /\
  Math_asin (-1)%Q = - HALF_PI /\
  Math_atan2 0 1 = 0 /\
  Math_atan2 1 0 = HALF_PI /\
  Math_atan2 0 (-1)%Q = Num.PI /\
  Math_atan2 (-1)%Q 0 = - HALF_PI.

(** A concrete backend for evaluation: every angle is read to the nearest
    quarter turn, every sine or tangent to the nearest axis. *)
Definition quarter_math : JSMath := {|
  Math_cos := fun x => cosq (turns x);
  Math_sin := fun x => sinq (turns x);
  Math_asin := fun v =>
    if lit 0.5 <? v then HALF_PI
    else if v <? lit (-0.5) then - HALF_PI
    else 0;
  Math_atan2 := fun y x =>
    if Num.abs y <=? Num.abs x
    then (if 0 <=? x then 0 else Num.PI)
    else (if 0 <? y then HALF_PI else - HALF_PI)
|}.

(** ** Vocabulary of the properties *)

Definition valid_direction (d : Z) : Prop := d = 1%Z \/ d = (-1)%Z.

Definition valid_move (m : Move) : Prop := valid_direction (direction m).

(** The integer lattice {-1,0,1}. *)
Definition lattice1 : list Z := [(-1)%Z; 0%Z; 1%Z].

(** The point of the grid at lattice coordinates (x, y, z). *)
Definition grid_point (x y z : Z) : Vec3 :=
  mkVec3 (int x * (1 + CUBE_GAP)) (int y * (1 + CUBE_GAP))
         (int z * (1 + CUBE_GAP)).

Definition grid_points : list Vec3 :=
  flat_map (fun x =>
    flat_map (fun y => map (fun z => grid_point x y z) lattice1) lattice1)
    lattice1.

(** A cube in canonical (snapped) state: every mesh is mounted under the
    scene, and the meshes occupy the 27 grid points, one each. *)
Definition canonical (s : State) : Prop :=
  exists meshes : list Three.Object3D,
    cubieRefs s = map Some meshes /\
    Forall (fun mesh => Three.parent mesh = Three.Scene) meshes /\
    Permutation (map Three.position meshes) grid_points.

(** The selector's test on one entry of [cubieRefs]. *)
Definition inSlice {math : JSMath} (axis : Axis) (sliceIndex : num)
  (s : State) (mesh : option Three.Object3D) : bool :=
  match mesh with
  | None => false
  | Some mesh =>
      Num.abs (component (worldPosition s mesh) axis / (1 + CUBE_GAP)
               - sliceIndex) <? lit 0.1
  end.

(** The same test on a position. *)
Definition posInSlice (axis : Axis) (sliceIndex : num) (p : Vec3) : bool :=
  Num.abs (component p axis / (1 + CUBE_GAP) - sliceIndex) <? lit 0.1.

(** [f] applied in place to the mesh at [idx], if one is mounted there. *)
Definition apply_at (f : Three.Object3D -> Three.Object3D)
  (refs : list (option Three.Object3D)) (idx : nat)
  : list (option Three.Object3D) :=
  match at_index refs idx with
  | Some mesh => update_at idx (f mesh) refs
  | None => refs
  end.

(** A queued move as the data model has it: a direction of +1 or -1 and a
    positive speed multiplier. *)
Definition valid_queued (q : QueuedMove) : Prop :=
  valid_move (move q) /\ (0 < speed q)%Q.

(** Events as the environment delivers them: moves of the data model with
    positive speed multipliers, frames with a non-negative elapsed time. *)
Definition valid_event (ev : Event) : Prop :=
  match ev with
  | AddMove m speedMultiplier =>
      valid_move m /\ (0 < default 1 speedMultiplier)%Q
  | AddMoves moves speedMultiplier =>
      Forall valid_move moves /\ (0 < default 1 speedMultiplier)%Q
  | Frame delta => (0 <= delta)%Q
  | PointerDown _ | PointerUp | PointerMove _ _ => True
  end.

(** The move being animated, if any. *)
Definition in_flight (s : State) : list Move :=
  match currentMove s with
  | Some current => [move current]
  | None => []
  end.

(** Every move accepted so far, oldest first: completed, in flight, queued. *)
Definition pipeline (s : State) : list Move :=
  completed s ++ in_flight s ++ map move (moveQueue s).

(** The rotation of the pivot group. *)
Definition pivot_rotation (s : State) : Vec3 :=
  match pivotRef s with
  | Some pivot => Three.rotation pivot
  | None => Three.zero3
  end.

(** The invariant of the state machine. *)
Definition machine_ok (s : State) : Prop :=
  Forall valid_queued (moveQueue s) /\
  pivotRef s <> None /\
  match currentMove s with
  | Some current =>
      isAnimating s = true /\
      valid_queued current /\
      (0 <= inject_Z (direction (move current)) * currentAngle s)%Q /\
      (Qabs (currentAngle s) < (Num.PI / 2 - lit 0.001)%num)%Q /\
      pivot_rotation s =
        set_component (axis (move current)) (currentAngle s) Three.zero3
  | None =>
      isAnimating s = false /\
      (Qabs (currentAngle s) <= (Num.PI / 2)%num)%Q /\
      pivot_rotation s = Three.zero3
  end.

(** The angle step of one tick as the specification words it: the
    direction times the smaller of |baseSpeed * speedMultiplier * delta| and
    the remaining angle to the target. *)
Definition specified_step (delta : num) (current : QueuedMove) (angle : num)
  : Q :=
  (inject_Z (direction (move current)) *
   Qmin (Qabs (5 * speed current * delta))
        (Qabs ((Num.PI / 2)%num * inject_Z (direction (move current))
               - angle)))%Q.

Section Vocabulary.
Context {math : JSMath}.

(** The move a pointer-move event makes the gesture interpreter enqueue,
    if any. *)
Definition gestured (x y : num) (s : State) : list Move :=
  match dragStart s, intersectedFaceNormal s,
        mesh_at s (intersectedCubieIndex s) with
  | Some (startX, startY), Some normal, Some mesh =>
      if (intersectedCubieIndex s =? -1)%Z then []
      else
        let dx := x - startX in
        let dy := y - startY in
        if sqrt_ltb (dx * dx + dy * dy) 15 then []
        else [gestureMove normal (worldPosition s mesh) dx dy]
  | _, _, _ => []
  end.

(** The moves an event asks the machine to perform. *)
Definition requested (s : State) (ev : Event) : list Move :=
  match ev with
  | AddMove m _ => [m]
  | AddMoves moves _ => moves
  | PointerMove x y => gestured x y s
  | Frame _ | PointerDown _ | PointerUp => []
  end.

(** All the moves requested along a run, in the order of the requests. *)
Fixpoint requests (events : list Event) (s : State) : list Move :=
  match events with
  | [] => []
  | ev :: rest => requested s ev ++ requests rest (step s ev)
  end.

(** A queued move run to completion in one go. *)
Definition perform (q : QueuedMove) (s : State) : State :=
  finishMove (startMove (move q) (speed q) s).

(** The move in flight, if any, run to completion. *)
Definition finish_current (s : State) : State :=
  match currentMove s with
  | Some _ => finishMove s
  | None => s
  end.

(** The state the machine settles in once every accepted move has run. *)
Definition drained (s : State) : State :=
  fold_left (fun s q => perform q s) (moveQueue s)
    (with_moveQueue [] (finish_current s)).

End Vocabulary.

(** The pivot is mounted, and [isAnimating] says whether a move is current. *)
Definition slots_ok (s : State) : Prop :=
  pivotRef s <> None /\
  match currentMove s with
  | Some _ => isAnimating s = true
  | None => isAnimating s = false
  end.

(** What one event does to the machine: it leaves the animation as it is
    (and may append to the queue), or starts the head of the queue from the
    idle state, or completes the move in flight and returns to idle. *)
Inductive transition (s s' : State) : Prop :=
| stays (added : list QueuedMove) :
    completed s' = completed s ->
    currentMove s' = currentMove s ->
    isAnimating s' = isAnimating s ->
    moveQueue s' = moveQueue s ++ added ->
    transition s s'
| starts (next : QueuedMove) (rest : list QueuedMove) :
    currentMove s = None -> isAnimating s = false ->
    moveQueue s = next :: rest ->
    moveQueue s' = rest -> currentMove s' = Some next ->
    isAnimating s' = true -> completed s' = completed s ->
    transition s s'
| completes (current : QueuedMove) :
    currentMove s = Some current -> isAnimating s = true ->
    moveQueue s' = moveQueue s -> currentMove s' = None ->
    isAnimating s' = false -> completed s' = completed s ++ [move current] ->
    transition s s'.

(** Equality of states up to [currentAngle], which is left over from the
    last animation. *)
Definition same_but_angle (s s' : State) : Prop :=
  with_currentAngle 0 s = with_currentAngle 0 s'.

(** An upper bound, in frames of at least [dmin] seconds, on the time the
    machine needs to settle. *)
Definition frames_of (dmin : num) (q : QueuedMove) : Q :=
  (2 + (Num.PI / 2)%num / (5 * speed q * dmin))%Q.

Definition frames_left (dmin : num) (s : State) : Q :=
  (match currentMove s with
   | Some current =>
       1 + ((Num.PI / 2)%num - Qabs (currentAngle s))
           / (5 * speed current * dmin)
   | None => 0
   end
   + fold_right Qplus 0 (map (frames_of dmin) (moveQueue s)))%Q.

(** The face a normal belongs to, and the rotation axis of the face/drag
    table. *)
Definition face (normal : Vec3) : Axis :=
  if lit 0.5 <? Num.abs (vx normal) then X
  else if lit 0.5 <? Num.abs (vy normal) then Y
  else Z_.

Definition gesture_axis (f : Axis) (horizontal : bool) : Axis :=
  match f, horizontal with
  | X, true => Y
  | X, false => Z_
  | Y, true => Z_
  | Y, false => X
  | Z_, true => Y
  | Z_, false => X
  end.

(** ** The cube at rest *)

(** [k] quarter turns as an angle. *)
Definition quarter (k : Z) : num := int k * HALF_PI.

(** The Euler angles a mesh can have at rest: those the backend extracts
    from the 24 rotations of the cube. *)
Definition rest_rotations : list Vec3 :=
  flat_map (fun x =>
    map (fun z => mkVec3 (quarter x) 0 (quarter z)) [(-1)%Z; 0%Z; 1%Z; 2%Z])
    [(-1)%Z; 0%Z; 1%Z; 2%Z]
  ++
  flat_map (fun x =>
    [mkVec3 (quarter x) (quarter 1) 0; mkVec3 (quarter x) (quarter (-1)) 0])
    [(-1)%Z; 0%Z; 1%Z; 2%Z].

(** The 24 rotation matrices of the cube. *)
Definition rotation_matrices : list Three.Matrix3 :=
  map (@Three.makeRotationFromEuler quarter_math) rest_rotations.

(** Equality of numbers in lowest terms, of vectors and of matrices. *)
Definition num_eqb (x y : num) : bool :=
  (Qnum x =? Qnum y)%Z && (Qden x =? Qden y)%positive.

Definition vec_eqb (u v : Vec3) : bool :=
  num_eqb (vx u) (vx v) && num_eqb (vy u) (vy v) && num_eqb (vz u) (vz v).

Definition matrix_eqb (a b : Three.Matrix3) : bool :=
  num_eqb (Three.m11 a) (Three.m11 b) && num_eqb (Three.m12 a) (Three.m12 b)
  && num_eqb (Three.m13 a) (Three.m13 b) && num_eqb (Three.m21 a) (Three.m21 b)
  && num_eqb (Three.m22 a) (Three.m22 b) && num_eqb (Three.m23 a) (Three.m23 b)
  && num_eqb (Three.m31 a) (Three.m31 b) && num_eqb (Three.m32 a) (Three.m32 b)
  && num_eqb (Three.m33 a) (Three.m33 b).

Definition is_rotation (m : Three.Matrix3) : bool :=
  existsb (matrix_eqb m) rotation_matrices.

(** Euler angles that are whole numbers of quarter turns. *)
Definition aligned (e : Vec3) : bool :=
  vec_eqb e (mkVec3 (quarter (turns (vx e))) (quarter (turns (vy e)))
               (quarter (turns (vz e)))).

(** The pivot as [startMove] resets it and as [finishMove] sets it. *)
Definition pivot0 : Three.Object3D :=
  Three.mkObject3D Three.zero3 Three.zero3 Three.Scene.

Definition pivot1 (a : Axis) (d : Z) : Three.Object3D :=
  Three.set_rotation
    (set_component a (Num.PI / 2 * int d) (Three.rotation pivot0)) pivot0.

Section Turns.
Context {math : JSMath}.

(** The matrix [attach] decomposes. *)
Definition attach_matrix (pivot : Three.Object3D) (target : Three.Parent)
  (o : Three.Object3D) : Three.Matrix4 :=
  Three.multiply
    (Three.multiply (Three.invert (Three.parentWorld pivot target))
       (Three.parentWorld pivot (Three.parent o)))
    (Three.matrix o).

(** A quarter turn of one mesh by a move: [startMove] attaches it to the
    zeroed pivot, [finishMove] sets the pivot to the target angle, attaches
    the mesh back to the scene and snaps it. *)
Definition turn_mesh (a : Axis) (d : Z) (mesh : Three.Object3D)
  : Three.Object3D :=
  snapMesh
    (Three.attach (pivot1 a d) Three.Scene
       (Three.attach pivot0 Three.Pivot mesh)).

(** What a move does to one mesh of a cube at rest. *)
Definition move_mesh (m : Move) (mesh : Three.Object3D) : Three.Object3D :=
  if posInSlice (axis m) (slice m) (Three.position mesh)
  then turn_mesh (axis m) (direction m) mesh
  else mesh.

End Turns.

(** A mesh at rest: under the scene, at a grid point, with the Euler
    angles of one of the 24 rotations. *)
Definition at_rest (mesh : Three.Object3D) : Prop :=
  Three.parent mesh = Three.Scene /\
  In (Three.position mesh) grid_points /\
  In (Three.rotation mesh) rest_rotations.

Definition parent_eqb (p q : Three.Parent) : bool :=
  match p, q with
  | Three.Scene, Three.Scene | Three.Pivot, Three.Pivot => true
  | _, _ => false
  end.

(** A mesh at rest, as a check. *)
Definition at_restb (mesh : Three.Object3D) : bool :=
  parent_eqb (Three.parent mesh) Three.Scene
  && existsb (vec_eqb (Three.position mesh)) grid_points
  && existsb (vec_eqb (Three.rotation mesh)) rest_rotations.

(** A cube at rest: the pivot is mounted and every mesh is mounted and at
    rest. *)
Definition resting (s : State) : Prop :=
  pivotRef s <> None /\
  Forall (fun ref => exists mesh, ref = Some mesh /\ at_rest mesh)
         (cubieRefs s).

Section Sequences.
Context {math : JSMath}.

(** What a sequence of moves does to one mesh of a cube at rest. *)
Definition moves_mesh (moves : list Move) (mesh : Three.Object3D)
  : Three.Object3D :=
  fold_left (fun mesh m => move_mesh m mesh) moves mesh.

End Sequences.

(** The move with the direction negated. *)
Definition negated (m : Move) : Move := set_direction (direction m * -1)%Z m.

(** The frames a queue needs, in frames of at least [dmin] seconds. *)
Definition queue_frames (dmin : num) (queue : list QueuedMove) : Q :=
  fold_right Qplus 0%Q (map (frames_of dmin) queue).

(** The queue [addMoves] builds. *)
Definition queued (moves : list Move) (sp : option num) : list QueuedMove :=
  map (fun m => mkQueuedMove m (default 1 sp)) moves.

Section FrameCases.
Context {math : JSMath}.

(** What a frame does, case by case. *)
Inductive frame_case (delta : num) (s s' : State) : Prop :=
| frame_idle :
    currentMove s = None -> moveQueue s = [] -> s' = s ->
    frame_case delta s s'
| frame_start (next : QueuedMove) (rest : list QueuedMove) :
    currentMove s = None -> isAnimating s = false ->
    moveQueue s = next :: rest ->
    s' = startMove (move next) (speed next) (with_moveQueue rest s) ->
    moveQueue s' = rest -> currentMove s' = Some next ->
    isAnimating s' = true -> completed s' = completed s ->
    frame_case delta s s'
| frame_tick (current : QueuedMove) :
    currentMove s = Some current -> isAnimating s = true ->
    moveQueue s' = moveQueue s -> currentMove s' = Some current ->
    isAnimating s' = true -> completed s' = completed s ->
    cubieRefs s' = cubieRefs s ->
    frame_case delta s s'
| frame_finish (current : QueuedMove) :
    currentMove s = Some current -> isAnimating s = true ->
    moveQueue s' = moveQueue s -> currentMove s' = None ->
    isAnimating s' = false -> completed s' = completed s ++ [move current] ->
    frame_case delta s s'.

End FrameCases.

Unset Implicit Arguments.

Section Tracking.
Context {math : JSMath}.

(** The cube follows its moves: once the move in flight, if any, has
    finished, every mesh is where the moves completed so far take it from
    its mounting. *)
Definition tracked (s : State) : Prop :=
  cubieRefs (finish_current s) =
  map (option_map (moves_mesh (completed (finish_current s))))
      (cubieRefs mounted).

Definition coherent (s : State) : Prop :=
  machine_ok s /\ Forall valid_move (completed s) /\ tracked s.

End Tracking.

(** ** components/Cubie.tsx *)

(** [COLORS] of types.ts. *)
Module COLORS.
Definition base : string := "#111111".
Definition right : string := "#b90000".
Definition left : string := "#ff5900".
Definition top : string := "#ffffff".
Definition bottom : string := "#ffd500".
Definition front : string := "#009b48".
Definition back : string := "#0045ad".
End COLORS.

Definition STICKER_SIZE : num := lit 0.88.
Definition OFFSET : num := CUBE_SIZE / 2.

(** The props of a [Sticker]: a plane of side [STICKER_SIZE], which the
    backend builds in its local xy plane facing +z, placed at [position]
    with the Euler angles [rotation] inside the cubie's mesh. *)
Module Sticker.
Record props : Type := mk { color : string; position : Vec3; rotation : Vec3 }.
End Sticker.

(** [cond && <Sticker ... />] among the children of an element. *)
Definition when (cond : bool) (child : Sticker.props) : list Sticker.props :=
  if cond then [child] else [].

(** The stickers [Cubie] renders inside its mesh, in the order of the
    source: right, left, top, bottom, front, back. *)
Definition Cubie (initialPosition : Vec3) : list Sticker.props :=
  let ix := vx initialPosition in
  let iy := vy initialPosition in
  let iz := vz initialPosition in
  when (Num.eqb ix 1)
    (Sticker.mk COLORS.right (mkVec3 (OFFSET + lit 0.01) 0 0)
       (mkVec3 0 (Num.PI / 2) 0))
  ++ when (Num.eqb ix (-1)%Q)
       (Sticker.mk COLORS.left (mkVec3 (- OFFSET - lit 0.01) 0 0)
          (mkVec3 0 (- Num.PI / 2) 0))
  ++ when (Num.eqb iy 1)
       (Sticker.mk COLORS.top (mkVec3 0 (OFFSET + lit 0.01) 0)
          (mkVec3 (- Num.PI / 2) 0 0))
  ++ when (Num.eqb iy (-1)%Q)
       (Sticker.mk COLORS.bottom (mkVec3 0 (- OFFSET - lit 0.01) 0)
          (mkVec3 (Num.PI / 2) 0 0))
  ++ when (Num.eqb iz 1)
       (Sticker.mk COLORS.front (mkVec3 0 0 (OFFSET + lit 0.01))
          (mkVec3 0 0 0))
  ++ when (Num.eqb iz (-1)%Q)
       (Sticker.mk COLORS.back (mkVec3 0 0 (- OFFSET - lit 0.01))
          (mkVec3 0 Num.PI 0)).

(** The six sticker colours. *)
Definition face_colors : list string :=
  [COLORS.right; COLORS.left; COLORS.top; COLORS.bottom; COLORS.front;
   COLORS.back].

(** Whether a cubie carries a sticker of the colour. *)
Definition shows (c : string) (data : CubieData) : bool :=
  existsb (fun st => String.eqb (Sticker.color st) c)
          (Cubie (initialPosition data)).

Definition dot (u v : Vec3) : num :=
  vx u * vx v + vy u * vy v + vz u * vz v.

Definition scale (k : num) (v : Vec3) : Vec3 :=
  mkVec3 (k * vx v) (k * vy v) (k * vz v).

Section Stickers.
Context {math : JSMath}.

(** The direction a sticker faces: the plane's normal +z turned by the
    sticker's Euler angles. *)
Definition facing (st : Sticker.props) : Vec3 :=
  Three.apply3 (Three.makeRotationFromEuler (Sticker.rotation st))
    (mkVec3 0 0 1).

End Stickers.

(** ** App.tsx

    The application around the cube: the history of moves, the lock of the
    user interface, and the scramble and reset actions.  [useState] cells
    are fields of the state; a state update takes effect at once, and the
    effect that watches [solveProgress] runs after every event (React
    renders between two events).  The callbacks [setTimeout] has pending
    are counted, and fire as events of their own.  [cubeRef.current] is the
    mounted cube component. *)

Module App.

(** [solveProgress]: [{ current, total }]. *)
Record Progress : Type := mkProgress { current : Z; total : Z }.

Record state : Type := mk {
  history : list Move;
  isBusy : bool;
  isSolving : bool;
  solveProgress : option Progress;
  cube : State;
  timeouts : nat
}.

Definition initial : state := mk [] false false None mounted 0.

Definition with_cube (c : State) (a : state) : state :=
  mk (history a) (isBusy a) (isSolving a) (solveProgress a) c (timeouts a).

(** [handleMoveComplete], the cube's [onMoveComplete]. *)
Definition handleMoveComplete (m : Move) (a : state) : state :=
  if isSolving a then
    mk (history a) (isBusy a) (isSolving a)
      (match solveProgress a with
       | None => None
       | Some prev => Some (mkProgress (current prev + 1) (total prev))
       end)
      (cube a) (timeouts a)
  else
    mk (history a ++ [m]) (isBusy a) (isSolving a) (solveProgress a)
      (cube a) (timeouts a).

(** The effect on [solveProgress]: the reset has finished. *)
Definition monitor (a : state) : state :=
  match solveProgress a with
  | Some p =>
      if (total p <=? current p)%Z && (0 <? total p)%Z
      then mk [] false false None (cube a) (timeouts a)
      else a
  | None => a
  end.

Definition performNotationMove (notation : string) (a : state) : state :=
  if isBusy a then a
  else
    let move := getMoveFromNotation notation in
    with_cube (addMove move (Some (lit 1.5)) (cube a)) a.

(** [array[Math.floor(r * array.length)]] for [r] a value of
    [Math.random()]; out of the array's range the read is [undefined]. *)
Definition pick {A : Type} (array : list A) (r : num) : option A :=
  let index := Qfloor (r * int (Z.of_nat (List.length array)))%num in
  if (index <? 0)%Z then None else nth_error array (Z.to_nat index).

(** The moves [handleScramble] draws; [random k] is the value of the k-th
    call of [Math.random()].  [None] stands for a move with an undefined
    field, which [Math.random]'s range [0, 1) excludes. *)
Fixpoint scrambleMoves (random : nat -> num) (i count : nat)
  : option (list Move) :=
  match count with
  | O => Some []
  | S count' =>
      match pick [X; Y; Z_] (random (3 * i)%nat),
            pick [(-1)%Q; 0; 1] (random (3 * i + 1)%nat),
            pick [1%Z; (-1)%Z] (random (3 * i + 2)%nat),
            scrambleMoves random (S i) count' with
      | Some a, Some sl, Some d, Some moves => Some (mkMove a sl d :: moves)
      | _, _, _, _ => None
      end
  end.

Definition handleScramble (random : nat -> num) (a : state) : state :=
  if isBusy a || (0 <? List.length (history a))%nat then a
  else
    match scrambleMoves random 0 20 with
    | Some moves =>
        mk [] true (isSolving a) (solveProgress a)
          (addMoves moves (Some 6) (cube a)) (S (timeouts a))
    | None => a
    end.

(** The callback of [setTimeout(() => setIsBusy(false), 1500)]. *)
Definition timeout (a : state) : state :=
  match timeouts a with
  | O => a
  | S pending =>
      mk (history a) false (isSolving a) (solveProgress a) (cube a) pending
  end.

Definition handleReset (a : state) : state :=
  if isBusy a || (List.length (history a) =? 0)%nat then a
  else
    let reverseMoves := reverseMoves (history a) in
    mk (history a) true true
      (Some (mkProgress 0 (Z.of_nat (List.length reverseMoves))))
      (addMoves reverseMoves (Some (lit 3.0)) (cube a)) (timeouts a).

Inductive event : Type :=
| Click (notation : string)
| Scramble (random : nat -> num)
| Reset
| Timeout
| Cube (ev : Event).

(** The events the cube component takes from outside [App]: frames and
    pointer events; its imperative handle is [App]'s alone. *)
Definition external (ev : Event) : bool :=
  match ev with
  | AddMove _ _ | AddMoves _ _ => false
  | Frame _ | PointerDown _ | PointerUp | PointerMove _ _ => true
  end.

Section WithMath.
Context {math : JSMath}.

(** An event of the cube component; its calls of [onMoveComplete] reach
    [handleMoveComplete]. *)
Definition onCube (ev : Event) (a : state) : state :=
  let c := step (cube a) ev in
  let calls := skipn (List.length (completed (cube a))) (completed c) in
  fold_left (fun a m => handleMoveComplete m a) calls (with_cube c a).

Definition step (a : state) (ev : event) : state :=
  monitor
    match ev with
    | Click notation => performNotationMove notation a
    | Scramble random => handleScramble random a
    | Reset => handleReset a
    | Timeout => timeout a
    | Cube ev => onCube ev a
    end.

Definition run (events : list event) (a : state) : state :=
  fold_left step events a.

End WithMath.

End App.

(** One of the 18 quarter turns of the data model: a slice among -1, 0, 1
    and a direction of +1 or -1. *)
Definition legal (m : Move) : Prop :=
  valid_direction (direction m) /\
  exists k : Z, In k lattice1 /\ slice m = int k.


(** The events of a session before a reset: clicks on the move buttons,
    scrambles, timeouts, and frames and pointer events of the cube. *)
Definition playing (ev : App.event) : Prop :=
  match ev with
  | App.Reset => False
  | App.Cube ev => App.external ev = true /\ valid_event ev
  | App.Click _ | App.Scramble _ | App.Timeout => True
  end.

Section Session.
Context {math : JSMath}.

(** Before a reset the history is the list of the moves the cube has
    completed, and the cube is where these moves have brought it. *)
Definition recording (a : App.state) : Prop :=
  App.isSolving a = false /\ App.solveProgress a = None /\
  App.history a = completed (App.cube a) /\ coherent (App.cube a).

(** While a reset replays [n] moves, the progress counts the moves the
    cube has completed since it began; once all are completed the lock is
    released and the history cleared. *)
Definition resetting (h : list Move) (base n : nat) (a : App.state) : Prop :=
  slots_ok (App.cube a) /\
  List.length (pipeline (App.cube a)) = (base + n)%nat /\
  ((exists k : nat,
      (k < n)%nat /\
      List.length (completed (App.cube a)) = (base + k)%nat /\
      App.history a = h /\ App.isBusy a = true /\ App.isSolving a = true /\
      App.solveProgress a =
        Some (App.mkProgress (Z.of_nat k) (Z.of_nat n))) \/
   (List.length (completed (App.cube a)) = (base + n)%nat /\
    App.history a = [] /\ App.isBusy a = false /\ App.isSolving a = false /\
    App.solveProgress a = None)).

End Session.

Set Implicit Arguments.

(** * Properties *)

(** ** Arithmetic of the number model *)

Lemma add_correct (x y : num) : ((x + y)%num == x + y)%Q.
Proof. apply Qred_correct. Qed.

Lemma sub_correct (x y : num) : ((x - y)%num == x - y)%Q.
Proof. apply Qred_correct. Qed.

Lemma mul_correct (x y : num) : ((x * y)%num == x * y)%Q.
Proof. apply Qred_correct. Qed.

Lemma div_correct (x y : num) : ((x / y)%num == x / y)%Q.
Proof. apply Qred_correct. Qed.

Lemma neg_correct (x : num) : ((- x)%num == - x)%Q.
Proof. apply Qred_correct. Qed.

Lemma abs_correct (x : num) : (Num.abs x == Qabs x)%Q.
Proof. apply Qred_correct. Qed.

Lemma lit_correct (q : Q) : (lit q == q)%Q.
Proof. apply Qred_correct. Qed.

Lemma ltb_lt (x y : num) : (x <? y) = true <-> (x < y)%Q.
Proof.
  unfold Num.ltb. rewrite negb_true_iff.
  split; intro H.
  - apply Qnot_le_lt. intro Hle. apply Qle_bool_iff in Hle. congruence.
  - destruct (Qle_bool y x) eqn:E; [|reflexivity].
    apply Qle_bool_iff in E. exfalso. apply (Qlt_not_le _ _ H E).
Qed.

Lemma ltb_ge (x y : num) : (x <? y) = false <-> (y <= x)%Q.
Proof.
  unfold Num.ltb. rewrite negb_false_iff. apply Qle_bool_iff.
Qed.

Lemma leb_le (x y : num) : (x <=? y) = true <-> (x <= y)%Q.
Proof. apply Qle_bool_iff. Qed.

Lemma leb_gt (x y : num) : (x <=? y) = false <-> (y < x)%Q.
Proof.
  unfold Num.leb. split; intro H.
  - apply Qnot_le_lt. intro Hle. apply Qle_bool_iff in Hle. congruence.
  - destruct (Qle_bool x y) eqn:E; [|reflexivity].
    apply Qle_bool_iff in E. exfalso. apply (Qlt_not_le _ _ H E).
Qed.

(** The operations respect numerical equality. *)

#[global] Instance add_wd : Proper (Qeq ==> Qeq ==> Qeq) Num.add.
Proof. intros x x' Hx y y' Hy. rewrite !add_correct, Hx, Hy. reflexivity. Qed.

#[global] Instance sub_wd : Proper (Qeq ==> Qeq ==> Qeq) Num.sub.
Proof. intros x x' Hx y y' Hy. rewrite !sub_correct, Hx, Hy. reflexivity. Qed.

#[global] Instance mul_wd : Proper (Qeq ==> Qeq ==> Qeq) Num.mul.
Proof. intros x x' Hx y y' Hy. rewrite !mul_correct, Hx, Hy. reflexivity. Qed.

#[global] Instance div_wd : Proper (Qeq ==> Qeq ==> Qeq) Num.div.
Proof. intros x x' Hx y y' Hy. rewrite !div_correct, Hx, Hy. reflexivity. Qed.

#[global] Instance neg_wd : Proper (Qeq ==> Qeq) Num.neg.
Proof. intros x x' Hx. rewrite !neg_correct, Hx. reflexivity. Qed.

#[global] Instance abs_wd : Proper (Qeq ==> Qeq) Num.abs.
Proof. intros x x' Hx. rewrite !abs_correct, Hx. reflexivity. Qed.

#[global] Instance ltb_wd : Proper (Qeq ==> Qeq ==> eq) Num.ltb.
Proof. intros x x' Hx y y' Hy. unfold Num.ltb. rewrite Hx, Hy. reflexivity. Qed.

#[global] Instance leb_wd : Proper (Qeq ==> Qeq ==> eq) Num.leb.
Proof. intros x x' Hx y y' Hy. unfold Num.leb. rewrite Hx, Hy. reflexivity. Qed.

#[global] Instance round_wd : Proper (Qeq ==> eq) Num.round.
Proof. intros x x' Hx. unfold Num.round. rewrite Hx. reflexivity. Qed.

(** Rewrites the operations of the number model into those of [Q]. *)
Ltac to_Q :=
  rewrite ?add_correct, ?sub_correct, ?mul_correct, ?div_correct,
    ?neg_correct, ?abs_correct, ?lit_correct.

Ltac to_Q_in H :=
  rewrite ?add_correct, ?sub_correct, ?mul_correct, ?div_correct,
    ?neg_correct, ?abs_correct, ?lit_correct in H.

(** Two results of the model's operations are equal terms as soon as they
    are equal numbers. *)
Lemma mul_eq (x y x' y' : num) : (x * y == x' * y')%Q -> x * y = x' * y'.
Proof. intro H. apply Qred_complete, H. Qed.

Lemma round_int (k : Z) (x : num) : (x == inject_Z k)%Q -> Num.round x = int k.
Proof.
  intro H. unfold Num.round, int. f_equal.
  rewrite H.
  assert (E : (inject_Z k + (1 # 2) == inject_Z (2 * k + 1) / inject_Z 2)%Q).
  { rewrite inject_Z_plus, inject_Z_mult. field. }
  rewrite E. rewrite <- Zdiv_Qdiv.
  symmetry. apply Z.div_unique with (r := 1%Z); lia.
Qed.

Lemma round_is_int (x : num) : exists k, Num.round x = int k.
Proof. eexists. reflexivity. Qed.

Lemma snap_of_multiple (k : Z) (v grid : num) :
  ~ (grid == 0)%Q -> (v == inject_Z k * grid)%Q -> snap v grid = int k * grid.
Proof.
  intros Hg Hv. unfold snap.
  rewrite (@round_int k); [reflexivity|].
  to_Q. rewrite Hv. field. exact Hg.
Qed.

(** ** The notation translator *)

Lemma switch_no_match (A : Type) (scrutinee : string)
  (cases : list (string * A)) (current : A) :
  ~ In scrutinee (map fst cases) -> switch scrutinee cases current = current.
Proof.
  induction cases as [|[label v] rest IH]; intro Hnot; simpl.
  - reflexivity.
  - destruct (String.eqb_spec scrutinee label) as [E|_].
    + exfalso. apply Hnot. left. symmetry. exact E.
    + apply IH. intro Hin. apply Hnot. right. exact Hin.
Qed.

(** types.ts: every token of the table translates to its row. *)
Lemma getMoveFromNotation_table (token : string) (row : Axis * num * Z) :
  In (token, row) notation_table ->
  triple (getMoveFromNotation token) = row.
Proof.
  intro H. simpl in H.
  repeat (destruct H as [H|H]; [inversion H; subst; reflexivity|]).
  contradiction.
Qed.

(** types.ts: the prime suffix negates the direction of the row. *)
Lemma getMoveFromNotation_primed (token : string) (a : Axis) (sl : num)
  (d : Z) :
  In (token, (a, sl, d)) notation_table ->
  triple (getMoveFromNotation (token ++ "'")) = (a, sl, (- d)%Z).
Proof.
  intro H. simpl in H.
  repeat (destruct H as [H|H]; [inversion H; subst; reflexivity|]).
  contradiction.
Qed.

(** types.ts: an unrecognized base token falls back to the default move,
    negated when the notation holds a prime. *)
Lemma getMoveFromNotation_fallback (notation : string) :
  ~ recognized (replace "'" "" notation) ->
  triple (getMoveFromNotation notation) =
  (X, 0, if includes "'" notation then (-1)%Z else 1%Z).
Proof.
  intro H. unfold getMoveFromNotation.
  rewrite switch_no_match by exact H.
  destruct (includes "'" notation); reflexivity.
Qed.

(** C2: the translator of types.ts maps every token of the table to its
    row and, with the prime suffix, to the row with the direction negated;
    an unrecognized base token falls back to (x, 0, +1), negated when the
    notation holds a prime.  The copy of the translator in the single-file
    build has no case for M, E and S: there E and S, which the table maps to
    (y, 0, +1) and (z, 0, -1), fall through to the default (x, 0, +1). *)
Theorem getMoveFromNotation_spec :
  (forall (token : string) (a : Axis) (sl : num) (d : Z),
     In (token, (a, sl, d)) notation_table ->
     triple (getMoveFromNotation token) = (a, sl, d) /\
     triple (getMoveFromNotation (token ++ "'")) = (a, sl, (- d)%Z)) /\
  (forall notation : string,
     ~ recognized (replace "'" "" notation) ->
     triple (getMoveFromNotation notation) =
     (X, 0, if includes "'" notation then (-1)%Z else 1%Z)) /\
  In ("E"%string, (Y, 0, 1%Z)) notation_table /\
  triple (SingleFile.getMoveFromNotation "E") = (X, 0, 1%Z) /\
  In ("S"%string, (Z_, 0, (-1)%Z)) notation_table /\
  triple (SingleFile.getMoveFromNotation "S") = (X, 0, 1%Z).
Proof.
  split.
  { intros token a sl d H. split.
    - apply getMoveFromNotation_table, H.
    - apply getMoveFromNotation_primed, H. }
  split; [exact getMoveFromNotation_fallback|].
  split; [simpl; do 7 right; left; reflexivity|].
  split; [reflexivity|].
  split; [simpl; do 8 right; left; reflexivity|reflexivity].
Qed.

(** ** Initialization of the registry *)

(** C5: initialization produces exactly 27 records; the record of the
    lattice point (x, y, z) stands at index 9(x+1) + 3(y+1) + (z+1), which is
    also its id (ids increase from 0, x outermost and z innermost); it has
    initialPosition (x, y, z), position scaled by 1 + CUBE_GAP and rotation
    (0, 0, 0); the initialPosition values are the points of {-1,0,1}^3,
    each once. *)
Theorem initialCubies_spec :
  List.length initialCubies = 27%nat /\
  (forall x y z : Z, In x lattice1 -> In y lattice1 -> In z lattice1 ->
     let n := (9 * (x + 1) + 3 * (y + 1) + (z + 1))%Z in
     nth_error initialCubies (Z.to_nat n) =
     Some (mkCubieData n
             (mkVec3 (int x * (1 + CUBE_GAP)) (int y * (1 + CUBE_GAP))
                     (int z * (1 + CUBE_GAP)))
             (mkVec3 0 0 0)
             (mkVec3 (int x) (int y) (int z)))) /\
  map id initialCubies = map Z.of_nat (seq 0 27) /\
  NoDup (map initialPosition initialCubies) /\
  (forall p : Vec3,
     In p (map initialPosition initialCubies) <->
     exists x y z : Z, In x lattice1 /\ In y lattice1 /\ In z lattice1 /\
                       p = mkVec3 (int x) (int y) (int z)).
Proof.
  split; [reflexivity|].
  split.
  { intros x y z Hx Hy Hz. simpl in Hx, Hy, Hz.
    repeat (match goal with H : _ \/ _ |- _ => destruct H | H : False |- _ => destruct H end);
      subst; reflexivity. }
  split; [reflexivity|].
  split.
  { vm_compute.
    repeat (constructor; [simpl; intuition discriminate|]).
    constructor. }
  intro p. split.
  - intro H. vm_compute in H.
    repeat (destruct H as [H|H];
            [subst p; do 3 eexists;
             (split; [|split; [|split; [|reflexivity]]]); simpl; tauto|]).
    contradiction.
  - intros (x & y & z & Hx & Hy & Hz & ->). simpl in Hx, Hy, Hz.
    repeat (match goal with H : _ \/ _ |- _ => destruct H | H : False |- _ => destruct H end);
      subst; vm_compute; intuition reflexivity.
Qed.

(** ** Snapping *)

Lemma grid_nonzero : ~ (1 + CUBE_GAP == 0)%Q.
Proof. vm_compute. discriminate. Qed.

Lemma half_pi_nonzero : ~ (Num.PI / 2 == 0)%Q.
Proof. vm_compute. discriminate. Qed.

Lemma snap_idempotent (v grid : num) :
  ~ (grid == 0)%Q -> snap (snap v grid) grid = snap v grid.
Proof.
  intro Hg. unfold snap at 2 3.
  destruct (round_is_int (v / grid)) as [k ->].
  apply snap_of_multiple; [exact Hg|].
  apply mul_correct.
Qed.

(** C7: the snapping of [finishMove] (position to the nearest multiple of
    1 + CUBE_GAP, rotation to the nearest multiple of a quarter turn, each
    as round(value / grid) * grid) is idempotent: snapping a snapped mesh
    leaves it as it is. *)
Theorem snapMesh_idempotent (mesh : Three.Object3D) :
  snapMesh (snapMesh mesh) = snapMesh mesh.
Proof.
  destruct mesh as [[px py pz] [rx ry rz] par].
  unfold snapMesh. simpl.
  fold (snap rx (Num.PI / 2)) (snap ry (Num.PI / 2)) (snap rz (Num.PI / 2)).
  fold (snap (snap rx (Num.PI / 2)) (Num.PI / 2))
       (snap (snap ry (Num.PI / 2)) (Num.PI / 2))
       (snap (snap rz (Num.PI / 2)) (Num.PI / 2)).
  rewrite !(snap_idempotent _ grid_nonzero).
  rewrite !(snap_idempotent _ half_pi_nonzero).
  reflexivity.
Qed.

(** ** The slice selector *)

Section SliceSelector.
Context {math : JSMath}.

Lemma forEach_from_ext (A S : Type) (body body' : A -> nat -> S -> S)
  (array : list A) :
  (forall element i acc, body element i acc = body' element i acc) ->
  forall (index : nat) (acc : S),
    forEach_from index array body acc = forEach_from index array body' acc.
Proof.
  intro Hext. induction array as [|element rest IH]; intros index acc; simpl.
  - reflexivity.
  - rewrite Hext. apply IH.
Qed.

Lemma forEach_from_select (A : Type) (test : A -> bool) (array : list A) :
  forall (index : nat) (acc : list nat),
    forEach_from index array
      (fun element i indices =>
         if test element then indices ++ [i] else indices) acc =
    acc ++ map fst (filter (fun p => test (snd p))
                      (combine (seq index (List.length array)) array)).
Proof.
  induction array as [|element rest IH]; intros index acc; simpl.
  - symmetry. apply app_nil_r.
  - rewrite IH. destruct (test element); simpl.
    + rewrite <- app_assoc. reflexivity.
    + reflexivity.
Qed.

Lemma getCubiesInSlice_select (a : Axis) (sl : num) (s : State) :
  getCubiesInSlice a sl s =
  map fst (filter (fun p => inSlice a sl s (snd p))
             (combine (seq 0 (List.length (cubieRefs s))) (cubieRefs s))).
Proof.
  unfold getCubiesInSlice, forEach.
  rewrite <- (app_nil_l (map fst _)).
  rewrite <- (forEach_from_select (inSlice a sl s) (cubieRefs s) 0 []).
  apply forEach_from_ext.
  intros [mesh|] i acc; reflexivity.
Qed.

Lemma in_combine_seq (A : Type) (array : list A) (i : nat) (x : A) :
  forall start,
    In (i, x) (combine (seq start (List.length array)) array) <->
    (start <= i)%nat /\ nth_error array (i - start) = Some x.
Proof.
  induction array as [|y rest IH]; intro start; simpl.
  - split; [contradiction|]. intros [_ H]. destruct (i - start)%nat; discriminate.
  - rewrite IH. split.
    + intros [E|[Hle Hn]].
      * inversion E; subst. split; [lia|].
        replace (i - i)%nat with 0%nat by lia. reflexivity.
      * split; [lia|].
        replace (i - start)%nat with (S (i - S start)) by lia. exact Hn.
    + intros [Hle Hn].
      destruct (Nat.eq_dec start i) as [->|Hne].
      * left. replace (i - i)%nat with 0%nat in Hn by lia.
        simpl in Hn. congruence.
      * right. split; [lia|].
        replace (i - start)%nat with (S (i - S start)) in Hn by lia.
        exact Hn.
Qed.

Lemma getCubiesInSlice_in (a : Axis) (sl : num) (s : State) (i : nat) :
  In i (getCubiesInSlice a sl s) <->
  exists mesh, at_index (cubieRefs s) i = Some mesh /\
               inSlice a sl s (Some mesh) = true.
Proof.
  rewrite getCubiesInSlice_select, in_map_iff. split.
  - intros [[j om] [E H]]. simpl in E. subst j.
    apply filter_In in H. destruct H as [Hin Ht]. simpl in Ht.
    apply in_combine_seq in Hin. destruct Hin as [_ Hn].
    rewrite Nat.sub_0_r in Hn.
    destruct om as [mesh|]; [|discriminate].
    exists mesh. unfold at_index. rewrite Hn. split; [reflexivity|exact Ht].
  - intros [mesh [Hat Ht]]. unfold at_index in Hat.
    destruct (nth_error (cubieRefs s) i) as [om|] eqn:Hn; [|discriminate].
    subst om. exists (i, Some mesh). split; [reflexivity|].
    apply filter_In. split; [|exact Ht].
    apply in_combine_seq. rewrite Nat.sub_0_r. split; [lia|exact Hn].
Qed.

Lemma NoDup_map_fst_filter (A : Type) (test : nat * A -> bool)
  (array : list A) (start : nat) :
  NoDup (map fst (filter test (combine (seq start (List.length array)) array))).
Proof.
  revert start. induction array as [|x rest IH]; intro start; simpl.
  - constructor.
  - destruct (test (start, x)); simpl.
    + constructor; [|apply IH].
      intro Hin. apply in_map_iff in Hin. destruct Hin as [[j y] [E H]].
      simpl in E. subst j. apply filter_In in H. destruct H as [H _].
      apply in_combine_seq in H. lia.
    + apply IH.
Qed.

Lemma getCubiesInSlice_NoDup (a : Axis) (sl : num) (s : State) :
  NoDup (getCubiesInSlice a sl s).
Proof. rewrite getCubiesInSlice_select. apply NoDup_map_fst_filter. Qed.

Lemma filter_combine_length (A : Type) (test : A -> bool) (array : list A) :
  forall start,
    List.length (filter (fun p => test (snd p))
                   (combine (seq start (List.length array)) array)) =
    List.length (filter test array).
Proof.
  induction array as [|x rest IH]; intro start; simpl.
  - reflexivity.
  - destruct (test x); simpl; rewrite IH; reflexivity.
Qed.

Lemma getCubiesInSlice_length (a : Axis) (sl : num) (s : State) :
  List.length (getCubiesInSlice a sl s) =
  List.length (filter (inSlice a sl s) (cubieRefs s)).
Proof.
  rewrite getCubiesInSlice_select, length_map.
  apply filter_combine_length.
Qed.

(** The world position of a mesh under the scene is its position. *)
Lemma worldPosition_scene (s : State) (mesh : Three.Object3D) (a : Axis) :
  Three.parent mesh = Three.Scene ->
  (component (worldPosition s mesh) a == component (Three.position mesh) a)%Q.
Proof.
  intro Hp. unfold worldPosition.
  destruct (pivotRef s) as [pivot|]; [|reflexivity].
  unfold Three.getWorldPosition, Three.matrixWorld. rewrite Hp.
  destruct mesh as [[px py pz] rot par]. simpl.
  destruct a; simpl; to_Q; ring.
Qed.

Lemma inSlice_scene (a : Axis) (sl : num) (s : State) (mesh : Three.Object3D) :
  Three.parent mesh = Three.Scene ->
  inSlice a sl s (Some mesh) = posInSlice a sl (Three.position mesh).
Proof.
  intro Hp. unfold inSlice, posInSlice.
  rewrite (worldPosition_scene s mesh a Hp). reflexivity.
Qed.

End SliceSelector.

Lemma Permutation_filter_length (A : Type) (test : A -> bool) (l l' : list A) :
  Permutation l l' ->
  List.length (filter test l) = List.length (filter test l').
Proof.
  induction 1 as [|x l l' _ IH|x y l|l l' l'' _ IH1 _ IH2]; simpl.
  - reflexivity.
  - destruct (test x); simpl; congruence.
  - destruct (test x), (test y); reflexivity.
  - congruence.
Qed.

Lemma filter_map_length (A B : Type) (f : A -> B) (test : B -> bool)
  (l : list A) :
  List.length (filter test (map f l)) =
  List.length (filter (fun x => test (f x)) l).
Proof.
  induction l as [|x l IH]; simpl; [reflexivity|].
  destruct (test (f x)); simpl; congruence.
Qed.

(** C4: a cubie is selected exactly when its mesh is mounted and its world
    coordinate along the axis, divided by 1 + CUBE_GAP, differs from the
    slice index by less than 0.1; on a cube in canonical state, each of the
    slices -1, 0, 1 of each axis selects exactly 9 distinct cubies. *)
Theorem getCubiesInSlice_spec (math : JSMath) (a : Axis) (s : State) :
  (forall (sl : num) (i : nat),
     In i (getCubiesInSlice a sl s) <->
     exists mesh, at_index (cubieRefs s) i = Some mesh /\
       (Qabs (component (worldPosition s mesh) a / (1 + CUBE_GAP)%num - sl)
        < 1 # 10)%Q) /\
  (canonical s ->
   forall k : Z, In k lattice1 ->
     List.length (getCubiesInSlice a (int k) s) = 9%nat /\
     NoDup (getCubiesInSlice a (int k) s)).
Proof.
  split.
  - intros sl i. rewrite getCubiesInSlice_in.
    split; intros [mesh [Hat H]]; exists mesh; (split; [exact Hat|]).
    + unfold inSlice in H. apply ltb_lt in H. to_Q_in H. exact H.
    + unfold inSlice. apply ltb_lt. to_Q. exact H.
  - intros (meshes & Hrefs & Hscene & Hperm) k Hk.
    split; [|apply getCubiesInSlice_NoDup].
    rewrite getCubiesInSlice_length, Hrefs.
    rewrite filter_map_length.
    rewrite (filter_ext_in _ (fun mesh => posInSlice a (int k) (Three.position mesh))).
    + rewrite <- (filter_map_length Three.position (posInSlice a (int k))).
      rewrite (Permutation_filter_length _ Hperm).
      simpl in Hk.
      destruct a; repeat (destruct Hk as [<-|Hk]; [reflexivity|]);
        contradiction.
    + intros mesh Hin. apply inSlice_scene.
      rewrite Forall_forall in Hscene. apply Hscene, Hin.
Qed.

(** ** The move execution state machine *)

Lemma with_cubieRefs_same (s : State) : with_cubieRefs (cubieRefs s) s = s.
Proof. destruct s; reflexivity. Qed.

Lemma fold_apply_refs (f : Three.Object3D -> Three.Object3D)
  (indices : list nat) :
  forall s : State,
    fold_left
      (fun s idx =>
         match at_index (cubieRefs s) idx with
         | Some mesh =>
             with_cubieRefs (update_at idx (f mesh) (cubieRefs s)) s
         | None => s
         end)
      indices s =
    with_cubieRefs (fold_left (apply_at f) indices (cubieRefs s)) s.
Proof.
  induction indices as [|idx rest IH]; intro s; simpl.
  - symmetry. apply with_cubieRefs_same.
  - rewrite IH. unfold apply_at.
    destruct (at_index (cubieRefs s) idx); reflexivity.
Qed.

Lemma half_pi_bounds : (1 < (Num.PI / 2)%num < 2)%Q.
Proof. split; reflexivity. Qed.

Ltac qabs x :=
  let H := fresh "Hsgn" in
  destruct (Qlt_le_dec x 0) as [H|H];
  [ rewrite ?(Qabs_neg x) in * by lra
  | rewrite ?(Qabs_pos x) in * by lra ];
  try (exfalso; lra).

Lemma frame_step_cases (delta angle : num) (current : QueuedMove) :
  valid_queued current ->
  (0 <= delta)%Q ->
  (0 <= inject_Z (direction (move current)) * angle)%Q ->
  (Qabs angle < (Num.PI / 2 - lit 0.001)%num)%Q ->
  let d := inject_Z (direction (move current)) in
  let v := (5 * speed current * delta)%Q in
  let step := frame_step delta current angle in
  (step == specified_step delta current angle)%Q /\
  (0 <= d * (angle + step)%num)%Q /\
  (Qabs (angle + step)%num <= (Num.PI / 2)%num)%Q /\
  ((Qabs (angle + step)%num == (Num.PI / 2)%num)%Q \/
   (Qabs (angle + step)%num == Qabs angle + v)%Q).
Proof.
  intros [Hd Hsp] Hdelta Hsign Habs d v step.
  subst step d. unfold frame_step, specified_step. cbv zeta.
  pose proof half_pi_bounds as [Hlo Hhi].
  remember (Num.PI / 2)%num as H eqn:EH. clear EH.
  assert (Hv : (0 <= v)%Q) by (subst v; nra).
  assert (Espeed : ((lit 5.0 * delta * speed current)%num == v)%Q).
  { to_Q. subst v. field. }
  to_Q_in Habs.
  assert (Habs' : (Qabs angle < H - (1 # 1000))%Q) by lra.
  clear Habs.
  unfold int. fold v. clearbody v.
  remember (lit 5.0 * delta * speed current)%num as sv eqn:Esv. clear Esv.
  destruct Hd as [E | E]; rewrite E in *; clear E;
    [change (inject_Z 1) with 1%Q in * | change (inject_Z (-1)) with (-1 # 1)%Q in *].
  - assert (Et : (0 <? H * 1) = true) by (apply ltb_lt; to_Q; lra).
    rewrite Et.
    destruct (Num.abs (H * 1 - angle) <? Num.abs sv) eqn:Ec; rewrite ?Espeed in *.
    + apply ltb_lt in Ec. to_Q_in Ec. to_Q.
      qabs angle; qabs v; qabs (H * 1 - angle)%Q; qabs (angle + (H * 1 - angle))%Q;
        rewrite Q.min_r by lra;
        (split; [|split; [|split; [|left]]]); lra.
    + apply ltb_ge in Ec. to_Q_in Ec. to_Q.
      qabs angle; qabs v; qabs (H * 1 - angle)%Q; qabs (angle + v)%Q;
        rewrite Q.min_l by lra;
        (split; [|split; [|split; [|right]]]); lra.
  - assert (Et : (0 <? H * (-1 # 1)) = false) by (apply ltb_ge; to_Q; lra).
    rewrite Et.
    destruct (Num.abs (H * (-1 # 1) - angle) <? Num.abs (- sv)) eqn:Ec; rewrite ?Espeed in *.
    + apply ltb_lt in Ec. to_Q_in Ec. to_Q.
      qabs angle; qabs v; qabs (- v)%Q; qabs (H * (-1#1) - angle)%Q; qabs (angle + (H * (-1 # 1) - angle))%Q;
        rewrite Q.min_r by lra;
        (split; [|split; [|split; [|left]]]); lra.
    + apply ltb_ge in Ec. to_Q_in Ec. to_Q.
      qabs angle; qabs v; qabs (- v)%Q; qabs (H * (-1#1) - angle)%Q; qabs (angle + - v)%Q;
        rewrite Q.min_l by lra;
        (split; [|split; [|split; [|right]]]); lra.
Qed.

Lemma set_component_set (a : Axis) (x y : num) (v : Vec3) :
  set_component a x (set_component a y v) = set_component a x v.
Proof. destruct a; reflexivity. Qed.

Lemma component_set (a : Axis) (x : num) (v : Vec3) :
  component (set_component a x v) a = x.
Proof. destruct a; reflexivity. Qed.

Lemma addMoves_eq (moves : list Move) (sp : option num) :
  forall s : State,
    addMoves moves sp s =
    with_moveQueue
      (moveQueue s ++ map (fun m => mkQueuedMove m (default 1 sp)) moves) s.
Proof.
  unfold addMoves.
  induction moves as [|m rest IH]; intro s; simpl.
  - rewrite app_nil_r. destruct s; reflexivity.
  - rewrite IH. unfold with_moveQueue. simpl.
    rewrite <- app_assoc. reflexivity.
Qed.

Lemma gestureMove_valid (n w : Vec3) (dx dy : num) :
  valid_move (gestureMove n w dx dy).
Proof.
  unfold gestureMove, flip_if, valid_move, valid_direction.
  repeat match goal with
         | |- context [if ?c then _ else _] => destruct c
         end; simpl; auto.
Qed.

Ltac fields :=
  cbn [cubieRefs isAnimating moveQueue currentMove currentAngle pivotRef
       activeCubieIndices orbitEnabled dragStart intersectedFaceNormal
       intersectedCubieIndex completed
       with_cubieRefs with_isAnimating with_moveQueue with_currentMove
       with_currentAngle with_pivotRef with_activeCubieIndices
       with_orbitEnabled with_dragStart with_intersectedFaceNormal
       with_intersectedCubieIndex with_completed
       Three.rotation Three.position Three.parent
       Three.set_rotation Three.set_position move speed].

Ltac fields_in H :=
  cbn [cubieRefs isAnimating moveQueue currentMove currentAngle pivotRef
       activeCubieIndices orbitEnabled dragStart intersectedFaceNormal
       intersectedCubieIndex completed
       with_cubieRefs with_isAnimating with_moveQueue with_currentMove
       with_currentAngle with_pivotRef with_activeCubieIndices
       with_orbitEnabled with_dragStart with_intersectedFaceNormal
       with_intersectedCubieIndex with_completed
       Three.rotation Three.position Three.parent
       Three.set_rotation Three.set_position move speed] in H.


Lemma div_step (x v q : Q) :
  (0 < q)%Q -> (q <= v)%Q -> ((x - v) / q <= x / q - 1)%Q.
Proof.
  intros Hq Hv.
  assert (H1 : (1 <= v / q)%Q) by (apply Qle_shift_div_l; [exact Hq|lra]).
  assert (E : ((x - v) / q == x / q - v / q)%Q) by (field; lra).
  rewrite E. lra.
Qed.

Lemma div_nonneg (x q : Q) : (0 <= x)%Q -> (0 < q)%Q -> (0 <= x / q)%Q.
Proof.
  intros Hx Hq. apply Qle_shift_div_l; [exact Hq|lra].
Qed.

Lemma frames_of_nonneg (dmin : num) (queue : list QueuedMove) :
  (0 < dmin)%Q -> Forall valid_queued queue ->
  (0 <= fold_right Qplus 0 (map (frames_of dmin) queue))%Q.
Proof.
  intros Hd. induction 1 as [|q rest [_ Hq] _ IH]; simpl; [lra|].
  unfold frames_of at 1.
  pose proof half_pi_bounds as [Hlo _].
  assert (0 <= (Num.PI / 2)%num / (5 * speed q * dmin))%Q.
  { apply div_nonneg; [lra|nra]. }
  lra.
Qed.

Lemma same_but_angle_refl (s : State) : same_but_angle s s.
Proof. reflexivity. Qed.

Lemma same_but_angle_trans (s1 s2 s3 : State) :
  same_but_angle s1 s2 -> same_but_angle s2 s3 -> same_but_angle s1 s3.
Proof. unfold same_but_angle. congruence. Qed.

Lemma same_but_angle_with (c : num) (s : State) :
  same_but_angle (with_currentAngle c s) s.
Proof. reflexivity. Qed.

Section Machine.
Context {math : JSMath}.

(** [startMove] and [finishMove] field by field. *)
Lemma startMove_eq (m : Move) (sp : num) (s : State) (pivot : Three.Object3D) :
  pivotRef s = Some pivot ->
  let pivot0 := Three.mkObject3D Three.zero3 Three.zero3 (Three.parent pivot) in
  let indices := getCubiesInSlice (axis m) (slice m) s in
  startMove m sp s =
  mkState
    (fold_left (apply_at (Three.attach pivot0 Three.Pivot)) indices
       (cubieRefs s))
    true (moveQueue s) (Some (mkQueuedMove m sp)) 0 (Some pivot0) indices
    (orbitEnabled s) (dragStart s) (intersectedFaceNormal s)
    (intersectedCubieIndex s) (completed s).
Proof.
  intros Hp pivot0 indices. unfold startMove. rewrite Hp.
  rewrite fold_apply_refs. reflexivity.
Qed.

Lemma finishMove_eq (s : State) (pivot : Three.Object3D) (current : QueuedMove) :
  pivotRef s = Some pivot ->
  currentMove s = Some current ->
  let target :=
    Three.set_rotation
      (set_component (axis (move current))
         (Num.PI / 2 * int (direction (move current)))
         (Three.rotation pivot)) pivot in
  finishMove s =
  mkState
    (fold_left
       (apply_at (fun mesh => snapMesh (Three.attach target Three.Scene mesh)))
       (activeCubieIndices s) (cubieRefs s))
    false (moveQueue s) None (currentAngle s)
    (Some (Three.set_rotation (mkVec3 0 0 0) target)) []
    (orbitEnabled s) (dragStart s) (intersectedFaceNormal s)
    (intersectedCubieIndex s) (completed s ++ [move current]).
Proof.
  intros Hp Hc target. unfold finishMove. rewrite Hp, Hc.
  rewrite fold_apply_refs. reflexivity.
Qed.

Lemma machine_ok_mounted : machine_ok mounted.
Proof.
  unfold machine_ok, mounted, pivot_rotation. simpl.
  split; [constructor|]. split; [discriminate|].
  split; [reflexivity|]. split; [|reflexivity].
  vm_compute. discriminate.
Qed.

Lemma machine_ok_enqueue (s : State) (added : list QueuedMove) :
  machine_ok s -> Forall valid_queued added ->
  machine_ok (with_moveQueue (moveQueue s ++ added) s).
Proof.
  intros (Hq & Hp & Hc) Ha. unfold machine_ok, pivot_rotation in *. simpl.
  split; [apply Forall_app; split; assumption|].
  split; [exact Hp|exact Hc].
Qed.

Lemma triggerMoveFromGesture_ok (dx dy : num) (s : State) :
  machine_ok s -> machine_ok (triggerMoveFromGesture dx dy s).
Proof.
  intro Hok. unfold triggerMoveFromGesture.
  destruct (intersectedFaceNormal s) as [n|]; [|exact Hok].
  destruct (mesh_at s (intersectedCubieIndex s)) as [mesh|]; [|exact Hok].
  apply machine_ok_enqueue; [exact Hok|].
  constructor; [|constructor].
  split; [apply gestureMove_valid|reflexivity].
Qed.

(** The invariant reads none of the interaction state. *)
Lemma machine_ok_interaction (s s' : State) :
  moveQueue s' = moveQueue s -> pivotRef s' = pivotRef s ->
  currentMove s' = currentMove s -> isAnimating s' = isAnimating s ->
  currentAngle s' = currentAngle s ->
  machine_ok s -> machine_ok s'.
Proof.
  intros Eq Ep Ec Ea Eang. unfold machine_ok, pivot_rotation.
  rewrite Eq, Ep, Ec, Ea, Eang. exact (fun H => H).
Qed.

Lemma handlePointerMove_ok (x y : num) (s : State) :
  machine_ok s -> machine_ok (handlePointerMove x y s).
Proof.
  intro Hok. unfold handlePointerMove.
  destruct (dragStart s) as [[x0 y0]|]; [|exact Hok].
  destruct (intersectedFaceNormal s) as [n|] eqn:En; [|exact Hok].
  destruct (intersectedCubieIndex s =? -1)%Z; [exact Hok|].
  destruct (sqrt_ltb _ _); [exact Hok|].
  eapply machine_ok_interaction;
    [..|apply (triggerMoveFromGesture_ok (x - x0) (y - y0) Hok)]; reflexivity.
Qed.

Lemma useFrame_ok (delta : num) (s : State) :
  (0 <= delta)%Q -> machine_ok s -> machine_ok (useFrame delta s).
Proof.
  intros Hdelta (Hq & Hp & Hc).
  destruct (pivotRef s) as [pivot|] eqn:Epivot; [clear Hp|congruence].
  destruct (currentMove s) as [current|] eqn:Ecur.
  - destruct Hc as (Ha & Hv & Hsign & Habs & Hrot).
    destruct (frame_step_cases Hv Hdelta Hsign Habs)
      as (_ & Hsign' & Hle & _).
    unfold useFrame. rewrite Ha, Ecur, Epivot. cbv zeta.
    set (step := frame_step delta current (currentAngle s)) in *.
    unfold pivot_rotation in Hrot. rewrite Epivot in Hrot.
    destruct (_ <=? _) eqn:Edone.
    + erewrite finishMove_eq; [|fields; reflexivity|fields; exact Ecur].
      unfold machine_ok, pivot_rotation. fields.
      split; [exact Hq|]. split; [discriminate|].
      split; [reflexivity|]. split; [exact Hle|reflexivity].
    + apply leb_gt in Edone. fields_in Edone.
      unfold machine_ok, pivot_rotation. fields. rewrite Ecur.
      split; [exact Hq|]. split; [discriminate|].
      split; [exact Ha|]. split; [exact Hv|]. split; [exact Hsign'|].
      split.
      * to_Q_in Edone. to_Q. exact Edone.
      * rewrite Hrot, component_set, set_component_set. reflexivity.
  - destruct Hc as (Ha & Habs & Hrot).
    unfold useFrame. rewrite Ha.
    destruct (moveQueue s) as [|[m sp] rest] eqn:Equeue; cbn [List.length Nat.ltb Nat.leb andb negb].
    + change (machine_ok s). unfold machine_ok.
      rewrite Equeue, Epivot, Ecur.
      split; [constructor|]. split; [discriminate|].
      split; [exact Ha|]. split; [exact Habs|exact Hrot].
    + erewrite startMove_eq; [|fields; exact Epivot].
      inversion Hq as [|? ? Hnext Hrest]; subst.
      unfold machine_ok, pivot_rotation. fields.
      split; [exact Hrest|]. split; [discriminate|].
      split; [reflexivity|]. split; [exact Hnext|].
      split; [to_Q; lra|].
      split; [vm_compute; reflexivity|].
      destruct (axis m); reflexivity.
Qed.

Lemma machine_ok_step (s : State) (ev : Event) :
  valid_event ev -> machine_ok s -> machine_ok (step s ev).
Proof.
  intros Hev Hok. destruct ev as [m sp|moves sp|delta|e| |x y]; simpl.
  - destruct Hev as [Hm Hsp]. apply machine_ok_enqueue; [exact Hok|].
    constructor; [|constructor]. split; assumption.
  - destruct Hev as [Hm Hsp]. rewrite addMoves_eq.
    apply machine_ok_enqueue; [exact Hok|].
    apply Forall_map. eapply Forall_impl; [|exact Hm].
    intros m Hv. split; assumption.
  - apply useFrame_ok; assumption.
  - unfold handlePointerDown.
    destruct (isAnimating s || _); [exact Hok|].
    destruct (isCubie _); [|exact Hok].
    eapply machine_ok_interaction; [..|exact Hok]; reflexivity.
  - eapply machine_ok_interaction; [..|exact Hok]; reflexivity.
  - apply handlePointerMove_ok, Hok.
Qed.

Lemma machine_ok_run (events : list Event) :
  Forall valid_event events ->
  forall s, machine_ok s -> machine_ok (run events s).
Proof.
  unfold run.
  induction 1 as [|ev rest Hev _ IH]; intros s Hok; simpl.
  - exact Hok.
  - apply IH, machine_ok_step; assumption.
Qed.


(** *** Queue order *)

Lemma triggerMoveFromGesture_queue (dx dy : num) (s : State) :
  triggerMoveFromGesture dx dy s =
  with_moveQueue
    (moveQueue s ++
     match intersectedFaceNormal s, mesh_at s (intersectedCubieIndex s) with
     | Some normal, Some mesh =>
         [mkQueuedMove (gestureMove normal (worldPosition s mesh) dx dy) 1]
     | _, _ => []
     end) s.
Proof.
  unfold triggerMoveFromGesture.
  destruct (intersectedFaceNormal s) as [n|];
    [destruct (mesh_at s (intersectedCubieIndex s)) as [mesh|]|];
    try reflexivity;
    rewrite app_nil_r; destruct s; reflexivity.
Qed.

Lemma handlePointerMove_queue (x y : num) (s : State) :
  moveQueue (handlePointerMove x y s) =
  moveQueue s ++ map (fun m => mkQueuedMove m 1) (gestured x y s).
Proof.
  unfold handlePointerMove, gestured.
  destruct (dragStart s) as [[x0 y0]|]; [|symmetry; apply app_nil_r].
  destruct (intersectedFaceNormal s) as [n|] eqn:En; [|symmetry; apply app_nil_r].
  destruct (intersectedCubieIndex s =? -1)%Z;
    [destruct (mesh_at s _); symmetry; apply app_nil_r|].
  destruct (sqrt_ltb _ _);
    [destruct (mesh_at s _); symmetry; apply app_nil_r|].
  rewrite triggerMoveFromGesture_queue, En. fields.
  destruct (mesh_at s _); reflexivity.
Qed.

Lemma handlePointerMove_machine (x y : num) (s : State) :
  completed (handlePointerMove x y s) = completed s /\
  currentMove (handlePointerMove x y s) = currentMove s /\
  isAnimating (handlePointerMove x y s) = isAnimating s /\
  pivotRef (handlePointerMove x y s) = pivotRef s /\
  currentAngle (handlePointerMove x y s) = currentAngle s /\
  cubieRefs (handlePointerMove x y s) = cubieRefs s.
Proof.
  unfold handlePointerMove.
  destruct (dragStart s) as [[x0 y0]|]; [|repeat split].
  destruct (intersectedFaceNormal s) as [n|] eqn:En; [|repeat split].
  destruct (intersectedCubieIndex s =? -1)%Z; [repeat split|].
  destruct (sqrt_ltb _ _); [repeat split|].
  rewrite triggerMoveFromGesture_queue. repeat split.
Qed.

Lemma handlePointerDown_machine (e : PointerEvent) (s : State) :
  completed (handlePointerDown e s) = completed s /\
  currentMove (handlePointerDown e s) = currentMove s /\
  isAnimating (handlePointerDown e s) = isAnimating s /\
  pivotRef (handlePointerDown e s) = pivotRef s /\
  currentAngle (handlePointerDown e s) = currentAngle s /\
  cubieRefs (handlePointerDown e s) = cubieRefs s /\
  moveQueue (handlePointerDown e s) = moveQueue s.
Proof.
  unfold handlePointerDown.
  destruct (isAnimating s || _); [repeat split|].
  destruct (isCubie _); repeat split.
Qed.

Lemma useFrame_cases (delta : num) (s : State) :
  slots_ok s -> frame_case delta s (useFrame delta s).
Proof.
  intros [Hp Hslot].
  destruct (pivotRef s) as [pivot|] eqn:Epivot; [clear Hp|congruence].
  destruct (currentMove s) as [current|] eqn:Ecur.
  - unfold useFrame. rewrite Hslot, Ecur, Epivot. cbv zeta.
    destruct (_ <=? _).
    + erewrite finishMove_eq; [|fields; reflexivity|fields; exact Ecur].
      apply frame_finish with (current := current); auto.
    + apply frame_tick with (current := current); auto.
  - unfold useFrame. rewrite Hslot.
    destruct (moveQueue s) as [|[m sp] rest] eqn:Equeue;
      cbn [List.length Nat.ltb Nat.leb andb negb].
    + apply frame_idle; auto.
    + eapply frame_start; eauto;
        erewrite startMove_eq by (fields; exact Epivot); reflexivity.
Qed.

Lemma slots_ok_mounted : slots_ok mounted.
Proof. split; [discriminate|reflexivity]. Qed.

Lemma slots_ok_step (s : State) (ev : Event) :
  slots_ok s -> slots_ok (step s ev).
Proof.
  intros Hok. destruct ev as [m sp|moves sp|delta|e| |x y]; simpl.
  - exact Hok.
  - rewrite addMoves_eq. exact Hok.
  - pose proof (useFrame_cases delta Hok) as Hcase.
    destruct Hok as [Hp Hslot].
    destruct (pivotRef s) as [pivot|] eqn:Epivot; [|congruence].
    assert (Hp' : pivotRef (useFrame delta s) <> None).
    { unfold useFrame.
      destruct (isAnimating s); [destruct (currentMove s) eqn:Ecur|].
      - rewrite Epivot. cbv zeta. destruct (_ <=? _).
        + erewrite finishMove_eq; [|fields; reflexivity|fields; exact Ecur].
          discriminate.
        + discriminate.
      - destruct (_ && _); [|congruence].
        destruct (moveQueue s) as [|[m sp] rest]; [congruence|].
        erewrite startMove_eq by (fields; exact Epivot). discriminate.
      - destruct (_ && _); [|congruence].
        destruct (moveQueue s) as [|[m sp] rest]; [congruence|].
        erewrite startMove_eq by (fields; exact Epivot). discriminate. }
    split; [exact Hp'|].
    destruct Hcase as [Hc Hq ->|next rest Hc Ha Hq _ _ Hc' Ha' _
                       |current Hc Ha _ Hc' Ha' _ _|current Hc Ha _ Hc' Ha' _].
    + rewrite Hc in *. exact Hslot.
    + rewrite Hc'. exact Ha'.
    + rewrite Hc'. exact Ha'.
    + rewrite Hc'. exact Ha'.
  - destruct (handlePointerDown_machine e s) as (_ & Ec & Ea & Ep & _).
    unfold slots_ok. rewrite Ec, Ea, Ep. exact Hok.
  - exact Hok.
  - destruct (handlePointerMove_machine x y s) as (_ & Ec & Ea & Ep & _).
    unfold slots_ok. rewrite Ec, Ea, Ep. exact Hok.
Qed.

Lemma slots_ok_run (events : list Event) :
  forall s, slots_ok s -> slots_ok (run events s).
Proof.
  unfold run. induction events as [|ev rest IH]; intros s Hok; simpl.
  - exact Hok.
  - apply IH, slots_ok_step, Hok.
Qed.

Lemma pipeline_step (s : State) (ev : Event) :
  slots_ok s -> pipeline (step s ev) = pipeline s ++ requested s ev.
Proof.
  intros Hok. unfold pipeline, in_flight.
  destruct ev as [m sp|moves sp|delta|e| |x y]; simpl.
  - rewrite map_app, <- !app_assoc. reflexivity.
  - rewrite addMoves_eq. fields.
    rewrite map_app, map_map, <- !app_assoc. simpl. rewrite map_id. reflexivity.
  - rewrite app_nil_r.
    destruct (useFrame_cases delta Hok)
      as [Hc Hq ->|next rest Hc Ha Hq _ Hq' Hc' Ha' Hd
         |current Hc Ha Hq' Hc' Ha' Hd _|current Hc Ha Hq' Hc' Ha' Hd].
    + reflexivity.
    + rewrite Hc, Hq, Hq', Hc', Hd. reflexivity.
    + rewrite Hc, Hq', Hc', Hd. reflexivity.
    + rewrite Hc, Hq', Hc', Hd. rewrite <- !app_assoc. reflexivity.
  - destruct (handlePointerDown_machine e s) as (Ed & Ec & _ & _ & _ & _ & Eq).
    rewrite Ed, Ec, Eq, app_nil_r. reflexivity.
  - rewrite app_nil_r. reflexivity.
  - destruct (handlePointerMove_machine x y s) as (Ed & Ec & _).
    rewrite Ed, Ec, handlePointerMove_queue.
    rewrite map_app, map_map, <- !app_assoc. simpl. rewrite map_id. reflexivity.
Qed.

Lemma pipeline_run (events : list Event) :
  forall s, slots_ok s ->
    pipeline (run events s) = pipeline s ++ requests events s.
Proof.
  unfold run. induction events as [|ev rest IH]; intros s Hok; simpl.
  - symmetry. apply app_nil_r.
  - rewrite IH by (apply slots_ok_step, Hok).
    rewrite pipeline_step by exact Hok.
    rewrite <- app_assoc. reflexivity.
Qed.


(** *** Progress *)

Lemma getCubiesInSlice_frame (a : Axis) (sl : num) (s s' : State) :
  cubieRefs s' = cubieRefs s -> pivotRef s' = pivotRef s ->
  getCubiesInSlice a sl s' = getCubiesInSlice a sl s.
Proof.
  intros Er Ep. unfold getCubiesInSlice, worldPosition. rewrite Er, Ep.
  reflexivity.
Qed.

Lemma startMove_angle (m : Move) (sp c : num) (s : State) :
  pivotRef s <> None ->
  startMove m sp (with_currentAngle c s) = startMove m sp s.
Proof.
  intro Hp. destruct (pivotRef s) as [pivot|] eqn:Ep; [|congruence].
  erewrite !startMove_eq by (fields; exact Ep).
  reflexivity.
Qed.

Lemma startMove_queue (m : Move) (sp : num) (queue : list QueuedMove)
  (s : State) :
  startMove m sp (with_moveQueue queue s) =
  with_moveQueue queue (startMove m sp s).
Proof.
  destruct (pivotRef s) as [pivot|] eqn:Ep.
  - erewrite !startMove_eq by (fields; exact Ep). reflexivity.
  - unfold startMove. fields. rewrite Ep. reflexivity.
Qed.

Lemma finishMove_queue (queue : list QueuedMove) (s : State) :
  finishMove (with_moveQueue queue s) = with_moveQueue queue (finishMove s).
Proof.
  unfold finishMove. fields.
  destruct (pivotRef s) as [pivot|]; [|reflexivity].
  destruct (currentMove s) as [current|]; [|reflexivity].
  rewrite !fold_apply_refs. reflexivity.
Qed.

Lemma finishMove_angle (c : num) (s : State) :
  finishMove (with_currentAngle c s) = with_currentAngle c (finishMove s).
Proof.
  unfold finishMove. fields.
  destruct (pivotRef s) as [pivot|]; [|reflexivity].
  destruct (currentMove s) as [current|]; [|reflexivity].
  rewrite !fold_apply_refs. reflexivity.
Qed.

(** The angle the pivot has reached does not matter to [finishMove], which
    sets it to the target. *)
Lemma finishMove_pivot (a : Axis) (x : num) (pivot : Three.Object3D)
  (current : QueuedMove) (s : State) :
  pivotRef s = Some pivot -> currentMove s = Some current ->
  a = axis (move current) ->
  finishMove
    (with_pivotRef
       (Some (Three.set_rotation
                (set_component a x (Three.rotation pivot)) pivot)) s) =
  finishMove s.
Proof.
  intros Ep Ec ->.
  erewrite !finishMove_eq; [|exact Ep|exact Ec|fields; reflexivity|fields; exact Ec].
  fields. rewrite set_component_set. reflexivity.
Qed.

Lemma perform_same (q : QueuedMove) (s s' : State) :
  pivotRef s <> None -> same_but_angle s s' -> perform q s = perform q s'.
Proof.
  intros Hp E. unfold perform, same_but_angle in *.
  assert (Hp' : pivotRef s' <> None).
  { replace (pivotRef s') with (pivotRef (with_currentAngle 0 s')) by reflexivity.
    rewrite <- E. exact Hp. }
  rewrite <- (startMove_angle (move q) (speed q) 0 s Hp).
  rewrite <- (startMove_angle (move q) (speed q) 0 s' Hp').
  rewrite E. reflexivity.
Qed.

Lemma perform_pivot (q : QueuedMove) (s : State) :
  pivotRef s <> None -> pivotRef (perform q s) <> None.
Proof.
  intro Hp. destruct (pivotRef s) as [pivot|] eqn:Ep; [|congruence].
  unfold perform. erewrite startMove_eq by exact Ep.
  erewrite finishMove_eq; [|fields; reflexivity|fields; reflexivity].
  discriminate.
Qed.

Lemma fold_perform_same (queue : list QueuedMove) :
  forall s s' : State,
    pivotRef s <> None -> same_but_angle s s' ->
    same_but_angle (fold_left (fun s q => perform q s) queue s)
                   (fold_left (fun s q => perform q s) queue s').
Proof.
  induction queue as [|q rest IH]; intros s s' Hp E; simpl.
  - exact E.
  - rewrite (perform_same q Hp E). apply same_but_angle_refl.
Qed.


Lemma with_moveQueue_same (s : State) : with_moveQueue (moveQueue s) s = s.
Proof. destruct s; reflexivity. Qed.

Lemma drained_idle (s : State) :
  currentMove s = None -> moveQueue s = [] -> drained s = s.
Proof.
  intros Hc Hq. unfold drained, finish_current. rewrite Hc, Hq. simpl.
  rewrite <- Hq. apply with_moveQueue_same.
Qed.

Lemma finishMove_fields (s : State) (pivot : Three.Object3D)
  (current : QueuedMove) :
  pivotRef s = Some pivot -> currentMove s = Some current ->
  currentMove (finishMove s) = None /\
  moveQueue (finishMove s) = moveQueue s /\
  isAnimating (finishMove s) = false /\
  completed (finishMove s) = completed s ++ [move current] /\
  currentAngle (finishMove s) = currentAngle s /\
  pivotRef (finishMove s) <> None.
Proof.
  intros Ep Ec. erewrite finishMove_eq by eassumption. fields.
  repeat split. discriminate.
Qed.

Lemma frame_progress (dmin delta : num) (s : State) :
  machine_ok s -> (0 < dmin)%Q -> (dmin <= delta)%Q ->
  same_but_angle (drained (useFrame delta s)) (drained s) /\
  ((currentMove s = None /\ moveQueue s = []) \/
   (frames_left dmin (useFrame delta s) <= frames_left dmin s - 1)%Q).
Proof.
  intros (Hq & Hp & Hc) Hdmin Hdelta.
  destruct (pivotRef s) as [pivot|] eqn:Epivot; [|congruence].
  pose proof half_pi_bounds as [Hlo _].
  destruct (currentMove s) as [current|] eqn:Ecur.
  - destruct Hc as (Ha & Hv & Hsign & Habs & Hrot).
    assert (Hdelta0 : (0 <= delta)%Q) by lra.
    destruct (frame_step_cases Hv Hdelta0 Hsign Habs)
      as (_ & _ & Hle & Hprogress).
    destruct Hv as [_ Hsp].
    unfold useFrame. rewrite Ha, Ecur, Epivot. cbv zeta.
    set (step := frame_step delta current (currentAngle s)) in *.
    assert (Efinish :
      finishMove
        (with_currentAngle (currentAngle s + step)
           (with_pivotRef
              (Some (Three.set_rotation
                       (set_component (axis (move current))
                          (component (Three.rotation pivot)
                             (axis (move current)) + step)
                          (Three.rotation pivot)) pivot)) s)) =
      with_currentAngle (currentAngle s + step) (finishMove s)).
    { rewrite finishMove_angle.
      erewrite finishMove_pivot by (eassumption || reflexivity). reflexivity. }
    assert (Hdrain : forall X,
      same_but_angle
        (fold_left (fun s q => perform q s) (moveQueue s)
           (with_moveQueue [] (with_currentAngle X (finishMove s))))
        (drained s)).
    { intro X. unfold drained, finish_current. rewrite Ecur.
      apply fold_perform_same; [|reflexivity].
      apply (finishMove_fields s Epivot Ecur). }
    destruct (finishMove_fields s Epivot Ecur) as (Fc & Fq & _).
    rewrite sub_correct, lit_correct in Habs.
    assert (Hq0 : (0 < 5 * speed current * dmin)%Q) by nra.
    fields. fields_in Efinish.
    destruct (_ <=? _) eqn:Edone.
    + rewrite Efinish. split.
      * unfold drained at 1, finish_current. fields. rewrite Fc, Fq.
        apply Hdrain.
      * right. unfold frames_left. fields. rewrite Fc, Fq, Ecur.
        assert (0 <= ((Num.PI / 2)%num - Qabs (currentAngle s))
                     / (5 * speed current * dmin))%Q.
        { apply div_nonneg; [lra|exact Hq0]. }
        lra.
    + split.
      * unfold drained at 1, finish_current. fields. rewrite Ecur, Efinish.
        apply Hdrain.
      * right. unfold frames_left. fields. rewrite Ecur.
        apply leb_gt in Edone.
        rewrite sub_correct, lit_correct, abs_correct in Edone.
        destruct Hprogress as [E|E].
        { exfalso. rewrite E in Edone. lra. }
        rewrite E.
        assert (Hv : (5 * speed current * dmin <= 5 * speed current * delta)%Q)
          by nra.
        pose proof (div_step ((Num.PI / 2)%num - Qabs (currentAngle s))
                      Hq0 Hv) as Hstep.
        assert (Ex : ((Num.PI / 2)%num - (Qabs (currentAngle s) + 5 * speed current * delta)
                      == (Num.PI / 2)%num - Qabs (currentAngle s) - 5 * speed current * delta)%Q)
          by ring.
        rewrite Ex. lra.
  - destruct Hc as (Ha & Habs & Hrot).
    unfold useFrame. rewrite Ha.
    destruct (moveQueue s) as [|[m sp] rest] eqn:Equeue;
      cbn [List.length Nat.ltb Nat.leb andb negb].
    + split; [apply same_but_angle_refl|left; split; reflexivity].
    + split.
      * unfold drained, finish_current.
        rewrite Equeue, Ecur.
        erewrite startMove_eq by (fields; exact Epivot). fields.
        cbn [fold_left]. unfold perform at 3. fields.
        rewrite startMove_queue, finishMove_queue.
        erewrite startMove_eq by (fields; exact Epivot).
        erewrite !finishMove_eq by (fields; reflexivity).
        apply same_but_angle_refl.
      * right. unfold frames_left.
        erewrite startMove_eq by (fields; exact Epivot). fields.
        rewrite Equeue, Ecur. cbn [map fold_right]. unfold frames_of at 2.
        fields.
        assert (E0 : (Qabs 0 == 0)%Q) by reflexivity.
        rewrite E0.
        assert (Ex : ((Num.PI / 2)%num - 0 == (Num.PI / 2)%num)%Q) by ring.
        rewrite Ex. lra.
Qed.

Lemma frames_left_zero (dmin : num) (s : State) :
  machine_ok s -> (0 < dmin)%Q -> (frames_left dmin s <= 0)%Q ->
  currentMove s = None /\ moveQueue s = [].
Proof.
  intros (Hq & _ & Hc) Hdmin Hle. unfold frames_left in Hle.
  pose proof (frames_of_nonneg Hdmin Hq) as Hsum.
  pose proof half_pi_bounds as [Hlo _].
  destruct (currentMove s) as [current|].
  - exfalso. destruct Hc as (_ & [_ Hsp] & _ & Habs & _).
    rewrite sub_correct, lit_correct in Habs.
    assert (0 <= ((Num.PI / 2)%num - Qabs (currentAngle s))
                 / (5 * speed current * dmin))%Q.
    { apply div_nonneg; [lra|nra]. }
    lra.
  - split; [reflexivity|].
    destruct (moveQueue s) as [|q rest]; [reflexivity|exfalso].
    inversion Hq as [|? ? [_ Hsp] Hrest]; subst.
    pose proof (frames_of_nonneg Hdmin Hrest) as Hsum'.
    cbn [map fold_right] in Hle. unfold frames_of at 1 in Hle.
    assert (0 <= (Num.PI / 2)%num / (5 * speed q * dmin))%Q.
    { apply div_nonneg; [lra|nra]. }
    lra.
Qed.

Lemma useFrame_idle (delta : num) (s : State) :
  isAnimating s = false -> moveQueue s = [] -> useFrame delta s = s.
Proof.
  intros Ha Hq. unfold useFrame. rewrite Ha, Hq. reflexivity.
Qed.

(** Every accepted move runs to completion: enough frames of at least
    [dmin] seconds bring the machine to its settled state. *)
Lemma frames_settle (dmin : num) (deltas : list num) :
  (0 < dmin)%Q -> Forall (fun delta => (dmin <= delta)%Q) deltas ->
  forall s : State,
    machine_ok s ->
    (frames_left dmin s <= inject_Z (Z.of_nat (List.length deltas)))%Q ->
    same_but_angle (run (map Frame deltas) s) (drained s).
Proof.
  intros Hdmin. unfold run.
  induction 1 as [|delta rest Hdelta Hrest IH]; intros s Hok Hleft.
  - destruct (frames_left_zero Hok Hdmin Hleft) as [Hc Hq].
    rewrite (drained_idle s Hc Hq). apply same_but_angle_refl.
  - cbn [map fold_left step].
    destruct (frame_progress Hok Hdmin Hdelta) as [Hdrain Hprogress].
    assert (Hok' : machine_ok (useFrame delta s)).
    { apply useFrame_ok; [lra|exact Hok]. }
    eapply same_but_angle_trans; [|exact Hdrain].
    apply IH; [exact Hok'|].
    destruct Hprogress as [[Hc Hq]|Hdec].
    + destruct Hok as (_ & _ & Hcur). rewrite Hc in Hcur.
      destruct Hcur as (Ha & _).
      rewrite (useFrame_idle delta s Ha Hq).
      unfold frames_left. rewrite Hc, Hq. cbn [map fold_right]. cbv iota.
      rewrite Qplus_0_l.
      change 0%Q with (inject_Z 0). rewrite <- Zle_Qle. lia.
    + cbn [List.length] in Hleft.
      rewrite Nat2Z.inj_succ in Hleft. unfold Z.succ in Hleft.
      rewrite inject_Z_plus in Hleft.
      change (inject_Z 1) with 1%Q in Hleft.
      remember (inject_Z (Z.of_nat (List.length rest))) as n eqn:En. clear En.
      lra.
Qed.


End Machine.

(** *** The settled state *)

Section Settled.
Context {math : JSMath}.

Lemma perform_fields (q : QueuedMove) (s : State) :
  pivotRef s <> None ->
  currentMove (perform q s) = None /\
  moveQueue (perform q s) = moveQueue s /\
  isAnimating (perform q s) = false /\
  completed (perform q s) = completed s ++ [move q] /\
  pivotRef (perform q s) <> None.
Proof.
  intro Hp. destruct (pivotRef s) as [pivot|] eqn:Ep; [|congruence].
  unfold perform. erewrite startMove_eq by exact Ep.
  erewrite finishMove_eq by (fields; reflexivity). fields.
  repeat split. discriminate.
Qed.

Lemma fold_perform_fields (queue : list QueuedMove) :
  forall s : State,
    pivotRef s <> None -> currentMove s = None -> isAnimating s = false ->
    let s' := fold_left (fun s q => perform q s) queue s in
    currentMove s' = None /\
    moveQueue s' = moveQueue s /\
    isAnimating s' = false /\
    completed s' = completed s ++ map move queue.
Proof.
  induction queue as [|q rest IH]; intros s Hp Hc Ha; cbn [fold_left map].
  - rewrite app_nil_r. repeat split; assumption.
  - destruct (perform_fields q s Hp) as (Fc & Fq & Fa & Fd & Fp).
    destruct (IH (perform q s) Fp Fc Fa) as (Gc & Gq & Ga & Gd).
    rewrite Gq, Gd, Fq, Fd, <- app_assoc. repeat split; assumption.
Qed.

(** The settled state: every accepted move completed, in order. *)
Lemma drained_fields (s : State) :
  slots_ok s ->
  completed (drained s) = pipeline s /\
  currentMove (drained s) = None /\
  isAnimating (drained s) = false /\
  moveQueue (drained s) = [].
Proof.
  intros [Hp Hslot]. unfold drained, pipeline, in_flight, finish_current.
  destruct (pivotRef s) as [pivot|] eqn:Ep; [|congruence].
  destruct (currentMove s) as [current|] eqn:Ec.
  - destruct (finishMove_fields s Ep Ec) as (Fc & Fq & Fa & Fd & _ & Fp).
    destruct (fold_perform_fields (moveQueue s)
                (with_moveQueue [] (finishMove s)) Fp Fc Fa)
      as (Gc & Gq & Ga & Gd).
    rewrite Gd. fields. rewrite Fd, <- app_assoc.
    repeat split; assumption.
  - assert (Hp' : pivotRef (with_moveQueue [] s) <> None)
      by (fields; congruence).
    destruct (fold_perform_fields (moveQueue s) (with_moveQueue [] s)
                Hp' Ec Hslot) as (Gc & Gq & Ga & Gd).
    rewrite Gd. repeat split; assumption.
Qed.

Lemma same_but_angle_fields (s s' : State) :
  same_but_angle s s' ->
  completed s = completed s' /\ currentMove s = currentMove s' /\
  isAnimating s = isAnimating s' /\ moveQueue s = moveQueue s' /\
  cubieRefs s = cubieRefs s'.
Proof.
  unfold same_but_angle. intro E.
  repeat split;
    [ change (completed (with_currentAngle 0 s) = completed (with_currentAngle 0 s'))
    | change (currentMove (with_currentAngle 0 s) = currentMove (with_currentAngle 0 s'))
    | change (isAnimating (with_currentAngle 0 s) = isAnimating (with_currentAngle 0 s'))
    | change (moveQueue (with_currentAngle 0 s) = moveQueue (with_currentAngle 0 s'))
    | change (cubieRefs (with_currentAngle 0 s) = cubieRefs (with_currentAngle 0 s')) ];
    rewrite E; reflexivity.
Qed.

Lemma machine_ok_slots (s : State) : machine_ok s -> slots_ok s.
Proof.
  intros (_ & Hp & Hc). split; [exact Hp|].
  destruct (currentMove s); tauto.
Qed.

Lemma transition_step (s : State) (ev : Event) :
  slots_ok s -> transition s (step s ev).
Proof.
  intro Hok. destruct ev as [m sp|moves sp|delta|e| |x y]; simpl.
  - eapply stays; reflexivity.
  - rewrite addMoves_eq. eapply stays; reflexivity.
  - destruct (useFrame_cases delta Hok)
      as [Hc Hq ->|next rest Hc Ha Hq _ Hq' Hc' Ha' Hd
         |current Hc Ha Hq' Hc' Ha' Hd _|current Hc Ha Hq' Hc' Ha' Hd].
    + apply stays with (added := []); try reflexivity.
      symmetry. apply app_nil_r.
    + eapply starts; eassumption.
    + apply stays with (added := []); try congruence.
      rewrite app_nil_r. exact Hq'.
    + eapply completes; eassumption.
  - destruct (handlePointerDown_machine e s) as (Ed & Ec & Ea & _ & _ & _ & Eq).
    apply stays with (added := []); try assumption.
    rewrite app_nil_r. exact Eq.
  - apply stays with (added := []); try reflexivity.
    symmetry. apply app_nil_r.
  - destruct (handlePointerMove_machine x y s) as (Ed & Ec & Ea & _).
    eapply stays; try eassumption. apply handlePointerMove_queue.
Qed.

End Settled.

Lemma frames_bound (x : Q) : exists n : nat, (x <= inject_Z (Z.of_nat n))%Q.
Proof.
  exists (Z.to_nat (Qceiling x)).
  apply Qle_trans with (inject_Z (Qceiling x)); [apply Qle_ceiling|].
  rewrite <- Zle_Qle. lia.
Qed.

(** C3: along every run from the mounted component, the moves accepted so
    far (completed, then in flight, then queued) are the moves requested,
    in the order of the requests, so that completions are a prefix of the
    requests; each event leaves the animation alone, or starts the head of
    the queue from the idle state, or completes the move in flight and
    returns to idle; and once requests stop, enough frames of at least
    [dmin] seconds complete every requested move, each once, in order. *)
Theorem move_queue_fifo (math : JSMath) (events : list Event) (dmin : num) :
  Forall valid_event events -> (0 < dmin)%Q ->
  let s := run events mounted in
  pipeline s = requests events mounted /\
  (forall ev : Event, transition s (step s ev)) /\
  exists n : nat,
    forall deltas : list num,
      Forall (fun delta => (dmin <= delta)%Q) deltas ->
      (n <= List.length deltas)%nat ->
      let final := run (map Frame deltas) s in
      completed final = requests events mounted /\
      currentMove final = None /\
      isAnimating final = false /\
      moveQueue final = [].
Proof.
  intros Hev Hdmin s.
  assert (Hslots : slots_ok s) by (apply slots_ok_run, slots_ok_mounted).
  assert (Hok : machine_ok s)
    by (apply machine_ok_run; [exact Hev|apply machine_ok_mounted]).
  assert (Hpipe : pipeline s = requests events mounted).
  { subst s. rewrite pipeline_run by apply slots_ok_mounted. reflexivity. }
  split; [exact Hpipe|].
  split; [intro ev; apply transition_step, Hslots|].
  destruct (frames_bound (frames_left dmin s)) as [n Hn].
  exists n. intros deltas Hdeltas Hlen final.
  assert (Hsettle : same_but_angle final (drained s)).
  { apply frames_settle with (dmin := dmin); try assumption.
    eapply Qle_trans; [exact Hn|]. rewrite <- Zle_Qle. lia. }
  destruct (same_but_angle_fields Hsettle) as (Ed & Ec & Ea & Eq & _).
  destruct (drained_fields Hslots) as (Dd & Dc & Da & Dq).
  rewrite Ed, Ec, Ea, Eq, Dd, Dc, Da, Dq, Hpipe. repeat split.
Qed.

(** C10: after every event, and so after every animation tick, the
    accumulated angle and the pivot's rotation about each axis are at most a
    quarter turn in absolute value, whatever the (non-negative) frame times
    and (positive) speed multipliers. *)
Theorem currentAngle_bounded (math : JSMath) (events : list Event) :
  Forall valid_event events ->
  let s := run events mounted in
  (Qabs (currentAngle s) <= (Num.PI / 2)%num)%Q /\
  forall a : Axis,
    (Qabs (component (pivot_rotation s) a) <= (Num.PI / 2)%num)%Q.
Proof.
  intros Hev s.
  assert (Hok : machine_ok s)
    by (apply machine_ok_run; [exact Hev|apply machine_ok_mounted]).
  destruct Hok as (_ & _ & Hc).
  pose proof half_pi_bounds as [Hlo _].
  destruct (currentMove s) as [current|].
  - destruct Hc as (_ & _ & _ & Habs & Hrot).
    rewrite sub_correct, lit_correct in Habs.
    split; [lra|].
    intro a. rewrite Hrot.
    destruct (axis (move current)), a; cbn [component set_component vx vy vz Three.zero3];
      try (change (Qabs 0) with 0%Q); lra.
  - destruct Hc as (_ & Habs & Hrot).
    split; [exact Habs|].
    intro a. rewrite Hrot.
    destruct a; cbn [component vx vy vz Three.zero3];
      change (Qabs 0) with 0%Q; lra.
Qed.

(** C6: on a tick of the animation, the step is the direction times the
    smaller of |5 * speedMultiplier * delta| and the remaining angle to the
    target; it is added to the pivot's rotation about the move's axis and to
    the accumulated angle; the move completes, through [finishMove],
    exactly when the new accumulated angle is at least a quarter turn less
    0.001 in absolute value. *)
Theorem useFrame_tick (math : JSMath) (events : list Event) (delta : num)
  (current : QueuedMove) (pivot : Three.Object3D) :
  Forall valid_event events -> (0 <= delta)%Q ->
  let s := run events mounted in
  currentMove s = Some current -> pivotRef s = Some pivot ->
  let step := frame_step delta current (currentAngle s) in
  let a := axis (move current) in
  let ticked :=
    with_currentAngle (currentAngle s + step)
      (with_pivotRef
         (Some (Three.set_rotation
                  (set_component a (component (Three.rotation pivot) a + step)
                     (Three.rotation pivot)) pivot)) s) in
  (step == specified_step delta current (currentAngle s))%Q /\
  (((Num.PI / 2)%num - (1 # 1000) <= Qabs (currentAngle ticked))%Q ->
   useFrame delta s = finishMove ticked) /\
  ((Qabs (currentAngle ticked) < (Num.PI / 2)%num - (1 # 1000))%Q ->
   useFrame delta s = ticked).
Proof.
  intros Hev Hdelta s Ecur Epivot step a ticked.
  assert (Hok : machine_ok s)
    by (apply machine_ok_run; [exact Hev|apply machine_ok_mounted]).
  destruct Hok as (_ & _ & Hc). rewrite Ecur in Hc.
  destruct Hc as (Ha & Hv & Hsign & Habs & _).
  destruct (frame_step_cases Hv Hdelta Hsign Habs) as (Hstep & _).
  split; [exact Hstep|].
  assert (E : useFrame delta s =
              if Num.PI / 2 - lit 0.001 <=? Num.abs (currentAngle ticked)
              then finishMove ticked else ticked).
  { unfold useFrame. rewrite Ha, Ecur, Epivot. reflexivity. }
  rewrite E. split; intro H.
  - replace (_ <=? _) with true; [reflexivity|].
    symmetry. apply leb_le.
    rewrite sub_correct, lit_correct, abs_correct. exact H.
  - replace (_ <=? _) with false; [reflexivity|].
    symmetry. apply leb_gt.
    rewrite sub_correct, lit_correct, abs_correct. exact H.
Qed.

(** ** The gesture interpreter *)

Lemma gestureMove_axis (n w : Vec3) (dx dy : num) :
  axis (gestureMove n w dx dy) =
  gesture_axis (face n) (Num.abs dy <? Num.abs dx).
Proof.
  unfold gestureMove, face, flip_if.
  destruct (lit 0.5 <? Num.abs (vx n)); [|destruct (lit 0.5 <? Num.abs (vy n))];
    destruct (Num.abs dy <? Num.abs dx);
    repeat match goal with
           | |- context [if ?c then _ else _] => destruct c
           end; reflexivity.
Qed.

Lemma gestureMove_slice (n w : Vec3) (dx dy : num) :
  slice (gestureMove n w dx dy) =
  Num.round (component w (axis (gestureMove n w dx dy)) / (1 + CUBE_GAP)).
Proof.
  unfold gestureMove, flip_if.
  repeat match goal with
         | |- context [if ?c then _ else _] => destruct c
         end; reflexivity.
Qed.

(** Axis and direction of the inferred move do not depend on where the
    grabbed cubie is. *)
Lemma gestureMove_position (n w w' : Vec3) (dx dy : num) :
  axis (gestureMove n w dx dy) = axis (gestureMove n w' dx dy) /\
  direction (gestureMove n w dx dy) = direction (gestureMove n w' dx dy).
Proof.
  unfold gestureMove, flip_if.
  repeat match goal with
         | |- context [if ?c then _ else _] => destruct c
         end; split; reflexivity.
Qed.

Lemma Move_eq (m m' : Move) :
  axis m = axis m' -> slice m = slice m' -> direction m = direction m' ->
  m = m'.
Proof. destruct m, m'; simpl; congruence. Qed.

Section Gesture.
Context {math : JSMath}.

Lemma gestured_cases (x y x0 y0 : num) (n : Vec3) (mesh : Three.Object3D)
  (s : State) :
  dragStart s = Some (x0, y0) ->
  intersectedFaceNormal s = Some n ->
  intersectedCubieIndex s <> (-1)%Z ->
  mesh_at s (intersectedCubieIndex s) = Some mesh ->
  let dx := x - x0 in
  let dy := y - y0 in
  gestured x y s =
  if sqrt_ltb (dx * dx + dy * dy) 15 then []
  else [gestureMove n (worldPosition s mesh) dx dy].
Proof.
  intros Ed En Ei Em dx dy. unfold gestured. rewrite Ed, En, Em.
  destruct (Z.eqb_spec (intersectedCubieIndex s) (-1)); [contradiction|].
  reflexivity.
Qed.

Lemma handlePointerMove_idle (x y : num) (s : State) :
  dragStart s = None -> handlePointerMove x y s = s.
Proof. intro E. unfold handlePointerMove. rewrite E. reflexivity. Qed.

End Gesture.

(** C8: on a grabbed cubie face, a pointer move whose distance from the
    start of the drag is at least 15 px enqueues exactly one move, with
    speed 1, and ends the drag (later pointer moves enqueue nothing); the
    move's axis follows the face/drag table, horizontal meaning |dx| > |dy|,
    its slice is the rounded normalized world coordinate of the grabbed
    cubie along that axis, and its direction is +1 or -1.  A shorter drag
    changes nothing. *)
Theorem gesture_spec (math : JSMath) (s : State) (x0 y0 x y : num)
  (n : Vec3) (mesh : Three.Object3D) :
  dragStart s = Some (x0, y0) ->
  intersectedFaceNormal s = Some n ->
  intersectedCubieIndex s <> (-1)%Z ->
  mesh_at s (intersectedCubieIndex s) = Some mesh ->
  let dx := x - x0 in
  let dy := y - y0 in
  let s' := handlePointerMove x y s in
  ((dx * dx + dy * dy < 15 * 15)%Q -> s' = s) /\
  ((15 * 15 <= dx * dx + dy * dy)%Q ->
   exists m : Move,
     moveQueue s' = moveQueue s ++ [mkQueuedMove m 1] /\
     axis m = gesture_axis (face n) (Num.abs dy <? Num.abs dx) /\
     slice m =
       Num.round (component (worldPosition s mesh) (axis m) / (1 + CUBE_GAP)) /\
     valid_move m /\
     forall x' y' : num, handlePointerMove x' y' s' = s').
Proof.
  intros Ed En Ei Em dx dy s'.
  assert (Ethreshold :
    sqrt_ltb (dx * dx + dy * dy) 15 = true <->
    (dx * dx + dy * dy < 15 * 15)%Q).
  { unfold sqrt_ltb. rewrite ltb_lt. to_Q. reflexivity. }
  pose proof (handlePointerMove_queue x y s) as Hqueue.
  rewrite (gestured_cases x y s Ed En Ei Em) in Hqueue.
  fold dx dy s' in Hqueue.
  split.
  - intro Hshort. apply Ethreshold in Hshort.
    subst s'. unfold handlePointerMove. rewrite Ed, En.
    destruct (Z.eqb_spec (intersectedCubieIndex s) (-1)); [reflexivity|].
    fold dx dy. rewrite Hshort. reflexivity.
  - intro Hlong.
    assert (Elong : sqrt_ltb (dx * dx + dy * dy) 15 = false).
    { apply not_true_is_false. intro E. apply Ethreshold in E. lra. }
    rewrite Elong in Hqueue.
    exists (gestureMove n (worldPosition s mesh) dx dy).
    split; [exact Hqueue|].
    split; [apply gestureMove_axis|].
    split; [apply gestureMove_slice|].
    split; [apply gestureMove_valid|].
    intros x' y'. apply handlePointerMove_idle.
    subst s'. unfold handlePointerMove. rewrite Ed, En.
    destruct (Z.eqb_spec (intersectedCubieIndex s) (-1)); [contradiction|].
    fold dx dy. rewrite Elong. reflexivity.
Qed.

(** C9, as amended: two invocations of the gesture interpreter with the
    same face normal and the same drag delta enqueue moves of the same axis
    and direction, whatever the rest of the state; the slice is read off the
    grabbed cubie, and the moves are identical when the grabbed cubies have
    the same world coordinate along that axis. *)
Theorem gesture_determinism (math : JSMath) (s1 s2 : State) (dx dy : num)
  (n : Vec3) (mesh1 mesh2 : Three.Object3D) :
  intersectedFaceNormal s1 = Some n ->
  intersectedFaceNormal s2 = Some n ->
  mesh_at s1 (intersectedCubieIndex s1) = Some mesh1 ->
  mesh_at s2 (intersectedCubieIndex s2) = Some mesh2 ->
  exists m1 m2 : Move,
    moveQueue (triggerMoveFromGesture dx dy s1) =
      moveQueue s1 ++ [mkQueuedMove m1 1] /\
    moveQueue (triggerMoveFromGesture dx dy s2) =
      moveQueue s2 ++ [mkQueuedMove m2 1] /\
    axis m1 = axis m2 /\
    direction m1 = direction m2 /\
    ((component (worldPosition s1 mesh1) (axis m1) ==
      component (worldPosition s2 mesh2) (axis m1))%Q -> m1 = m2).
Proof.
  intros En1 En2 Em1 Em2.
  exists (gestureMove n (worldPosition s1 mesh1) dx dy),
         (gestureMove n (worldPosition s2 mesh2) dx dy).
  rewrite !triggerMoveFromGesture_queue, En1, En2, Em1, Em2.
  destruct (gestureMove_position n (worldPosition s1 mesh1)
              (worldPosition s2 mesh2) dx dy) as [Ea Edir].
  repeat split; try assumption.
  intro Hcoord. apply Move_eq; try assumption.
  rewrite !gestureMove_slice, <- Ea, Hcoord. reflexivity.
Qed.

(** ** Quarter turns of a cube at rest *)

Unset Implicit Arguments.

(** *** The rotations at rest *)

Example rest_rotations_24 : List.length rest_rotations = 24%nat.
Proof. reflexivity. Qed.

Example rest_rotations_aligned : forallb aligned rest_rotations = true.
Proof. vm_compute. reflexivity. Qed.

Example rest_rotations_roundtrip :
  forallb
    (fun e =>
       vec_eqb
         (@Three.setFromRotationMatrix quarter_math
            (@Three.makeRotationFromEuler quarter_math e)) e)
    rest_rotations = true.
Proof. vm_compute. reflexivity. Qed.

Lemma num_eqb_eq (x y : num) : num_eqb x y = true -> x = y.
Proof.
  unfold num_eqb. rewrite andb_true_iff, Z.eqb_eq, Pos.eqb_eq.
  destruct x, y; simpl. intros [-> ->]. reflexivity.
Qed.

Lemma vec_eqb_eq (u v : Vec3) : vec_eqb u v = true -> u = v.
Proof.
  unfold vec_eqb. rewrite !andb_true_iff.
  destruct u, v; simpl. intros [[H1 H2] H3].
  apply num_eqb_eq in H1, H2, H3. congruence.
Qed.

Lemma matrix_eqb_eq (a b : Three.Matrix3) : matrix_eqb a b = true -> a = b.
Proof.
  unfold matrix_eqb. rewrite !andb_true_iff.
  destruct a, b; simpl.
  intros [[[[[[[[H1 H2] H3] H4] H5] H6] H7] H8] H9].
  apply num_eqb_eq in H1, H2, H3, H4, H5, H6, H7, H8, H9. congruence.
Qed.

Lemma is_rotation_in (m : Three.Matrix3) :
  is_rotation m = true -> In m rotation_matrices.
Proof.
  unfold is_rotation. rewrite existsb_exists.
  intros [m' [Hin E]]. apply matrix_eqb_eq in E. congruence.
Qed.

Lemma turns_quarter (k : Z) : turns (quarter k) = k.
Proof.
  unfold turns, quarter.
  assert (E : ((int k * HALF_PI)%num / HALF_PI + (1 # 2)
               == inject_Z (2 * k + 1) / inject_Z 2)%Q).
  { rewrite mul_correct. unfold int.
    rewrite inject_Z_plus, inject_Z_mult. field. vm_compute. discriminate. }
  rewrite E, <- Zdiv_Qdiv.
  symmetry. apply Z.div_unique with (r := 1%Z); lia.
Qed.

Lemma aligned_quarter (e : Vec3) :
  aligned e = true ->
  e = mkVec3 (quarter (turns (vx e))) (quarter (turns (vy e)))
        (quarter (turns (vz e))).
Proof. apply vec_eqb_eq. Qed.

(** *** Backends exact on quarter turns agree on the rotations at rest *)

Section BackendAgreement.
Context {math : JSMath}.
Hypothesis exact : quarter_exact math.

Lemma makeRotationFromEuler_quarter (a b c : Z) :
  @Three.makeRotationFromEuler math
    (mkVec3 (quarter a) (quarter b) (quarter c)) =
  @Three.makeRotationFromEuler quarter_math
    (mkVec3 (quarter a) (quarter b) (quarter c)).
Proof.
  destruct exact as (Hcos & Hsin & _).
  unfold Three.makeRotationFromEuler, quarter. cbn [vx vy vz].
  rewrite !Hcos, !Hsin.
  cbn [Math_cos Math_sin quarter_math].
  fold (quarter a) (quarter b) (quarter c).
  rewrite !turns_quarter. reflexivity.
Qed.

Lemma makeRotationFromEuler_agree (e : Vec3) :
  aligned e = true ->
  @Three.makeRotationFromEuler math e =
  @Three.makeRotationFromEuler quarter_math e.
Proof.
  intro H. rewrite (aligned_quarter e H).
  apply makeRotationFromEuler_quarter.
Qed.

Lemma setFromRotationMatrix_agree (m : Three.Matrix3) :
  is_rotation m = true ->
  @Three.setFromRotationMatrix math m =
  @Three.setFromRotationMatrix quarter_math m.
Proof.
  intro H. apply is_rotation_in in H.
  destruct exact as (_ & _ & A0 & A1 & A2 & T0 & T1 & T2 & T3).
  vm_compute in A0, A1, A2, T0, T1, T2, T3.
  vm_compute in H.
  repeat (destruct H as [<-|H];
          [vm_compute; rewrite ?A0, ?A1, ?A2, ?T0, ?T1, ?T2, ?T3; reflexivity|]).
  contradiction.
Qed.

End BackendAgreement.

Lemma parent_eqb_eq (p q : Three.Parent) : parent_eqb p q = true -> p = q.
Proof. destruct p, q; simpl; congruence. Qed.

(** The side conditions under which a quarter turn computes the same with
    any backend exact on quarter turns; they do not depend on where the
    mesh is. *)
Lemma turn_exact_all (p : Vec3) :
  forallb (fun e =>
    forallb (fun a =>
      forallb (fun d =>
        aligned (Three.rotation pivot0)
        && aligned e
        && is_rotation
             (Three.linear
                (@attach_matrix quarter_math pivot0 Three.Pivot
                   (Three.mkObject3D p e Three.Scene)))
        && aligned (Three.rotation (pivot1 a d))
        && aligned
             (Three.rotation
                (@Three.attach quarter_math pivot0 Three.Pivot
                   (Three.mkObject3D p e Three.Scene)))
        && is_rotation
             (Three.linear
                (@attach_matrix quarter_math (pivot1 a d) Three.Scene
                   (@Three.attach quarter_math pivot0 Three.Pivot
                      (Three.mkObject3D p e Three.Scene)))))
        [1%Z; (-1)%Z]) [X; Y; Z_])
    rest_rotations = true.
Proof. vm_compute. reflexivity. Qed.

Lemma existsb_vec_in (v : Vec3) (l : list Vec3) :
  existsb (vec_eqb v) l = true -> In v l.
Proof.
  rewrite existsb_exists. intros [v' [Hin E]].
  apply vec_eqb_eq in E. congruence.
Qed.

Lemma at_restb_at_rest (mesh : Three.Object3D) :
  at_restb mesh = true -> at_rest mesh.
Proof.
  unfold at_restb, at_rest. rewrite !andb_true_iff.
  intros [[Hp Hpos] Hrot]. repeat split.
  - apply parent_eqb_eq, Hp.
  - apply existsb_vec_in, Hpos.
  - apply existsb_vec_in, Hrot.
Qed.

Lemma valid_direction_in (d : Z) : valid_direction d -> In d [1%Z; (-1)%Z].
Proof. intros [->| ->]; simpl; auto. Qed.

Lemma axis_in (a : Axis) : In a [X; Y; Z_].
Proof. destruct a; simpl; auto. Qed.

Lemma attach_matrix_eq (math : JSMath) (pivot : Three.Object3D)
  (target : Three.Parent) (o : Three.Object3D) :
  attach_matrix pivot target o =
  Three.multiply
    (Three.multiply
       (Three.invert
          match target with
          | Three.Scene => Three.identity
          | Three.Pivot =>
              Three.mkMatrix4
                (Three.makeRotationFromEuler (Three.rotation pivot))
                (Three.position pivot)
          end)
       match Three.parent o with
       | Three.Scene => Three.identity
       | Three.Pivot =>
           Three.mkMatrix4
             (Three.makeRotationFromEuler (Three.rotation pivot))
             (Three.position pivot)
       end)
    (Three.mkMatrix4 (Three.makeRotationFromEuler (Three.rotation o))
       (Three.position o)).
Proof. reflexivity. Qed.

Lemma attach_decompose (math : JSMath) (pivot : Three.Object3D)
  (target : Three.Parent) (o : Three.Object3D) :
  Three.attach pivot target o =
  Three.mkObject3D
    (Three.translation (attach_matrix pivot target o))
    (Three.setFromRotationMatrix (Three.linear (attach_matrix pivot target o)))
    target.
Proof. reflexivity. Qed.

(** *** Positions and rotations turn separately *)

Section Split.
Context {math : JSMath}.

Lemma position_mesh (p e : Vec3) (par : Three.Parent) :
  Three.position (Three.mkObject3D p e par) = p.
Proof. reflexivity. Qed.

Lemma rotation_mesh (p e : Vec3) (par : Three.Parent) :
  Three.rotation (Three.mkObject3D p e par) = e.
Proof. reflexivity. Qed.

Lemma multiply_translation (A : Three.Matrix4) (R R' : Three.Matrix3)
  (p : Vec3) :
  Three.translation (Three.multiply A (Three.mkMatrix4 R p)) =
  Three.translation (Three.multiply A (Three.mkMatrix4 R' p)).
Proof. reflexivity. Qed.

Lemma multiply_linear (A : Three.Matrix4) (R : Three.Matrix3) (p p' : Vec3) :
  Three.linear (Three.multiply A (Three.mkMatrix4 R p)) =
  Three.linear (Three.multiply A (Three.mkMatrix4 R p')).
Proof. reflexivity. Qed.

Lemma attach_matrix_mesh (pivot : Three.Object3D) (target par : Three.Parent)
  (p e : Vec3) :
  attach_matrix pivot target (Three.mkObject3D p e par) =
  Three.multiply
    (Three.multiply (Three.invert (Three.parentWorld pivot target))
       (Three.parentWorld pivot par))
    (Three.mkMatrix4 (Three.makeRotationFromEuler e) p).
Proof. reflexivity. Qed.

(** [attach] yields a child of the target, computes the position from the
    position and the rotation from the rotation. *)
Lemma attach_eta (pivot : Three.Object3D) (target : Three.Parent)
  (o : Three.Object3D) :
  Three.attach pivot target o =
  Three.mkObject3D (Three.position (Three.attach pivot target o))
    (Three.rotation (Three.attach pivot target o)) target.
Proof.
  rewrite (attach_decompose math pivot target o).
  rewrite position_mesh, rotation_mesh. reflexivity.
Qed.

Lemma attach_position (pivot : Three.Object3D) (target par : Three.Parent)
  (p e e' : Vec3) :
  Three.position (Three.attach pivot target (Three.mkObject3D p e par)) =
  Three.position (Three.attach pivot target (Three.mkObject3D p e' par)).
Proof.
  rewrite !attach_decompose, !position_mesh, !attach_matrix_mesh.
  apply multiply_translation.
Qed.

Lemma attach_rotation (pivot : Three.Object3D) (target par : Three.Parent)
  (p p' e : Vec3) :
  Three.rotation (Three.attach pivot target (Three.mkObject3D p e par)) =
  Three.rotation (Three.attach pivot target (Three.mkObject3D p' e par)).
Proof.
  rewrite !attach_decompose, !rotation_mesh, !attach_matrix_mesh.
  rewrite (multiply_linear _ _ p p'). reflexivity.
Qed.

Lemma snapMesh_eta (p e : Vec3) (par : Three.Parent) :
  snapMesh (Three.mkObject3D p e par) =
  Three.mkObject3D (Three.position (snapMesh (Three.mkObject3D p e par)))
    (Three.rotation (snapMesh (Three.mkObject3D p e par))) par.
Proof. reflexivity. Qed.

Lemma snapMesh_position (p e e' : Vec3) (par : Three.Parent) :
  Three.position (snapMesh (Three.mkObject3D p e par)) =
  Three.position (snapMesh (Three.mkObject3D p e' par)).
Proof. reflexivity. Qed.

Lemma snapMesh_rotation (p p' e : Vec3) (par : Three.Parent) :
  Three.rotation (snapMesh (Three.mkObject3D p e par)) =
  Three.rotation (snapMesh (Three.mkObject3D p' e par)).
Proof. reflexivity. Qed.

(** A quarter turn does the same: the new position depends on the position
    only, the new rotation on the rotation only. *)
Lemma turn_mesh_eta (a : Axis) (d : Z) (mesh : Three.Object3D) :
  turn_mesh a d mesh =
  Three.mkObject3D (Three.position (turn_mesh a d mesh))
    (Three.rotation (turn_mesh a d mesh)) Three.Scene.
Proof.
  unfold turn_mesh.
  rewrite (attach_eta (pivot1 a d) Three.Scene
             (Three.attach pivot0 Three.Pivot mesh)).
  apply snapMesh_eta.
Qed.

Lemma turn_mesh_position (a : Axis) (d : Z) (p e e' : Vec3) :
  Three.position (turn_mesh a d (Three.mkObject3D p e Three.Scene)) =
  Three.position (turn_mesh a d (Three.mkObject3D p e' Three.Scene)).
Proof.
  unfold turn_mesh. generalize (pivot1 a d). intro target.
  rewrite (attach_eta pivot0 Three.Pivot (Three.mkObject3D p e Three.Scene)).
  rewrite (attach_eta pivot0 Three.Pivot (Three.mkObject3D p e' Three.Scene)).
  rewrite (attach_position pivot0 Three.Pivot Three.Scene p e e').
  generalize
    (Three.position
       (Three.attach pivot0 Three.Pivot (Three.mkObject3D p e' Three.Scene))),
    (Three.rotation
       (Three.attach pivot0 Three.Pivot (Three.mkObject3D p e Three.Scene))),
    (Three.rotation
       (Three.attach pivot0 Three.Pivot (Three.mkObject3D p e' Three.Scene))).
  intros q r r'.
  rewrite (attach_eta target Three.Scene (Three.mkObject3D q r Three.Pivot)).
  rewrite (attach_eta target Three.Scene (Three.mkObject3D q r' Three.Pivot)).
  rewrite (attach_position target Three.Scene Three.Pivot q r r').
  apply snapMesh_position.
Qed.

Lemma turn_mesh_rotation (a : Axis) (d : Z) (p p' e : Vec3) :
  Three.rotation (turn_mesh a d (Three.mkObject3D p e Three.Scene)) =
  Three.rotation (turn_mesh a d (Three.mkObject3D p' e Three.Scene)).
Proof.
  unfold turn_mesh. generalize (pivot1 a d). intro target.
  rewrite (attach_eta pivot0 Three.Pivot (Three.mkObject3D p e Three.Scene)).
  rewrite (attach_eta pivot0 Three.Pivot (Three.mkObject3D p' e Three.Scene)).
  rewrite (attach_rotation pivot0 Three.Pivot Three.Scene p p' e).
  generalize
    (Three.rotation
       (Three.attach pivot0 Three.Pivot (Three.mkObject3D p' e Three.Scene))),
    (Three.position
       (Three.attach pivot0 Three.Pivot (Three.mkObject3D p e Three.Scene))),
    (Three.position
       (Three.attach pivot0 Three.Pivot (Three.mkObject3D p' e Three.Scene))).
  intros r q q'.
  rewrite (attach_eta target Three.Scene (Three.mkObject3D q r Three.Pivot)).
  rewrite (attach_eta target Three.Scene (Three.mkObject3D q' r Three.Pivot)).
  rewrite (attach_rotation target Three.Scene Three.Pivot q q' r).
  apply snapMesh_rotation.
Qed.

End Split.

(** The quarter turns of the positions of the grid, computed with the
    backend exact on quarter turns: the position stays on the grid, keeps
    its coordinate along the axis, and the opposite turn brings it back. *)
Lemma position_checks_all :
  forallb (fun p =>
    forallb (fun a =>
      forallb (fun d =>
        existsb
          (vec_eqb
             (Three.position
                (@turn_mesh quarter_math a d
                   (Three.mkObject3D p Three.zero3 Three.Scene))))
          grid_points
        && num_eqb
             (component
                (Three.position
                   (@turn_mesh quarter_math a d
                      (Three.mkObject3D p Three.zero3 Three.Scene))) a)
             (component p a)
        && vec_eqb
             (Three.position
                (@turn_mesh quarter_math a (d * -1)
                   (Three.mkObject3D
                      (Three.position
                         (@turn_mesh quarter_math a d
                            (Three.mkObject3D p Three.zero3 Three.Scene)))
                      Three.zero3 Three.Scene)))
             p)
        [1%Z; (-1)%Z]) [X; Y; Z_])
    grid_points = true.
Proof. vm_compute. reflexivity. Qed.

(** The quarter turns of the rotations at rest: the rotation stays one of
    the 24, and the opposite turn brings it back. *)
Lemma rotation_checks_all :
  forallb (fun e =>
    forallb (fun a =>
      forallb (fun d =>
        existsb
          (vec_eqb
             (Three.rotation
                (@turn_mesh quarter_math a d
                   (Three.mkObject3D Three.zero3 e Three.Scene))))
          rest_rotations
        && vec_eqb
             (Three.rotation
                (@turn_mesh quarter_math a (d * -1)
                   (Three.mkObject3D Three.zero3
                      (Three.rotation
                         (@turn_mesh quarter_math a d
                            (Three.mkObject3D Three.zero3 e Three.Scene)))
                      Three.Scene)))
             e)
        [1%Z; (-1)%Z]) [X; Y; Z_])
    rest_rotations = true.
Proof. vm_compute. reflexivity. Qed.

(** One quarter turn of a mesh at rest, with the backend exact on quarter
    turns. *)
Lemma turn_checks_rest (a : Axis) (d : Z) (mesh : Three.Object3D) :
  at_rest mesh -> valid_direction d ->
  at_rest (@turn_mesh quarter_math a d mesh) /\
  component (Three.position (@turn_mesh quarter_math a d mesh)) a =
    component (Three.position mesh) a /\
  @turn_mesh quarter_math a (d * -1) (@turn_mesh quarter_math a d mesh) = mesh.
Proof.
  destruct mesh as [p e par]. intros (Hpar & Hp & He) Hd.
  rewrite position_mesh in Hp. rewrite rotation_mesh in He.
  change (par = Three.Scene) in Hpar. subst par.
  pose proof position_checks_all as P.
  rewrite forallb_forall in P. specialize (P p Hp).
  rewrite forallb_forall in P. specialize (P a (axis_in a)).
  rewrite forallb_forall in P. specialize (P d (valid_direction_in d Hd)).
  cbv beta in P.
  apply andb_true_iff in P. destruct P as [P P3].
  apply andb_true_iff in P. destruct P as [P1 P2].
  apply existsb_vec_in in P1. apply num_eqb_eq in P2. apply vec_eqb_eq in P3.
  pose proof rotation_checks_all as R.
  rewrite forallb_forall in R. specialize (R e He).
  rewrite forallb_forall in R. specialize (R a (axis_in a)).
  rewrite forallb_forall in R. specialize (R d (valid_direction_in d Hd)).
  cbv beta in R.
  apply andb_true_iff in R. destruct R as [R1 R3].
  apply existsb_vec_in in R1. apply vec_eqb_eq in R3.
  rewrite (turn_mesh_eta a d (Three.mkObject3D p e Three.Scene)).
  rewrite (turn_mesh_position a d p e Three.zero3).
  rewrite (turn_mesh_rotation a d p Three.zero3 e).
  revert P1 P2 P3 R1 R3.
  generalize
    (Three.position
       (@turn_mesh quarter_math a d
          (Three.mkObject3D p Three.zero3 Three.Scene))),
    (Three.rotation
       (@turn_mesh quarter_math a d
          (Three.mkObject3D Three.zero3 e Three.Scene))).
  intros p' e' P1 P2 P3 R1 R3.
  split; [split; [reflexivity|split; assumption]|].
  split; [rewrite position_mesh; exact P2|].
  rewrite (turn_mesh_eta a (d * -1) (Three.mkObject3D p' e' Three.Scene)).
  rewrite (turn_mesh_position a (d * -1) p' e' Three.zero3).
  rewrite (turn_mesh_rotation a (d * -1) p' Three.zero3 e').
  rewrite P3, R3. reflexivity.
Qed.

(** *** A quarter turn of a mesh at rest *)

Section TurnAgreement.
Context {math : JSMath}.
Hypothesis exact : quarter_exact math.

Lemma attach_agree (pivot : Three.Object3D) (target : Three.Parent)
  (o : Three.Object3D) :
  aligned (Three.rotation pivot) = true ->
  aligned (Three.rotation o) = true ->
  is_rotation (Three.linear (@attach_matrix quarter_math pivot target o)) = true ->
  @Three.attach math pivot target o = @Three.attach quarter_math pivot target o.
Proof.
  intros Hpivot Ho Hrot.
  assert (Em : @attach_matrix math pivot target o =
               @attach_matrix quarter_math pivot target o).
  { rewrite !attach_matrix_eq.
    rewrite (makeRotationFromEuler_agree exact _ Hpivot).
    rewrite (makeRotationFromEuler_agree exact _ Ho).
    reflexivity. }
  rewrite !attach_decompose, Em.
  rewrite (setFromRotationMatrix_agree exact _ Hrot). reflexivity.
Qed.

Lemma turn_mesh_agree (a : Axis) (d : Z) (mesh : Three.Object3D) :
  at_rest mesh -> valid_direction d ->
  @turn_mesh math a d mesh = @turn_mesh quarter_math a d mesh.
Proof.
  destruct mesh as [p e par]. intros (Hpar & _ & He) Hd.
  cbn [Three.parent Three.position Three.rotation] in Hpar, He.
  subst par.
  pose proof (turn_exact_all p) as H.
  rewrite forallb_forall in H. specialize (H e He).
  rewrite forallb_forall in H. specialize (H a (axis_in a)).
  rewrite forallb_forall in H. specialize (H d (valid_direction_in d Hd)).
  cbv beta in H.
  apply andb_true_iff in H. destruct H as [H H6].
  apply andb_true_iff in H. destruct H as [H H5].
  apply andb_true_iff in H. destruct H as [H H4].
  apply andb_true_iff in H. destruct H as [H H3].
  apply andb_true_iff in H. destruct H as [H1 H2].
  unfold turn_mesh.
  rewrite (attach_agree pivot0 Three.Pivot
             (Three.mkObject3D p e Three.Scene) H1 H2 H3).
  rewrite (attach_agree (pivot1 a d) Three.Scene
             (@Three.attach quarter_math pivot0 Three.Pivot
                (Three.mkObject3D p e Three.Scene)) H4 H5 H6).
  reflexivity.
Qed.

(** A quarter turn keeps a mesh at rest and its coordinate along the axis;
    the opposite quarter turn undoes it. *)
Lemma turn_mesh_rest (a : Axis) (d : Z) (mesh : Three.Object3D) :
  at_rest mesh -> valid_direction d ->
  at_rest (turn_mesh a d mesh) /\
  component (Three.position (turn_mesh a d mesh)) a =
    component (Three.position mesh) a /\
  turn_mesh a (d * -1) (turn_mesh a d mesh) = mesh.
Proof.
  intros Hrest Hd.
  destruct (turn_checks_rest a d mesh Hrest Hd) as (H1 & H2 & H3).
  assert (Hd' : valid_direction (d * -1)).
  { destruct Hd as [E|E]; rewrite E; [right|left]; reflexivity. }
  rewrite (turn_mesh_agree a d mesh Hrest Hd).
  rewrite (turn_mesh_agree a (d * -1) _ H1 Hd').
  split; [exact H1|]. split; [exact H2|exact H3].
Qed.

End TurnAgreement.

Lemma nth_error_update_at (A : Type) (v : A) (refs : list (option A)) :
  forall idx i : nat,
    nth_error (update_at idx v refs) i =
    if (i =? idx)%nat
    then match nth_error refs i with
         | Some _ => Some (Some v)
         | None => None
         end
    else nth_error refs i.
Proof.
  induction refs as [|x rest IH]; intros idx i.
  - destruct idx, i; simpl; try reflexivity;
      destruct (i =? idx)%nat; reflexivity.
  - destruct idx as [|idx], i as [|i]; simpl; try reflexivity.
    apply IH.
Qed.

Lemma nth_error_apply_at (h : Three.Object3D -> Three.Object3D)
  (refs : list (option Three.Object3D)) (idx i : nat) :
  nth_error (apply_at h refs idx) i =
  if (i =? idx)%nat
  then option_map (option_map h) (nth_error refs i)
  else nth_error refs i.
Proof.
  unfold apply_at, at_index.
  destruct (Nat.eqb_spec i idx) as [->|Hne].
  - destruct (nth_error refs idx) as [[mesh|]|] eqn:E; simpl.
    + rewrite nth_error_update_at, Nat.eqb_refl, E. reflexivity.
    + exact E.
    + exact E.
  - destruct (nth_error refs idx) as [[mesh|]|]; try reflexivity.
    rewrite nth_error_update_at.
    destruct (Nat.eqb_spec i idx); [contradiction|reflexivity].
Qed.

Lemma nth_error_fold_apply_at (h : Three.Object3D -> Three.Object3D)
  (indices : list nat) (i : nat) :
  NoDup indices ->
  forall refs : list (option Three.Object3D),
    nth_error (fold_left (apply_at h) indices refs) i =
    if existsb (Nat.eqb i) indices
    then option_map (option_map h) (nth_error refs i)
    else nth_error refs i.
Proof.
  induction 1 as [|idx rest Hnot _ IH]; intro refs; simpl.
  - reflexivity.
  - rewrite IH, nth_error_apply_at.
    destruct (Nat.eqb_spec i idx) as [->|Hne]; simpl.
    + replace (existsb (Nat.eqb idx) rest) with false; [reflexivity|].
      symmetry. apply not_true_is_false. intro E.
      apply existsb_exists in E. destruct E as [j [Hin Ej]].
      apply Nat.eqb_eq in Ej. subst j. contradiction.
    + reflexivity.
Qed.

Lemma existsb_eqb_in (i : nat) (indices : list nat) :
  existsb (Nat.eqb i) indices = true <-> In i indices.
Proof.
  rewrite existsb_exists. split.
  - intros [j [Hin E]]. apply Nat.eqb_eq in E. congruence.
  - intro Hin. exists i. split; [exact Hin|apply Nat.eqb_refl].
Qed.

(** *** A move run to completion, mesh by mesh *)

Section Moves.
Context {math : JSMath}.

(** The meshes after a move run to completion: those the slice selector
    picks are turned, the others are left as they are. *)
Lemma perform_refs (q : QueuedMove) (s : State) :
  pivotRef s <> None ->
  cubieRefs (perform q s) =
  map (fun mesh =>
         if inSlice (axis (move q)) (slice (move q)) s mesh
         then option_map (turn_mesh (axis (move q)) (direction (move q))) mesh
         else mesh)
      (cubieRefs s).
Proof.
  intro Hp. destruct (pivotRef s) as [pivot|] eqn:Ep; [|congruence].
  unfold perform. erewrite startMove_eq by exact Ep.
  erewrite finishMove_eq by (fields; reflexivity). fields.
  set (indices := getCubiesInSlice (axis (move q)) (slice (move q)) s).
  assert (Hnodup : NoDup indices) by apply getCubiesInSlice_NoDup.
  apply nth_error_ext. intro i.
  rewrite !nth_error_fold_apply_at by exact Hnodup.
  rewrite nth_error_map.
  destruct (existsb (Nat.eqb i) indices) eqn:Ein.
  - apply existsb_eqb_in in Ein. subst indices.
    apply getCubiesInSlice_in in Ein. destruct Ein as [mesh [Hat Hin]].
    unfold at_index in Hat.
    destruct (nth_error (cubieRefs s) i) as [[mesh'|]|]; try discriminate.
    inversion Hat; subst mesh'. cbn [option_map]. rewrite Hin.
    reflexivity.
  - destruct (nth_error (cubieRefs s) i) as [[mesh|]|] eqn:En;
      cbn [option_map]; try reflexivity.
    replace (inSlice (axis (move q)) (slice (move q)) s (Some mesh))
      with false; [reflexivity|].
    symmetry. apply not_true_is_false. intro Hin.
    assert (In i indices) as Hi.
    { apply getCubiesInSlice_in. exists mesh. unfold at_index. rewrite En.
      split; [reflexivity|exact Hin]. }
    apply existsb_eqb_in in Hi. congruence.
Qed.

End Moves.

(** *** A sequence of moves and its reversal *)

Lemma reverseMoves_cons (m : Move) (history : list Move) :
  reverseMoves (m :: history) = reverseMoves history ++ [negated m].
Proof. unfold reverseMoves. simpl. rewrite map_app. reflexivity. Qed.

Lemma reverseMoves_valid (history : list Move) :
  Forall valid_move history -> Forall valid_move (reverseMoves history).
Proof.
  intro H. unfold reverseMoves. apply Forall_map, Forall_rev.
  eapply Forall_impl; [|exact H].
  intros m [E|E]; unfold valid_move, valid_direction; simpl; rewrite E; auto.
Qed.

Section RoundTrip.
Context {math : JSMath}.
Hypothesis exact : quarter_exact math.

Lemma move_mesh_rest (m : Move) (mesh : Three.Object3D) :
  valid_move m -> at_rest mesh -> at_rest (move_mesh m mesh).
Proof.
  intros Hm Hrest. unfold move_mesh.
  destruct (posInSlice _ _ _); [|exact Hrest].
  apply (turn_mesh_rest exact (axis m) (direction m) mesh Hrest Hm).
Qed.

Lemma move_mesh_negated (m : Move) (mesh : Three.Object3D) :
  valid_move m -> at_rest mesh ->
  move_mesh (negated m) (move_mesh m mesh) = mesh.
Proof.
  intros Hm Hrest. unfold move_mesh, negated. cbn [axis slice direction set_direction].
  destruct (turn_mesh_rest exact (axis m) (direction m) mesh Hrest Hm)
    as (_ & Hcoord & Hback).
  destruct (posInSlice (axis m) (slice m) (Three.position mesh)) eqn:Ein.
  - replace (posInSlice (axis m) (slice m)
               (Three.position (turn_mesh (axis m) (direction m) mesh)))
      with true; [exact Hback|].
    rewrite <- Ein. unfold posInSlice. rewrite Hcoord. reflexivity.
  - rewrite Ein. reflexivity.
Qed.

Lemma moves_mesh_rest (moves : list Move) :
  Forall valid_move moves ->
  forall mesh, at_rest mesh -> at_rest (moves_mesh moves mesh).
Proof.
  unfold moves_mesh.
  induction 1 as [|m rest Hm _ IH]; intros mesh Hrest; simpl.
  - exact Hrest.
  - apply IH, move_mesh_rest; assumption.
Qed.

(** Replaying a history backwards with the directions negated brings every
    mesh back. *)
Lemma moves_mesh_reverse (history : list Move) :
  Forall valid_move history ->
  forall mesh, at_rest mesh ->
    moves_mesh (reverseMoves history) (moves_mesh history mesh) = mesh.
Proof.
  induction 1 as [|m rest Hm Hrest IH]; intros mesh Hmesh.
  - reflexivity.
  - rewrite reverseMoves_cons. unfold moves_mesh in *.
    cbn [fold_left]. rewrite fold_left_app. cbn [fold_left].
    rewrite IH by (apply move_mesh_rest; assumption).
    apply move_mesh_negated; assumption.
Qed.

Lemma perform_resting (q : QueuedMove) (s : State) :
  valid_move (move q) -> resting s ->
  cubieRefs (perform q s) =
    map (option_map (move_mesh (move q))) (cubieRefs s) /\
  resting (perform q s).
Proof.
  intros Hm [Hp Hrefs].
  assert (E : cubieRefs (perform q s) =
              map (option_map (move_mesh (move q))) (cubieRefs s)).
  { rewrite perform_refs by exact Hp.
    apply map_ext_in. intros ref Hin.
    rewrite Forall_forall in Hrefs.
    destruct (Hrefs ref Hin) as [mesh [-> Hrest]].
    rewrite inSlice_scene by apply Hrest.
    unfold move_mesh. cbn [option_map].
    destruct (posInSlice _ _ _); reflexivity. }
  split; [exact E|].
  split; [apply perform_fields, Hp|].
  rewrite E. apply Forall_map.
  eapply Forall_impl; [|exact Hrefs].
  intros ref [mesh [-> Hrest]]. exists (move_mesh (move q) mesh).
  split; [reflexivity|apply move_mesh_rest; assumption].
Qed.

Lemma fold_perform_resting (queue : list QueuedMove) :
  Forall (fun q => valid_move (move q)) queue ->
  forall s : State,
    resting s ->
    let s' := fold_left (fun s q => perform q s) queue s in
    cubieRefs s' =
      map (option_map (moves_mesh (map move queue))) (cubieRefs s) /\
    resting s'.
Proof.
  induction 1 as [|q rest Hq _ IH]; intros s Hs; cbn [fold_left map].
  - split; [|exact Hs]. unfold moves_mesh. cbn [fold_left].
    rewrite <- (map_id (cubieRefs s)) at 1.
    apply map_ext. intros [mesh|]; reflexivity.
  - destruct (perform_resting q s Hq Hs) as [E Hs'].
    destruct (IH _ Hs') as [E' Hs''].
    split; [|exact Hs''].
    rewrite E', E, map_map. apply map_ext.
    intros [mesh|]; reflexivity.
Qed.

End RoundTrip.

Lemma resting_mounted : resting mounted.
Proof.
  split; [discriminate|].
  unfold mounted, mount. cbn [cubieRefs].
  apply Forall_map, Forall_forall. intros data Hin.
  eexists. split; [reflexivity|].
  apply at_restb_at_rest.
  revert data Hin. apply Forall_forall.
  vm_compute. repeat constructor.
Qed.

(** *** Scramble and reset *)

Lemma quarter_math_exact : quarter_exact quarter_math.
Proof.
  unfold quarter_exact. cbn [Math_cos Math_sin Math_asin Math_atan2 quarter_math].
  split; [intro k; fold (quarter k); rewrite turns_quarter; reflexivity|].
  split; [intro k; fold (quarter k); rewrite turns_quarter; reflexivity|].
  repeat split; vm_compute; reflexivity.
Qed.

Lemma map_move_queued (moves : list Move) (sp : option num) :
  map move (queued moves sp) = moves.
Proof.
  unfold queued. rewrite map_map. cbn [move]. apply map_id.
Qed.

Lemma queued_valid (moves : list Move) (sp : option num) :
  Forall valid_move moves -> (0 < default 1 sp)%Q ->
  Forall valid_queued (queued moves sp).
Proof.
  intros Hm Hsp. unfold queued. apply Forall_map.
  eapply Forall_impl; [|exact Hm].
  intros m Hv. split; [exact Hv|exact Hsp].
Qed.

Section Reset.
Context {math : JSMath}.
Hypothesis exact : quarter_exact math.

(** An idle cube at rest that is given a queue of moves and enough frames
    settles at rest, every mesh moved by the moves of the queue in order. *)
Lemma settle_resting (dmin : num) (deltas : list num) (s : State) :
  (0 < dmin)%Q -> Forall (fun delta => (dmin <= delta)%Q) deltas ->
  machine_ok s -> resting s -> currentMove s = None ->
  (queue_frames dmin (moveQueue s)
   <= inject_Z (Z.of_nat (List.length deltas)))%Q ->
  let s' := run (map Frame deltas) s in
  cubieRefs s' =
    map (option_map (moves_mesh (map move (moveQueue s)))) (cubieRefs s) /\
  completed s' = completed s ++ map move (moveQueue s) /\
  currentMove s' = None /\ isAnimating s' = false /\ moveQueue s' = [] /\
  machine_ok s' /\ resting s'.
Proof.
  intros Hdmin Hdeltas Hok Hrest Hc Hleft s'.
  assert (Hok' : machine_ok s').
  { apply machine_ok_run; [|exact Hok].
    apply Forall_map. eapply Forall_impl; [|exact Hdeltas].
    intros delta Hd. unfold valid_event. cbv beta in Hd. lra. }
  assert (Hsettle : same_but_angle s' (drained s)).
  { apply frames_settle with (dmin := dmin); try assumption.
    unfold frames_left. rewrite Hc. rewrite Qplus_0_l. exact Hleft. }
  destruct (same_but_angle_fields Hsettle) as (Ed & Ec & Ea & Eq & Er).
  destruct (drained_fields (machine_ok_slots Hok)) as (Dd & Dc & Da & Dq).
  assert (Hbase : resting (with_moveQueue [] s)) by exact Hrest.
  assert (Hvalid : Forall (fun q => valid_move (move q)) (moveQueue s)).
  { destruct Hok as (Hq & _). eapply Forall_impl; [|exact Hq].
    intros q [Hv _]. exact Hv. }
  destruct (fold_perform_resting exact (moveQueue s) Hvalid
              (with_moveQueue [] s) Hbase) as [Efold Hfold].
  assert (Edrained : drained s =
            fold_left (fun s q => perform q s) (moveQueue s)
              (with_moveQueue [] s)).
  { unfold drained, finish_current. rewrite Hc. reflexivity. }
  rewrite <- Edrained in Efold, Hfold.
  assert (Erefs : cubieRefs s' =
            map (option_map (moves_mesh (map move (moveQueue s))))
              (cubieRefs s)).
  { rewrite Er, Efold. reflexivity. }
  split; [exact Erefs|].
  split.
  { rewrite Ed, Dd. unfold pipeline, in_flight. rewrite Hc. reflexivity. }
  split; [congruence|]. split; [congruence|]. split; [congruence|].
  split; [exact Hok'|].
  split; [apply Hok'|].
  rewrite Er. apply Hfold.
Qed.

End Reset.

(** C1: with a backend exact on quarter turns, any sequence of moves
    applied to the mounted (solved) cube and run to completion, followed by
    the history replayed backwards with every direction negated (the
    sequence [handleReset] enqueues) and run to completion, brings the
    position and rotation of every cubie back to what they were before the
    sequence; a single move followed by its opposite is the case of a
    one-move history.  Enough frames of at least [dmin] seconds run both
    sequences to completion, and the moves reported complete are the moves
    asked for, then their reversal. *)
Theorem reset_correctness (math : JSMath) (moves : list Move)
  (sp1 sp2 : option num) (dmin : num) :
  quarter_exact math -> Forall valid_move moves ->
  (0 < default 1 sp1)%Q -> (0 < default 1 sp2)%Q -> (0 < dmin)%Q ->
  exists n : nat,
    forall deltas1 deltas2 : list num,
      Forall (fun delta => (dmin <= delta)%Q) deltas1 ->
      Forall (fun delta => (dmin <= delta)%Q) deltas2 ->
      (n <= List.length deltas1)%nat -> (n <= List.length deltas2)%nat ->
      let scrambled :=
        run (AddMoves moves sp1 :: map Frame deltas1) mounted in
      let restored :=
        run (AddMoves (reverseMoves (completed scrambled)) sp2
             :: map Frame deltas2) scrambled in
      completed scrambled = moves /\
      cubieRefs scrambled =
        map (option_map (moves_mesh moves)) (cubieRefs mounted) /\
      completed restored = moves ++ reverseMoves moves /\
      cubieRefs restored = cubieRefs mounted /\
      currentMove restored = None /\ isAnimating restored = false /\
      moveQueue restored = [].
Proof.
  intros exact Hmoves Hsp1 Hsp2 Hdmin.
  destruct (frames_bound (queue_frames dmin (queued moves sp1))) as [n1 Hn1].
  destruct (frames_bound (queue_frames dmin (queued (reverseMoves moves) sp2)))
    as [n2 Hn2].
  exists (Nat.max n1 n2).
  intros deltas1 deltas2 Hd1 Hd2 Hlen1 Hlen2 scrambled restored.
  (* the scramble *)
  set (s0 := addMoves moves sp1 mounted).
  assert (E0 : s0 = with_moveQueue (queued moves sp1) mounted).
  { subst s0. rewrite addMoves_eq. reflexivity. }
  assert (Hok0 : machine_ok s0).
  { rewrite E0. apply (machine_ok_enqueue machine_ok_mounted).
    apply queued_valid; assumption. }
  assert (Hrest0 : resting s0) by (rewrite E0; exact resting_mounted).
  assert (Hq0 : moveQueue s0 = queued moves sp1) by (rewrite E0; reflexivity).
  assert (Hleft0 : (queue_frames dmin (moveQueue s0)
                    <= inject_Z (Z.of_nat (List.length deltas1)))%Q).
  { rewrite Hq0. eapply Qle_trans; [exact Hn1|]. rewrite <- Zle_Qle. lia. }
  assert (Hc0 : currentMove s0 = None) by (rewrite E0; reflexivity).
  destruct (settle_resting exact dmin deltas1 s0 Hdmin Hd1 Hok0 Hrest0 Hc0
              Hleft0) as (Sr & Sd & Sc & Sa & Sq & Sok & Srest).
  change (run (map Frame deltas1) s0) with scrambled in *.
  rewrite Hq0, map_move_queued in Sr, Sd.
  assert (Ed0 : completed s0 = []) by (rewrite E0; reflexivity).
  rewrite Ed0 in Sd. cbn [app] in Sd.
  assert (Er0 : cubieRefs s0 = cubieRefs mounted) by (rewrite E0; reflexivity).
  rewrite Er0 in Sr.
  (* the replay *)
  set (s1 := addMoves (reverseMoves (completed scrambled)) sp2 scrambled).
  assert (E1 : s1 = with_moveQueue (queued (reverseMoves moves) sp2) scrambled).
  { subst s1. rewrite addMoves_eq, Sq, Sd. reflexivity. }
  assert (Hok1 : machine_ok s1).
  { rewrite E1. rewrite <- (app_nil_l (queued (reverseMoves moves) sp2)).
    rewrite <- Sq. apply (machine_ok_enqueue Sok).
    apply queued_valid; [apply reverseMoves_valid, Hmoves|exact Hsp2]. }
  assert (Hrest1 : resting s1) by (rewrite E1; exact Srest).
  assert (Hq1 : moveQueue s1 = queued (reverseMoves moves) sp2)
    by (rewrite E1; reflexivity).
  assert (Hleft1 : (queue_frames dmin (moveQueue s1)
                    <= inject_Z (Z.of_nat (List.length deltas2)))%Q).
  { rewrite Hq1. eapply Qle_trans; [exact Hn2|]. rewrite <- Zle_Qle. lia. }
  assert (Hc1 : currentMove s1 = None) by (rewrite E1; exact Sc).
  destruct (settle_resting exact dmin deltas2 s1 Hdmin Hd2 Hok1 Hrest1 Hc1
              Hleft1) as (Rr & Rd & Rc & Ra & Rq & _ & _).
  change (run (map Frame deltas2) s1) with restored in *.
  rewrite Hq1, map_move_queued in Rr, Rd.
  assert (Ed1 : completed s1 = moves) by (rewrite E1; exact Sd).
  assert (Er1 : cubieRefs s1 = cubieRefs scrambled) by (rewrite E1; reflexivity).
  rewrite Ed1 in Rd. rewrite Er1, Sr, map_map in Rr.
  split; [exact Sd|]. split; [exact Sr|]. split; [exact Rd|].
  split; [|repeat split; assumption].
  rewrite Rr. rewrite <- (map_id (cubieRefs mounted)) at 2.
  apply map_ext_in. intros ref Hin.
  destruct resting_mounted as [_ Hmounted].
  rewrite Forall_forall in Hmounted.
  destruct (Hmounted ref Hin) as [mesh [-> Hmesh]].
  cbn [option_map].
  rewrite (moves_mesh_reverse exact moves Hmoves mesh Hmesh). reflexivity.
Qed.

(** ** Instances *)

(** A turn of the right face and back, each started and run by frames. *)
Lemma reset_correctness_witness :
  reverseMoves [getMoveFromNotation "R"] = [getMoveFromNotation "R'"] /\
  exists n : nat,
    forall deltas1 deltas2 : list num,
      Forall (fun delta => (1 # 60 <= delta)%Q) deltas1 ->
      Forall (fun delta => (1 # 60 <= delta)%Q) deltas2 ->
      (n <= List.length deltas1)%nat -> (n <= List.length deltas2)%nat ->
      cubieRefs
        (@run quarter_math
           (AddMoves [getMoveFromNotation "R'"] (Some 3)
            :: map Frame deltas2)
           (@run quarter_math
              (AddMoves [getMoveFromNotation "R"] None :: map Frame deltas1)
              mounted)) =
      cubieRefs mounted.
Proof.
  split; [reflexivity|].
  assert (Hmoves : Forall valid_move [getMoveFromNotation "R"]).
  { constructor; [right; reflexivity|constructor]. }
  destruct (reset_correctness quarter_math [getMoveFromNotation "R"] None
              (Some 3) (1 # 60) quarter_math_exact Hmoves
              eq_refl eq_refl eq_refl) as [n Hn].
  exists n. intros deltas1 deltas2 H1 H2 L1 L2.
  destruct (Hn deltas1 deltas2 H1 H2 L1 L2) as (Ec & _ & _ & Er & _).
  rewrite Ec in Er. exact Er.
Defined.

(** Two moves enqueued together, a third while the first is animating. *)
Lemma move_queue_fifo_witness :
  Forall valid_event
    [AddMoves [getMoveFromNotation "R"; getMoveFromNotation "U"] None;
     Frame (1 # 60);
     AddMove (getMoveFromNotation "F'") (Some 2)] /\
  pipeline
    (@run quarter_math
       [AddMoves [getMoveFromNotation "R"; getMoveFromNotation "U"] None;
        Frame (1 # 60);
        AddMove (getMoveFromNotation "F'") (Some 2)] mounted) =
  [getMoveFromNotation "R"; getMoveFromNotation "U";
   getMoveFromNotation "F'"] /\
  exists n : nat,
    forall deltas : list num,
      Forall (fun delta => (1 # 60 <= delta)%Q) deltas ->
      (n <= List.length deltas)%nat ->
      completed
        (@run quarter_math
           ([AddMoves [getMoveFromNotation "R"; getMoveFromNotation "U"] None;
             Frame (1 # 60);
             AddMove (getMoveFromNotation "F'") (Some 2)]
            ++ map Frame deltas) mounted) =
      [getMoveFromNotation "R"; getMoveFromNotation "U";
       getMoveFromNotation "F'"].
Proof.
  assert (Hev : Forall valid_event
    [AddMoves [getMoveFromNotation "R"; getMoveFromNotation "U"] None;
     Frame (1 # 60);
     AddMove (getMoveFromNotation "F'") (Some 2)]).
  { repeat constructor; try (right; reflexivity); try (left; reflexivity);
      discriminate. }
  split; [exact Hev|].
  destruct (@move_queue_fifo quarter_math _ (1 # 60) Hev eq_refl)
    as (Hpipe & _ & n & Hn).
  split; [exact Hpipe|].
  exists n. intros deltas Hd Hlen.
  destruct (Hn deltas Hd Hlen) as (Hc & _).
  unfold run in *. rewrite fold_left_app. exact Hc.
Defined.

(** The angle after a move has been started and ticked twice. *)
Lemma currentAngle_bounded_witness :
  Forall valid_event
    [AddMove (getMoveFromNotation "R") None; Frame (1 # 60); Frame (1 # 5)] /\
  (Qabs
     (currentAngle
        (@run quarter_math
           [AddMove (getMoveFromNotation "R") None; Frame (1 # 60);
            Frame (1 # 5)] mounted))
   <= (Num.PI / 2)%num)%Q.
Proof.
  assert (Hev : Forall valid_event
    [AddMove (getMoveFromNotation "R") None; Frame (1 # 60); Frame (1 # 5)]).
  { repeat constructor; try (right; reflexivity); discriminate. }
  split; [exact Hev|].
  exact (proj1 (@currentAngle_bounded quarter_math _ Hev)).
Defined.

(** A tick of a turn of the right face, one frame after it started. *)
Lemma useFrame_tick_witness :
  currentMove
    (@run quarter_math
       [AddMove (getMoveFromNotation "R") None; Frame (1 # 60)] mounted) =
    Some (mkQueuedMove (getMoveFromNotation "R") 1) /\
  (frame_step (1 # 60) (mkQueuedMove (getMoveFromNotation "R") 1)
     (currentAngle
        (@run quarter_math
           [AddMove (getMoveFromNotation "R") None; Frame (1 # 60)] mounted))
   == specified_step (1 # 60) (mkQueuedMove (getMoveFromNotation "R") 1)
        (currentAngle
           (@run quarter_math
              [AddMove (getMoveFromNotation "R") None; Frame (1 # 60)]
              mounted)))%Q.
Proof.
  assert (Hev : Forall valid_event
    [AddMove (getMoveFromNotation "R") None; Frame (1 # 60)]).
  { repeat constructor; try (right; reflexivity); discriminate. }
  assert (Hdelta : (0 <= 1 # 60)%Q) by discriminate.
  split; [reflexivity|].
  exact (proj1 (@useFrame_tick quarter_math
                  [AddMove (getMoveFromNotation "R") None; Frame (1 # 60)]
                  (1 # 60) (mkQueuedMove (getMoveFromNotation "R") 1)
                  (Three.mkObject3D Three.zero3 Three.zero3 Three.Scene)
                  Hev Hdelta eq_refl eq_refl)).
Defined.

(** A drag of 20 px to the right on the front face of the corner cubie
    (1, 1, 1): a turn of the top layer. *)
Lemma gesture_spec_witness :
  exists m : Move,
    moveQueue
      (@run quarter_math
         [PointerDown (mkPointerEvent (CubieMesh 26) (mkVec3 0 0 1) 100 100);
          PointerMove 120 100] mounted) = [mkQueuedMove m 1] /\
    axis m = Y /\ slice m = 1.
Proof.
  assert (Hi : intersectedCubieIndex
                 (@run quarter_math
                    [PointerDown
                       (mkPointerEvent (CubieMesh 26) (mkVec3 0 0 1) 100 100)]
                    mounted) <> (-1)%Z) by discriminate.
  assert (Hlong : (15 * 15 <= (120 - 100)%num * (120 - 100)%num
                              + (100 - 100)%num * (100 - 100)%num)%Q)
    by discriminate.
  destruct (proj2 (@gesture_spec quarter_math
                     (@run quarter_math
                        [PointerDown
                           (mkPointerEvent (CubieMesh 26) (mkVec3 0 0 1)
                              100 100)] mounted)
                     100 100 120 100 (mkVec3 0 0 1)
                     (Three.mkObject3D
                        (mkVec3 (1 + CUBE_GAP) (1 + CUBE_GAP) (1 + CUBE_GAP))
                        Three.zero3 Three.Scene)
                     eq_refl eq_refl Hi eq_refl) Hlong)
    as (m & Hq & Ha & Hs & _).
  exists m. split; [exact Hq|]. split; [exact Ha|].
  rewrite Ha in Hs. exact Hs.
Defined.

(** The same drag on the front face of two cubies of the top layer. *)
Lemma gesture_determinism_witness :
  exists m1 m2 : Move,
    moveQueue
      (@triggerMoveFromGesture quarter_math 20 0
         (@run quarter_math
            [PointerDown
               (mkPointerEvent (CubieMesh 26) (mkVec3 0 0 1) 100 100)]
            mounted)) = [mkQueuedMove m1 1] /\
    moveQueue
      (@triggerMoveFromGesture quarter_math 20 0
         (@run quarter_math
            [PointerDown
               (mkPointerEvent (CubieMesh 8) (mkVec3 0 0 1) 100 100)]
            mounted)) = [mkQueuedMove m2 1] /\
    m1 = m2.
Proof.
  destruct (@gesture_determinism quarter_math
              (@run quarter_math
                 [PointerDown
                    (mkPointerEvent (CubieMesh 26) (mkVec3 0 0 1) 100 100)]
                 mounted)
              (@run quarter_math
                 [PointerDown
                    (mkPointerEvent (CubieMesh 8) (mkVec3 0 0 1) 100 100)]
                 mounted)
              20 0 (mkVec3 0 0 1)
              (Three.mkObject3D
                 (mkVec3 (1 + CUBE_GAP) (1 + CUBE_GAP) (1 + CUBE_GAP))
                 Three.zero3 Three.Scene)
              (Three.mkObject3D
                 (mkVec3 (int (-1) * (1 + CUBE_GAP)) (1 + CUBE_GAP)
                    (1 + CUBE_GAP))
                 Three.zero3 Three.Scene)
              eq_refl eq_refl eq_refl eq_refl)
    as (m1 & m2 & H1 & H2 & Ha & _ & Hsame).
  exists m1, m2. split; [exact H1|]. split; [exact H2|].
  apply Hsame.
  assert (Ea : axis m1 = Y).
  { injection H1 as E. rewrite <- E. reflexivity. }
  rewrite Ea. reflexivity.
Defined.

(** The same drag on the front face of a cubie of the top layer and of a
    cubie of the bottom layer: two different moves. *)
Lemma gesture_determinism_counterexample :
  intersectedFaceNormal
    (@run quarter_math
       [PointerDown (mkPointerEvent (CubieMesh 26) (mkVec3 0 0 1) 100 100)]
       mounted) =
  intersectedFaceNormal
    (@run quarter_math
       [PointerDown (mkPointerEvent (CubieMesh 2) (mkVec3 0 0 1) 100 100)]
       mounted) /\
  moveQueue
    (@triggerMoveFromGesture quarter_math 20 0
       (@run quarter_math
          [PointerDown (mkPointerEvent (CubieMesh 26) (mkVec3 0 0 1) 100 100)]
          mounted)) = [mkQueuedMove (mkMove Y 1 1) 1] /\
  moveQueue
    (@triggerMoveFromGesture quarter_math 20 0
       (@run quarter_math
          [PointerDown (mkPointerEvent (CubieMesh 2) (mkVec3 0 0 1) 100 100)]
          mounted)) = [mkQueuedMove (mkMove Y (-1)%Q 1) 1] /\
  mkMove Y 1 1 <> mkMove Y (-1)%Q 1.
Proof.
  split; [reflexivity|]. split; [reflexivity|]. split; [reflexivity|].
  discriminate.
Qed.

(** The mounted cube is canonical; its slice x = 1 holds 9 cubies. *)
Lemma getCubiesInSlice_spec_witness :
  canonical mounted /\
  List.length (@getCubiesInSlice quarter_math X (int 1) mounted) = 9%nat.
Proof.
  assert (Hcanonical : canonical mounted).
  { exists (map (fun data =>
                   Three.mkObject3D (position data) (rotation data)
                     Three.Scene) initialCubies).
    split; [unfold mounted, mount; cbn [cubieRefs]; rewrite map_map;
            reflexivity|].
    split; [apply Forall_map, Forall_forall; intros data _; reflexivity|].
    vm_compute. apply Permutation.Permutation_refl. }
  split; [exact Hcanonical|].
  apply (proj2 (@getCubiesInSlice_spec quarter_math X mounted) Hcanonical 1%Z).
  right. right. left. reflexivity.
Defined.

(** *** The cube follows its moves *)

Section Coherence.
Context {math : JSMath}.

Lemma finish_current_frame (s s' : State) :
  cubieRefs s' = cubieRefs s -> pivotRef s' = pivotRef s ->
  currentMove s' = currentMove s ->
  activeCubieIndices s' = activeCubieIndices s ->
  completed s' = completed s ->
  cubieRefs (finish_current s') = cubieRefs (finish_current s) /\
  completed (finish_current s') = completed (finish_current s).
Proof.
  intros Er Ep Ec Ea Ed. unfold finish_current. rewrite Ec.
  destruct (currentMove s) as [current|] eqn:Ecur; [|split; assumption].
  unfold finishMove. rewrite Ep, Ec, Ecur.
  destruct (pivotRef s) as [pivot|]; [|split; assumption].
  rewrite !fold_apply_refs. fields. rewrite Er, Ea, Ed. split; reflexivity.
Qed.

Lemma tracked_frame (s s' : State) :
  cubieRefs s' = cubieRefs s -> pivotRef s' = pivotRef s ->
  currentMove s' = currentMove s ->
  activeCubieIndices s' = activeCubieIndices s ->
  completed s' = completed s ->
  tracked s -> tracked s'.
Proof.
  intros Er Ep Ec Ea Ed H. unfold tracked in *.
  destruct (finish_current_frame s s' Er Ep Ec Ea Ed) as [-> ->]. exact H.
Qed.

Lemma handlePointerMove_engine (x y : num) (s : State) :
  cubieRefs (handlePointerMove x y s) = cubieRefs s /\
  pivotRef (handlePointerMove x y s) = pivotRef s /\
  currentMove (handlePointerMove x y s) = currentMove s /\
  activeCubieIndices (handlePointerMove x y s) = activeCubieIndices s /\
  completed (handlePointerMove x y s) = completed s.
Proof.
  unfold handlePointerMove.
  destruct (dragStart s) as [[x0 y0]|]; [|repeat split].
  destruct (intersectedFaceNormal s) as [n|] eqn:En; [|repeat split].
  destruct (intersectedCubieIndex s =? -1)%Z; [repeat split|].
  destruct (sqrt_ltb _ _); [repeat split|].
  rewrite triggerMoveFromGesture_queue. repeat split.
Qed.

Lemma handlePointerDown_engine (e : PointerEvent) (s : State) :
  cubieRefs (handlePointerDown e s) = cubieRefs s /\
  pivotRef (handlePointerDown e s) = pivotRef s /\
  currentMove (handlePointerDown e s) = currentMove s /\
  activeCubieIndices (handlePointerDown e s) = activeCubieIndices s /\
  completed (handlePointerDown e s) = completed s.
Proof.
  unfold handlePointerDown.
  destruct (isAnimating s || _); [repeat split|].
  destruct (isCubie _); repeat split.
Qed.

Lemma moves_mesh_app (moves : list Move) (m : Move) (mesh : Three.Object3D) :
  moves_mesh (moves ++ [m]) mesh = move_mesh m (moves_mesh moves mesh).
Proof. unfold moves_mesh. rewrite fold_left_app. reflexivity. Qed.

Hypothesis exact : quarter_exact math.

Lemma tracked_resting (moves : list Move) (refs : list (option Three.Object3D)) :
  Forall valid_move moves ->
  refs = map (option_map (moves_mesh moves)) (cubieRefs mounted) ->
  Forall (fun ref => exists mesh, ref = Some mesh /\ at_rest mesh) refs.
Proof.
  intros Hm ->. apply Forall_map.
  destruct resting_mounted as [_ H].
  eapply Forall_impl; [|exact H].
  intros ref [mesh [-> Hrest]]. exists (moves_mesh moves mesh).
  split; [reflexivity|].
  apply (moves_mesh_rest exact moves Hm mesh Hrest).
Qed.

Lemma coherent_mounted : coherent mounted.
Proof.
  split; [exact machine_ok_mounted|]. split; [constructor|].
  unfold tracked, finish_current. cbn [currentMove mounted completed].
  unfold moves_mesh. cbn [fold_left].
  rewrite <- (map_id (cubieRefs mounted)) at 1.
  apply map_ext. intros [mesh|]; reflexivity.
Qed.

Lemma coherent_useFrame (delta : num) (s : State) :
  (0 <= delta)%Q -> coherent s -> coherent (useFrame delta s).
Proof.
  intros Hdelta (Hok & Hvalid & Htracked).
  split; [apply useFrame_ok; assumption|].
  destruct Hok as (Hq & Hp & Hc).
  destruct (pivotRef s) as [pivot|] eqn:Epivot; [|congruence].
  destruct (currentMove s) as [current|] eqn:Ecur.
  - destruct Hc as (Ha & Hv & _).
    unfold tracked, finish_current in Htracked. rewrite Ecur in Htracked.
    unfold useFrame. rewrite Ha, Ecur, Epivot. cbv zeta.
    set (step := frame_step delta current (currentAngle s)).
    assert (Efinish :
      finishMove
        (with_currentAngle (currentAngle s + step)
           (with_pivotRef
              (Some (Three.set_rotation
                       (set_component (axis (move current))
                          (component (Three.rotation pivot)
                             (axis (move current)) + step)
                          (Three.rotation pivot)) pivot)) s)) =
      with_currentAngle (currentAngle s + step) (finishMove s)).
    { rewrite finishMove_angle.
      erewrite finishMove_pivot by (eassumption || reflexivity). reflexivity. }
    destruct (finishMove_fields s Epivot Ecur) as (Fc & _ & _ & Fd & _).
    fields. fields_in Efinish.
    destruct (_ <=? _).
    + rewrite Efinish. split.
      * fields. rewrite Fd. apply Forall_app. split; [exact Hvalid|].
        constructor; [apply Hv|constructor].
      * unfold tracked, finish_current. fields. rewrite Fc. fields.
        exact Htracked.
    + split; [exact Hvalid|].
      unfold tracked, finish_current. fields. rewrite Ecur, Efinish. fields.
      exact Htracked.
  - destruct Hc as (Ha & _).
    unfold tracked, finish_current in Htracked. rewrite Ecur in Htracked.
    unfold useFrame. rewrite Ha.
    destruct (moveQueue s) as [|[m sp] rest] eqn:Equeue;
      cbn [List.length Nat.ltb Nat.leb andb negb].
    + split; [exact Hvalid|].
      unfold tracked, finish_current. rewrite Ecur. exact Htracked.
    + assert (Hm : valid_move m).
      { apply Forall_inv in Hq. apply Hq. }
      set (s0 := with_moveQueue rest s).
      assert (Hrest0 : resting s0).
      { split; [subst s0; fields; congruence|].
        apply (tracked_resting (completed s) (cubieRefs s) Hvalid Htracked). }
      assert (Hp0 : pivotRef s0 <> None) by apply Hrest0.
      destruct (perform_resting exact (mkQueuedMove m sp) s0 Hm Hrest0)
        as [Erefs _].
      destruct (perform_fields (mkQueuedMove m sp) s0 Hp0)
        as (_ & _ & _ & Ed & _).
      unfold perform in Erefs, Ed. fields_in Erefs. fields_in Ed.
      assert (Ec' : currentMove (startMove m sp s0) = Some (mkQueuedMove m sp)).
      { subst s0. erewrite startMove_eq by (fields; exact Epivot).
        reflexivity. }
      assert (Ed' : completed (startMove m sp s0) = completed s).
      { subst s0. erewrite startMove_eq by (fields; exact Epivot).
        reflexivity. }
      fields. split; [rewrite Ed'; exact Hvalid|].
      unfold tracked, finish_current. rewrite Ec', Erefs, Ed.
      subst s0. fields. rewrite Htracked at 1. rewrite map_map.
      apply map_ext. intros [mesh|]; [|reflexivity].
      cbn [option_map]. rewrite moves_mesh_app. reflexivity.
Qed.

Lemma coherent_step (s : State) (ev : Event) :
  valid_event ev -> coherent s -> coherent (step s ev).
Proof.
  intros Hev Hco.
  destruct ev as [m sp|moves sp|delta|e| |x y];
    try (apply coherent_useFrame; assumption);
    destruct Hco as (Hok & Hvalid & Htracked);
    (split; [apply machine_ok_step; assumption|]); cbn [step].
  - split; [exact Hvalid|].
    eapply tracked_frame; [..|exact Htracked]; reflexivity.
  - rewrite addMoves_eq. split; [exact Hvalid|].
    eapply tracked_frame; [..|exact Htracked]; reflexivity.
  - destruct (handlePointerDown_engine e s) as (Er & Ep & Ec & Ea & Ed).
    split; [rewrite Ed; exact Hvalid|].
    eapply tracked_frame; [..|exact Htracked]; assumption.
  - split; [exact Hvalid|].
    eapply tracked_frame; [..|exact Htracked]; reflexivity.
  - destruct (handlePointerMove_engine x y s) as (Er & Ep & Ec & Ea & Ed).
    split; [rewrite Ed; exact Hvalid|].
    eapply tracked_frame; [..|exact Htracked]; assumption.
Qed.


End Coherence.

(** *** The cube stays canonical *)

Section Canonical.
Context {math : JSMath}.


Hypothesis exact : quarter_exact math.

Lemma negated_valid (m : Move) : valid_move m -> valid_move (negated m).
Proof.
  intros [E|E]; unfold valid_move, valid_direction, negated; simpl;
    rewrite E; auto.
Qed.




End Canonical.

(** The meshes as mounted. *)
Lemma mounted_meshes :
  cubieRefs mounted =
  map Some
    (map (fun data =>
            Three.mkObject3D (position data) (rotation data) Three.Scene)
       initialCubies) /\
  Forall at_rest
    (map (fun data =>
            Three.mkObject3D (position data) (rotation data) Three.Scene)
       initialCubies) /\
  NoDup
    (map Three.position
       (map (fun data =>
               Three.mkObject3D (position data) (rotation data) Three.Scene)
          initialCubies)).
Proof.
  split; [unfold mounted, mount; cbn [cubieRefs]; rewrite map_map;
          reflexivity|].
  split.
  - apply Forall_map, Forall_forall. intros data Hin.
    apply at_restb_at_rest. revert data Hin. apply Forall_forall.
    vm_compute. repeat constructor.
  - vm_compute.
    repeat (constructor; [simpl; intuition discriminate|]).
    constructor.
Qed.

Lemma grid_points_27 : List.length grid_points = 27%nat.
Proof. reflexivity. Qed.

Section Idle.
Context {math : JSMath}.
Hypothesis exact : quarter_exact math.


End Idle.



(** *** Slices of a canonical cube *)

Lemma at_index_In (A : Type) (l : list A) (i : nat) (x : A) :
  at_index (map Some l) i = Some x -> In x l.
Proof.
  unfold at_index. intro H.
  destruct (nth_error (map Some l) i) as [o|] eqn:E; [|discriminate].
  subst o. apply nth_error_In in E. apply in_map_iff in E.
  destruct E as [y [Ey Hy]]. congruence.
Qed.

Lemma grid_points_lattice (p : Vec3) (a : Axis) :
  In p grid_points ->
  exists k : Z, In k lattice1 /\ component p a = int k * (1 + CUBE_GAP).
Proof.
  unfold grid_points. intro H.
  apply in_flat_map in H. destruct H as [x [Hx H]].
  apply in_flat_map in H. destruct H as [y [Hy H]].
  apply in_map_iff in H. destruct H as [z [<- Hz]].
  destruct a; [exists x|exists y|exists z]; split; (assumption || reflexivity).
Qed.

(** The meshes of a canonical cube sit under the scene, on the lattice. *)
Lemma canonical_lattice (s : State) (i : nat) (mesh : Three.Object3D) :
  canonical s -> at_index (cubieRefs s) i = Some mesh ->
  Three.parent mesh = Three.Scene /\
  forall a : Axis,
    exists k : Z,
      In k lattice1 /\
      component (Three.position mesh) a = int k * (1 + CUBE_GAP).
Proof.
  intros (meshes & Hrefs & Hscene & Hperm) Hat.
  rewrite Hrefs in Hat. apply at_index_In in Hat.
  rewrite Forall_forall in Hscene. split; [apply Hscene, Hat|].
  intro a. apply grid_points_lattice.
  apply (Permutation_in _ Hperm). apply in_map, Hat.
Qed.

Lemma normalized_lattice (k : Z) :
  ((int k * (1 + CUBE_GAP) / (1 + CUBE_GAP))%num == inject_Z k)%Q.
Proof.
  rewrite div_correct, mul_correct. unfold int. field. apply grid_nonzero.
Qed.

(** X2: on a canonical cube the slice selector reads the lattice: a cubie
    with lattice coordinate k along the axis is selected by the slice index
    sl exactly when |k - sl| < 0.1.  So each cubie lies in exactly one of
    the slices -1, 0, 1, and a slice index at least 0.1 away from every one
    of -1, 0, 1 (2, say) selects nothing. *)
Theorem getCubiesInSlice_partition (math : JSMath) (a : Axis) (s : State)
  (i : nat) (mesh : Three.Object3D) :
  canonical s -> at_index (cubieRefs s) i = Some mesh ->
  exists k : Z,
    In k lattice1 /\
    component (Three.position mesh) a = int k * (1 + CUBE_GAP) /\
    forall sl : num,
      In i (getCubiesInSlice a sl s) <-> (Qabs (inject_Z k - sl) < 1 # 10)%Q.
Proof.
  intros Hcanonical Hat.
  destruct (canonical_lattice s i mesh Hcanonical Hat) as [Hscene Hlattice].
  destruct (Hlattice a) as (k & Hk & Ek).
  exists k. split; [exact Hk|]. split; [exact Ek|].
  intro sl. rewrite getCubiesInSlice_in.
  assert (Etest : inSlice a sl s (Some mesh) = true <->
                  (Qabs (inject_Z k - sl) < 1 # 10)%Q).
  { rewrite (inSlice_scene a sl s mesh Hscene). unfold posInSlice.
    rewrite Ek, ltb_lt, abs_correct, sub_correct, lit_correct.
    rewrite normalized_lattice. reflexivity. }
  split.
  - intros [mesh' [Hat' H]]. rewrite Hat in Hat'. inversion Hat'; subst mesh'.
    apply Etest, H.
  - intro H. exists mesh. split; [exact Hat|apply Etest, H].
Qed.

Lemma canonical_mounted : canonical mounted.
Proof.
  destruct mounted_meshes as (Em & Hrest & Hnodup).
  eexists. split; [exact Em|]. split.
  - eapply Forall_impl; [|exact Hrest]. intros mesh H. apply H.
  - vm_compute. apply Permutation_refl.
Qed.

Lemma getCubiesInSlice_partition_witness :
  canonical mounted /\
  exists k : Z,
    In k lattice1 /\
    1 + CUBE_GAP = int k * (1 + CUBE_GAP) /\
    forall sl : num,
      In 26%nat (@getCubiesInSlice quarter_math Y sl mounted) <->
      (Qabs (inject_Z k - sl) < 1 # 10)%Q.
Proof.
  split; [exact canonical_mounted|].
  exact (getCubiesInSlice_partition quarter_math Y mounted 26
           (Three.mkObject3D
              (mkVec3 (1 + CUBE_GAP) (1 + CUBE_GAP) (1 + CUBE_GAP))
              Three.zero3 Three.Scene) canonical_mounted eq_refl).
Defined.

(** *** Gestures on a canonical cube *)

Lemma gesture_axis_face (f : Axis) (horizontal : bool) :
  gesture_axis f horizontal <> f.
Proof. destruct f, horizontal; discriminate. Qed.

Lemma mesh_at_index (s : State) (i : Z) (mesh : Three.Object3D) :
  mesh_at s i = Some mesh -> at_index (cubieRefs s) (Z.to_nat i) = Some mesh.
Proof. unfold mesh_at. destruct (i <? 0)%Z; [discriminate|exact (fun H => H)]. Qed.

(** X3: a gesture on a canonical cube enqueues a legal quarter turn: every
    entry that [handlePointerMove] adds to the queue has speed 1, a slice
    among -1, 0, 1, a direction of +1 or -1, and an axis other than the
    axis of the grabbed face. *)
Theorem gesture_legal (math : JSMath) (x y : num) (s : State)
  (q : QueuedMove) :
  canonical s -> In q (moveQueue (handlePointerMove x y s)) ->
  In q (moveQueue s) \/
  (speed q = 1 /\
   (exists k : Z, In k lattice1 /\ slice (move q) = int k) /\
   valid_direction (direction (move q)) /\
   exists n : Vec3,
     intersectedFaceNormal s = Some n /\ axis (move q) <> face n).
Proof.
  intros Hcanonical Hin. rewrite handlePointerMove_queue in Hin.
  apply in_app_or in Hin. destruct Hin as [Hin|Hin]; [left; exact Hin|right].
  apply in_map_iff in Hin. destruct Hin as [m [<- Hm]].
  cbn [speed move]. split; [reflexivity|].
  unfold gestured in Hm.
  destruct (dragStart s) as [[x0 y0]|]; [|contradiction].
  destruct (intersectedFaceNormal s) as [n|]; [|contradiction].
  destruct (mesh_at s (intersectedCubieIndex s)) as [mesh|] eqn:Emesh;
    [|contradiction].
  destruct (intersectedCubieIndex s =? -1)%Z; [contradiction|].
  cbv zeta in Hm. destruct (sqrt_ltb _ _); [contradiction|].
  destruct Hm as [<-|[]].
  apply mesh_at_index in Emesh.
  destruct (canonical_lattice s _ mesh Hcanonical Emesh) as [Hscene Hlattice].
  split.
  - rewrite gestureMove_slice.
    set (a := axis (gestureMove n (worldPosition s mesh) (x - x0) (y - y0))).
    destruct (Hlattice a) as (k & Hk & Ek).
    exists k. split; [exact Hk|].
    apply round_int. rewrite div_correct.
    rewrite (worldPosition_scene s mesh a Hscene), Ek.
    rewrite <- div_correct. apply normalized_lattice.
  - split; [apply gestureMove_valid|].
    exists n. split; [reflexivity|].
    rewrite gestureMove_axis. apply gesture_axis_face.
Qed.

Lemma gesture_legal_witness :
  canonical
    (@run quarter_math
       [PointerDown (mkPointerEvent (CubieMesh 26) (mkVec3 0 0 1) 100 100)]
       mounted) /\
  exists k : Z,
    In k lattice1 /\
    moveQueue
      (@run quarter_math
         [PointerDown (mkPointerEvent (CubieMesh 26) (mkVec3 0 0 1) 100 100);
          PointerMove 120 100] mounted) =
    [mkQueuedMove (mkMove Y (int k) 1) 1].
Proof.
  assert (Hcanonical : canonical
    (@run quarter_math
       [PointerDown (mkPointerEvent (CubieMesh 26) (mkVec3 0 0 1) 100 100)]
       mounted)) by exact canonical_mounted.
  split; [exact Hcanonical|].
  destruct (gesture_legal quarter_math 120 100 _ (mkQueuedMove (mkMove Y 1 1) 1)
              Hcanonical (or_introl eq_refl))
    as [[]|(_ & (k & Hk & Ek) & _)].
  exists k. split; [exact Hk|].
  cbn [slice move] in Ek. rewrite <- Ek. reflexivity.
Defined.

(** *** The drag in progress *)

Section Drag.
Context {math : JSMath}.

Lemma useFrame_interaction (delta : num) (s : State) :
  orbitEnabled (useFrame delta s) = orbitEnabled s /\
  dragStart (useFrame delta s) = dragStart s /\
  intersectedFaceNormal (useFrame delta s) = intersectedFaceNormal s /\
  intersectedCubieIndex (useFrame delta s) = intersectedCubieIndex s.
Proof.
  assert (Hfinish : forall s : State,
    orbitEnabled (finishMove s) = orbitEnabled s /\
    dragStart (finishMove s) = dragStart s /\
    intersectedFaceNormal (finishMove s) = intersectedFaceNormal s /\
    intersectedCubieIndex (finishMove s) = intersectedCubieIndex s).
  { intro s0. unfold finishMove.
    destruct (pivotRef s0) as [pivot|]; [|repeat split].
    destruct (currentMove s0) as [current|]; [|repeat split].
    rewrite fold_apply_refs. repeat split. }
  unfold useFrame.
  destruct (isAnimating s) eqn:Ea.
  - destruct (currentMove s) as [current|] eqn:Ec.
    + destruct (pivotRef s) as [pivot|] eqn:Ep.
      * cbv zeta. destruct (_ <=? _); [|repeat split].
        match goal with
        | |- context [finishMove ?t] =>
            destruct (Hfinish t) as (-> & -> & -> & ->)
        end.
        repeat split.
      * rewrite andb_false_r. repeat split.
    + rewrite andb_false_r. repeat split.
  - destruct (moveQueue s) as [|next rest]; [repeat split|].
    cbn [List.length Nat.ltb Nat.leb andb negb].
    unfold startMove. fields.
    destruct (pivotRef s) as [pivot|]; [|repeat split].
    rewrite fold_apply_refs. repeat split.
Qed.

End Drag.

(** X4: the camera's orbit control is disabled exactly while a drag on a
    cubie is in progress: in every state the component reaches from its
    mounting, the orbit control is enabled iff no drag has started, a drag
    has started iff a face normal is stored, and without a drag the grabbed
    index is -1. *)
Theorem drag_orbit_invariant (math : JSMath) (events : list Event) :
  let s := run events mounted in
  (orbitEnabled s = true <-> dragStart s = None) /\
  (dragStart s = None <-> intersectedFaceNormal s = None) /\
  (dragStart s = None -> intersectedCubieIndex s = (-1)%Z).
Proof.
  cbv zeta. unfold run.
  assert (H0 :
    (orbitEnabled mounted = true <-> dragStart mounted = None) /\
    (dragStart mounted = None <-> intersectedFaceNormal mounted = None) /\
    (dragStart mounted = None -> intersectedCubieIndex mounted = (-1)%Z)).
  { cbn. tauto. }
  revert H0. generalize mounted.
  induction events as [|ev rest IH]; intros s H; cbn [fold_left];
    [exact H|].
  apply IH. destruct ev as [m sp|moves sp|delta|e| |x y]; cbn [step].
  - exact H.
  - rewrite addMoves_eq. exact H.
  - destruct (useFrame_interaction delta s) as (-> & -> & -> & ->). exact H.
  - unfold handlePointerDown.
    destruct (isAnimating s || _); [exact H|].
    destruct (isCubie _); [|exact H].
    fields. repeat split; intros; try discriminate.
  - unfold handlePointerUp. fields. repeat split; intros; reflexivity.
  - unfold handlePointerMove.
    destruct (dragStart s) as [[x0 y0]|] eqn:Ed; [|rewrite Ed; exact H].
    destruct (intersectedFaceNormal s) as [n|] eqn:En;
      [|rewrite Ed, En; exact H].
    destruct (intersectedCubieIndex s =? -1)%Z;
      [rewrite Ed, En; exact H|].
    cbv zeta. destruct (sqrt_ltb _ _); [rewrite Ed, En; exact H|].
    fields. repeat split; intros; reflexivity.
Qed.

(** ** The stickers *)

Example Cubie_corner :
  map Sticker.color (Cubie (mkVec3 1 1 (-1)%Q)) =
  [COLORS.right; COLORS.top; COLORS.back].
Proof. reflexivity. Qed.

Lemma when_In (cond : bool) (child st : Sticker.props) :
  In st (when cond child) <-> cond = true /\ st = child.
Proof.
  unfold when. destruct cond; simpl; intuition congruence.
Qed.

Lemma eqb_eq (x y : num) : Num.eqb x y = true <-> (x == y)%Q.
Proof. apply Qeq_bool_iff. Qed.

(** X5: the stickers of the cube as initialized: each of the six colours is
    on exactly 9 cubies, and the cubie of the lattice point (x, y, z) carries
    |x| + |y| + |z| stickers, of different colours: 54 stickers in all,
    three on a corner, two on an edge, one on a centre, none on the core. *)
Theorem stickers_of_the_cube :
  (forall c : string, In c face_colors ->
     List.length (filter (shows c) initialCubies) = 9%nat) /\
  (forall x y z : Z, In x lattice1 -> In y lattice1 -> In z lattice1 ->
     let stickers := Cubie (mkVec3 (int x) (int y) (int z)) in
     List.length stickers = (Z.abs_nat x + Z.abs_nat y + Z.abs_nat z)%nat /\
     NoDup (map Sticker.color stickers)) /\
  List.length (flat_map (fun data => Cubie (initialPosition data))
                 initialCubies) = 54%nat.
Proof.
  split.
  { intros c Hc. simpl in Hc.
    repeat (destruct Hc as [<-|Hc]; [vm_compute; reflexivity|]).
    contradiction. }
  split; [|vm_compute; reflexivity].
  intros x y z Hx Hy Hz. simpl in Hx, Hy, Hz.
  repeat (match goal with
          | H : _ \/ _ |- _ => destruct H
          | H : False |- _ => destruct H
          end);
    subst; (split; [reflexivity|]); vm_compute;
    repeat (constructor; [simpl; intuition discriminate|]); constructor.
Qed.

Lemma sticker_rotations_aligned (ip : Vec3) (st : Sticker.props) :
  In st (Cubie ip) -> aligned (Sticker.rotation st) = true.
Proof.
  unfold Cubie. cbv zeta. rewrite !in_app_iff, !when_In.
  intros [[_ ->]|[[_ ->]|[[_ ->]|[[_ ->]|[[_ ->]|[_ ->]]]]]];
    vm_compute; reflexivity.
Qed.

(** X6: every sticker of a cubie lies on an outer face and faces outward:
    it is centred 0.51 along the direction it faces (with a backend exact on
    quarter turns), that direction has length 1, and its scalar product
    with the cubie's initial position is 1: the sticker is on a side of the
    cubie that is on the outside of the cube. *)
Theorem stickers_face_outward (math : JSMath) (initialPosition : Vec3)
  (st : Sticker.props) :
  quarter_exact math -> In st (Cubie initialPosition) ->
  Sticker.position st = scale (lit 0.51) (facing st) /\
  (dot (facing st) initialPosition == 1)%Q /\
  (dot (facing st) (facing st) == 1)%Q.
Proof.
  intros exact Hin. unfold facing.
  rewrite (makeRotationFromEuler_agree exact _
             (sticker_rotations_aligned initialPosition st Hin)).
  destruct initialPosition as [ix iy iz].
  unfold Cubie in Hin. cbv zeta in Hin. cbn [vx vy vz] in Hin.
  rewrite !in_app_iff, !when_In, !eqb_eq in Hin.
  destruct Hin as [[E ->]|[[E ->]|[[E ->]|[[E ->]|[[E ->]|[E ->]]]]]];
    (split; [vm_compute; reflexivity|]);
    (split; [|vm_compute; reflexivity]);
    cbn [Sticker.rotation];
    match goal with
    | |- (dot ?n _ == 1)%Q =>
        let v := eval vm_compute in n in change n with v
    end;
    unfold dot; cbn [vx vy vz]; to_Q; rewrite E; ring.
Qed.

Lemma stickers_face_outward_witness :
  In (Sticker.mk COLORS.back (mkVec3 0 0 (- OFFSET - lit 0.01))
        (mkVec3 0 Num.PI 0))
     (Cubie (mkVec3 1 1 (-1)%Q)) /\
  @facing quarter_math
    (Sticker.mk COLORS.back (mkVec3 0 0 (- OFFSET - lit 0.01))
       (mkVec3 0 Num.PI 0)) = mkVec3 0 0 (-1)%Q /\
  mkVec3 0 0 (- OFFSET - lit 0.01) =
  scale (lit 0.51)
    (@facing quarter_math
       (Sticker.mk COLORS.back (mkVec3 0 0 (- OFFSET - lit 0.01))
          (mkVec3 0 Num.PI 0))).
Proof.
  assert (Hin : In (Sticker.mk COLORS.back (mkVec3 0 0 (- OFFSET - lit 0.01))
                      (mkVec3 0 Num.PI 0))
                   (Cubie (mkVec3 1 1 (-1)%Q))).
  { vm_compute. right. right. left. reflexivity. }
  split; [exact Hin|]. split; [vm_compute; reflexivity|].
  exact (proj1 (stickers_face_outward quarter_math _ _ quarter_math_exact Hin)).
Defined.



(** ** The application *)

(** *** Moves from notation *)

Lemma legal_valid (m : Move) : legal m -> valid_move m.
Proof. intros [H _]. exact H. Qed.

Lemma legal_set_direction (m : Move) :
  legal m -> legal (set_direction (direction m * -1)%Z m).
Proof.
  intros [[E|E] Hs]; (split; [|exact Hs]); cbn [set_direction direction];
    rewrite E; [right|left]; reflexivity.
Qed.

Lemma switch_legal (scrutinee : string) (cases : list (string * Move))
  (current : Move) :
  Forall (fun c => legal (snd c)) cases -> legal current ->
  legal (switch scrutinee cases current).
Proof.
  intros Hcases Hcurrent.
  induction Hcases as [|[label v] rest Hv _ IH]; cbn [switch].
  - exact Hcurrent.
  - destruct (String.eqb scrutinee label); [exact Hv|exact IH].
Qed.

Lemma legal_triple (a : Axis) (k d : Z) :
  In k lattice1 -> valid_direction d -> legal (mkMove a (int k) d).
Proof. intros Hk Hd. split; [exact Hd|]. exists k. split; [exact Hk|reflexivity]. Qed.

Lemma notation_legal (notation : string) :
  legal (getMoveFromNotation notation).
Proof.
  assert (Hdefault : legal (mkMove X 0 1)).
  { apply (legal_triple X 0 1); [right; left; reflexivity|left; reflexivity]. }
  assert (Hcases : Forall (fun c => legal (snd c)) notation_cases).
  { repeat constructor; cbn [snd];
      first [ apply (legal_triple _ 1) | apply (legal_triple _ (-1))
            | apply (legal_triple _ 0) ];
      cbn; auto; (left; reflexivity) || (right; reflexivity). }
  unfold getMoveFromNotation. cbv zeta.
  destruct (includes "'" notation);
    try apply legal_set_direction; apply switch_legal; assumption.
Qed.

Lemma notation_legal_single_file (notation : string) :
  legal (SingleFile.getMoveFromNotation notation).
Proof.
  assert (Hdefault : legal (mkMove X 0 1)).
  { apply (legal_triple X 0 1); [right; left; reflexivity|left; reflexivity]. }
  assert (Hcases : Forall (fun c => legal (snd c)) SingleFile.notation_cases).
  { repeat constructor; cbn [snd];
      first [ apply (legal_triple _ 1) | apply (legal_triple _ (-1)) ];
      cbn; auto; (left; reflexivity) || (right; reflexivity). }
  unfold SingleFile.getMoveFromNotation. cbv zeta.
  destruct (includes "'" notation);
    try apply legal_set_direction; apply switch_legal; assumption.
Qed.

(** X7: whatever the string, [getMoveFromNotation] returns a legal move (a
    slice among -1, 0, 1 and a direction of +1 or -1): an empty string, an
    unknown letter or a misplaced prime never gives a malformed move.  The
    copy of the single-file build does the same. *)
Theorem getMoveFromNotation_legal (notation : string) :
  legal (getMoveFromNotation notation) /\
  legal (SingleFile.getMoveFromNotation notation).
Proof.
  split; [apply notation_legal|apply notation_legal_single_file].
Qed.

(** *** Scramble *)

Lemma pick_In (A : Type) (array : list A) (r : num) :
  array <> [] -> (0 <= r)%Q -> (r < 1)%Q ->
  exists x : A, App.pick array r = Some x /\ In x array.
Proof.
  intros Hne Hlo Hhi. unfold App.pick. cbv zeta.
  set (n := Z.of_nat (List.length array)).
  assert (Hn : (0 < n)%Z).
  { subst n. destruct array; [congruence|]. cbn [List.length]. lia. }
  assert (Hnq : (0 < inject_Z n)%Q).
  { change 0%Q with (inject_Z 0). rewrite <- Zlt_Qlt. exact Hn. }
  assert (Hindex : (0 <= Qfloor (r * int n)%num < n)%Z).
  { unfold int. rewrite mul_correct. split.
    - change 0%Z with (Qfloor (inject_Z 0)).
      apply Qfloor_resp_le. change (inject_Z 0) with 0%Q. nra.
    - rewrite Zlt_Qlt.
      apply Qle_lt_trans with (r * inject_Z n)%Q; [apply Qfloor_le|nra]. }
  destruct (Z.ltb_spec (Qfloor (r * int n)%num) 0) as [Hneg|_]; [lia|].
  destruct (nth_error array (Z.to_nat (Qfloor (r * int n)%num))) as [x|] eqn:E.
  - exists x. split; [reflexivity|]. apply (nth_error_In _ _ E).
  - exfalso. apply nth_error_None in E. subst n. lia.
Qed.

Lemma scrambleMoves_legal (random : nat -> num) :
  (forall k : nat, (0 <= random k)%Q /\ (random k < 1)%Q) ->
  forall count i : nat,
    exists moves : list Move,
      App.scrambleMoves random i count = Some moves /\
      List.length moves = count /\ Forall legal moves.
Proof.
  intros Hrandom.
  induction count as [|count IH]; intro i; cbn [App.scrambleMoves].
  - exists []. repeat split. constructor.
  - destruct (Hrandom (3 * i)%nat) as [Ha1 Ha2].
    destruct (Hrandom (3 * i + 1)%nat) as [Hs1 Hs2].
    destruct (Hrandom (3 * i + 2)%nat) as [Hd1 Hd2].
    destruct (pick_In Axis [X; Y; Z_] _ ltac:(discriminate) Ha1 Ha2)
      as (a & -> & _).
    destruct (pick_In Q [(-1)%Q; 0; 1] _ ltac:(discriminate) Hs1 Hs2)
      as (sl & -> & Hsl).
    destruct (pick_In Z [1%Z; (-1)%Z] _ ltac:(discriminate) Hd1 Hd2)
      as (d & -> & Hd).
    destruct (IH (S i)) as (moves & -> & Hlen & Hlegal).
    exists (mkMove a sl d :: moves).
    split; [reflexivity|]. split; [cbn [List.length]; congruence|].
    constructor; [|exact Hlegal].
    split; cbn [direction slice].
    + destruct Hd as [<-|[<-|[]]]; [left|right]; reflexivity.
    + destruct Hsl as [<-|[<-|[<-|[]]]];
        [exists (-1)%Z|exists 0%Z|exists 1%Z]; cbn; auto.
Qed.

Lemma pick_Some_In (A : Type) (array : list A) (r : num) (x : A) :
  App.pick array r = Some x -> In x array.
Proof.
  unfold App.pick. cbv zeta. destruct (_ <? 0)%Z; [discriminate|].
  apply nth_error_In.
Qed.

(** Whatever [Math.random()] returns, a scramble that has all its fields
    is made of legal moves. *)
Lemma scrambleMoves_Some_legal (random : nat -> num) :
  forall (count i : nat) (moves : list Move),
    App.scrambleMoves random i count = Some moves -> Forall legal moves.
Proof.
  induction count as [|count IH]; intros i moves; cbn [App.scrambleMoves].
  - intro E. inversion E. constructor.
  - destruct (App.pick [X; Y; Z_] _) as [a|]; [|discriminate].
    destruct (App.pick [(-1)%Q; 0; 1] _) as [sl|] eqn:Esl; [|discriminate].
    destruct (App.pick [1%Z; (-1)%Z] _) as [d|] eqn:Ed; [|discriminate].
    destruct (App.scrambleMoves random (S i) count) as [rest|] eqn:Erest;
      [|discriminate].
    intro E. inversion E. constructor; [|apply (IH (S i) rest Erest)].
    apply pick_Some_In in Esl, Ed.
    split; cbn [direction slice].
    + destruct Ed as [<-|[<-|[]]]; [left|right]; reflexivity.
    + destruct Esl as [<-|[<-|[<-|[]]]];
        [exists (-1)%Z|exists 0%Z|exists 1%Z]; cbn; auto.
Qed.

(** X8: [handleScramble] does nothing while the interface is busy or the
    history is not empty; otherwise, for values of [Math.random()] in
    [0, 1), it locks the interface, arms one timeout and appends exactly 20
    moves to the cube's queue, each a legal quarter turn, all at speed 6,
    leaving the rest of the cube as it is. *)
Theorem handleScramble_spec (random : nat -> num) (a : App.state) :
  (forall k : nat, (0 <= random k)%Q /\ (random k < 1)%Q) ->
  (App.isBusy a = true \/ App.history a <> [] ->
   App.handleScramble random a = a) /\
  (App.isBusy a = false -> App.history a = [] ->
   exists moves : list Move,
     List.length moves = 20%nat /\ Forall legal moves /\
     App.handleScramble random a =
     App.mk [] true (App.isSolving a) (App.solveProgress a)
       (with_moveQueue
          (moveQueue (App.cube a) ++ map (fun m => mkQueuedMove m 6) moves)
          (App.cube a))
       (S (App.timeouts a))).
Proof.
  intro Hrandom. unfold App.handleScramble. split.
  - intros [->|Hh]; [reflexivity|].
    destruct (App.history a); [congruence|].
    rewrite orb_true_r. reflexivity.
  - intros -> ->. cbn [orb List.length Nat.ltb Nat.leb].
    destruct (scrambleMoves_legal random Hrandom 20 0)
      as (moves & -> & Hlen & Hlegal).
    exists moves. split; [exact Hlen|]. split; [exact Hlegal|].
    rewrite addMoves_eq. reflexivity.
Qed.

Lemma handleScramble_spec_witness :
  exists moves : list Move,
    List.length moves = 20%nat /\
    App.cube (App.handleScramble (fun k => Z.of_nat (k mod 7) # 7) App.initial) =
    with_moveQueue (map (fun m => mkQueuedMove m 6) moves) mounted.
Proof.
  assert (Hrandom : forall k : nat,
            (0 <= Z.of_nat (k mod 7) # 7)%Q /\ (Z.of_nat (k mod 7) # 7 < 1)%Q).
  { intro k. unfold Qle, Qlt. cbn [Qnum Qden].
    pose proof (Nat.mod_upper_bound k 7 ltac:(discriminate)). lia. }
  destruct (proj2 (handleScramble_spec (fun k => Z.of_nat (k mod 7) # 7)
                     App.initial Hrandom) eq_refl eq_refl)
    as (moves & Hlen & _ & E).
  exists moves. split; [exact Hlen|]. rewrite E. reflexivity.
Defined.

(** *** The lock of the interface *)

Section Lock.
Context {math : JSMath}.




End Lock.



(** *** The history and the reset *)

Lemma skipn_length_app (A : Type) (l added : list A) :
  skipn (List.length l) (l ++ added) = added.
Proof. induction l as [|x l IH]; [reflexivity|exact IH]. Qed.

Lemma with_cube_eta (a : App.state) : App.with_cube (App.cube a) a = a.
Proof. destruct a; reflexivity. Qed.

Lemma monitor_idle (a : App.state) :
  App.solveProgress a = None -> App.monitor a = a.
Proof. intro E. unfold App.monitor. rewrite E. reflexivity. Qed.

Lemma cube_monitor (a : App.state) : App.cube (App.monitor a) = App.cube a.
Proof.
  unfold App.monitor. destruct (App.solveProgress a) as [p|]; [|reflexivity].
  destruct (_ && _); reflexivity.
Qed.

Lemma cube_handleMoveComplete (m : Move) (a : App.state) :
  App.cube (App.handleMoveComplete m a) = App.cube a.
Proof.
  unfold App.handleMoveComplete. destruct (App.isSolving a); reflexivity.
Qed.

Section History.
Context {math : JSMath}.

Lemma cube_calls (calls : list Move) :
  forall a : App.state,
    App.cube (fold_left (fun a m => App.handleMoveComplete m a) calls a) =
    App.cube a.
Proof.
  induction calls as [|m calls IH]; intro a; cbn [fold_left].
  - reflexivity.
  - rewrite IH. apply cube_handleMoveComplete.
Qed.

(** The cube component does not depend on the application around it. *)
Lemma cube_onCube (ev : Event) (a : App.state) :
  App.cube (App.onCube ev a) = step (App.cube a) ev.
Proof. unfold App.onCube. cbv zeta. rewrite cube_calls. reflexivity. Qed.

Lemma cube_run_frames (deltas : list num) :
  forall a : App.state,
    App.cube (App.run (map (fun d => App.Cube (Frame d)) deltas) a) =
    run (map Frame deltas) (App.cube a).
Proof.
  unfold App.run, run.
  induction deltas as [|d deltas IH]; intro a; cbn [map fold_left].
  - reflexivity.
  - rewrite IH. f_equal. unfold App.step. rewrite cube_monitor.
    apply cube_onCube.
Qed.

(** An event of the cube reports at most one move to the application. *)
Lemma onCube_cases (ev : Event) (a : App.state) :
  slots_ok (App.cube a) ->
  let c := step (App.cube a) ev in
  (completed c = completed (App.cube a) /\
   App.onCube ev a = App.with_cube c a) \/
  (exists current : QueuedMove,
     currentMove (App.cube a) = Some current /\
     completed c = completed (App.cube a) ++ [move current] /\
     App.onCube ev a =
     App.handleMoveComplete (move current) (App.with_cube c a)).
Proof.
  intros Hs c. unfold App.onCube. cbv zeta. fold c.
  destruct (transition_step ev Hs) as
    [added Ed _ _ _|next rest _ _ _ _ _ _ Ed|current Ec _ _ _ _ Ed];
    fold c in Ed.
  - left. split; [exact Ed|]. rewrite Ed.
    rewrite <- (app_nil_r (completed (App.cube a))) at 2.
    rewrite skipn_length_app. reflexivity.
  - left. split; [exact Ed|]. rewrite Ed.
    rewrite <- (app_nil_r (completed (App.cube a))) at 2.
    rewrite skipn_length_app. reflexivity.
  - right. exists current. split; [exact Ec|]. split; [exact Ed|].
    rewrite Ed, skipn_length_app. reflexivity.
Qed.

Section Exact.
Hypothesis exact : quarter_exact math.

Lemma recording_initial : recording App.initial.
Proof.
  split; [reflexivity|]. split; [reflexivity|]. split; [reflexivity|].
  exact coherent_mounted.
Qed.

Lemma recording_step (a : App.state) (ev : App.event) :
  playing ev -> recording a -> recording (App.step a ev).
Proof.
  intros Hev Ha. pose proof Ha as (Hs & Hp & Hh & Hco). unfold App.step.
  assert (Hhandled : recording
    match ev with
    | App.Click notation => App.performNotationMove notation a
    | App.Scramble random => App.handleScramble random a
    | App.Reset => App.handleReset a
    | App.Timeout => App.timeout a
    | App.Cube ev => App.onCube ev a
    end).
  { destruct ev as [notation|random| | |ev].
    - unfold App.performNotationMove.
      destruct (App.isBusy a); [exact Ha|]. cbv zeta.
      split; [exact Hs|]. split; [exact Hp|].
      split; [exact Hh|].
      apply (coherent_step exact (App.cube a)
               (AddMove (getMoveFromNotation notation) (Some (lit 1.5)))).
      + split; [apply legal_valid, notation_legal|reflexivity].
      + exact Hco.
    - unfold App.handleScramble.
      destruct (App.isBusy a); [exact Ha|]. cbn [orb].
      destruct (App.history a) as [|m h] eqn:Eh;
        [|exact Ha].
      cbn [List.length Nat.ltb Nat.leb].
      destruct (App.scrambleMoves random 0 20) as [moves|] eqn:Em;
        [|exact Ha].
      split; [exact Hs|]. split; [exact Hp|].
      cbn [App.history App.cube].
      split; [rewrite addMoves_eq; exact Hh|].
      apply (coherent_step exact (App.cube a) (AddMoves moves (Some 6))).
      + split; [|reflexivity].
        eapply Forall_impl; [|exact (scrambleMoves_Some_legal random 20 0 moves Em)].
        intros m. apply legal_valid.
      + exact Hco.
    - destruct Hev.
    - unfold App.timeout. destruct (App.timeouts a); [exact Ha|].
      split; [exact Hs|]. split; [exact Hp|]. split; [exact Hh|exact Hco].
    - destruct Hev as [_ Hev].
      assert (Hco' : coherent (step (App.cube a) ev))
        by (apply (coherent_step exact); assumption).
      destruct (onCube_cases ev a (machine_ok_slots (proj1 Hco)))
        as [[Ed ->]|(current & _ & Ed & ->)].
      + split; [exact Hs|]. split; [exact Hp|].
        split; [|exact Hco']. cbn [App.with_cube App.history App.cube].
        congruence.
      + unfold App.handleMoveComplete.
        cbn [App.with_cube App.isSolving App.history App.cube
             App.isBusy App.solveProgress App.timeouts].
        rewrite Hs.
        split; [reflexivity|]. split; [exact Hp|]. split; [|exact Hco'].
        cbn [App.history App.cube]. congruence. }
  rewrite monitor_idle; [exact Hhandled|apply Hhandled].
Qed.

Lemma recording_run (events : list App.event) :
  Forall playing events ->
  forall a : App.state, recording a -> recording (App.run events a).
Proof.
  unfold App.run.
  induction 1 as [|ev rest Hev _ IH]; intros a Ha; cbn [fold_left].
  - exact Ha.
  - apply IH, recording_step; assumption.
Qed.

End Exact.

Lemma resetting_frame (h : list Move) (base n : nat) (delta : num)
  (a : App.state) :
  resetting h base n a ->
  resetting h base n (App.step a (App.Cube (Frame delta))).
Proof.
  intros (Hs & Hp & H). unfold App.step.
  pose proof (pipeline_step (Frame delta) Hs) as Hp'.
  cbn [requested] in Hp'. rewrite app_nil_r in Hp'.
  pose proof (slots_ok_step (Frame delta) Hs) as Hs'.
  destruct (onCube_cases (Frame delta) a Hs)
    as [[Ed ->]|(current & Ec & Ed & ->)].
  - assert (Hm : App.monitor
               (App.with_cube (step (App.cube a) (Frame delta)) a) =
             App.with_cube (step (App.cube a) (Frame delta)) a).
    { unfold App.monitor. cbn [App.with_cube App.solveProgress].
      destruct H as [(k & Hk & _ & _ & _ & _ & ->)|(_ & _ & _ & _ & ->)];
        [|reflexivity].
      cbn [App.total App.current].
      destruct (Z.leb_spec (Z.of_nat n) (Z.of_nat k)); [lia|reflexivity]. }
    rewrite Hm. split; [exact Hs'|]. split; [rewrite <- Hp; f_equal; exact Hp'|].
    cbn [App.with_cube App.cube App.history App.isBusy App.isSolving
         App.solveProgress]. rewrite Ed. exact H.
  - destruct H as [(k & Hk & Hd & Hh & Hb & Hsol & Hpr)|(Hd & _)].
    + unfold App.handleMoveComplete.
      cbn [App.with_cube App.isSolving App.history App.cube
           App.isBusy App.solveProgress App.timeouts].
      rewrite Hsol, Hpr. cbn [App.current App.total].
      unfold App.monitor. cbn [App.solveProgress App.current App.total].
      assert (Hlen : List.length
                (completed (step (App.cube a) (Frame delta))) =
              (base + S k)%nat).
      { rewrite Ed, length_app, Hd. cbn [List.length]. lia. }
      destruct (Z.leb_spec (Z.of_nat n) (Z.of_nat k + 1)) as [Hle|Hlt].
      * assert (En : n = S k) by lia.
        destruct (Z.ltb_spec 0 (Z.of_nat n)) as [_|Hn]; [|lia].
        cbn [andb]. split; [exact Hs'|].
        cbn [App.cube App.history App.isBusy App.isSolving
             App.solveProgress].
        split; [rewrite <- Hp; f_equal; exact Hp'|].
        right. rewrite En. repeat split; try reflexivity. exact Hlen.
      * cbn [andb]. split; [exact Hs'|].
        cbn [App.cube App.history App.isBusy App.isSolving
             App.solveProgress].
        split; [rewrite <- Hp; f_equal; exact Hp'|].
        left. exists (S k). split; [lia|]. split; [exact Hlen|].
        split; [exact Hh|]. split; [exact Hb|]. split; [reflexivity|].
        do 2 f_equal. lia.
    + exfalso. unfold pipeline, in_flight in Hp. rewrite Ec in Hp.
      rewrite !length_app, Hd in Hp. cbn [List.length] in Hp. lia.
Qed.

Lemma resetting_frames (h : list Move) (base n : nat) (deltas : list num) :
  forall a : App.state,
    resetting h base n a ->
    resetting h base n
      (App.run (map (fun d => App.Cube (Frame d)) deltas) a).
Proof.
  unfold App.run.
  induction deltas as [|d deltas IH]; intros a Ha; cbn [map fold_left].
  - exact Ha.
  - apply IH, resetting_frame, Ha.
Qed.

End History.

Section Replay.
Context {math : JSMath}.

(** Frames do nothing to an application whose cube is idle. *)
Lemma frames_idle (deltas : list num) (a : App.state) :
  App.solveProgress a = None -> isAnimating (App.cube a) = false ->
  moveQueue (App.cube a) = [] ->
  App.run (map (fun d => App.Cube (Frame d)) deltas) a = a.
Proof.
  intros Hp Ha Hq. unfold App.run.
  induction deltas as [|d deltas IH]; cbn [map fold_left]; [reflexivity|].
  assert (E : App.step a (App.Cube (Frame d)) = a).
  { unfold App.step, App.onCube. cbv zeta. cbn [step].
    rewrite (useFrame_idle d (App.cube a) Ha Hq).
    rewrite skipn_all. cbn [fold_left]. rewrite with_cube_eta.
    apply monitor_idle, Hp. }
  rewrite E. exact IH.
Qed.

Lemma run_cons (ev : App.event) (events : list App.event) (a : App.state) :
  App.run (ev :: events) a = App.run events (App.step a ev).
Proof. reflexivity. Qed.

Lemma moves_mesh_nil (refs : list (option Three.Object3D)) :
  map (option_map (moves_mesh [])) refs = refs.
Proof.
  rewrite <- (map_id refs) at 2. apply map_ext.
  intros [mesh|]; reflexivity.
Qed.

End Replay.

(** X10: before any reset, the history the application keeps is the list
    of the moves the cube has completed, in order, whether they came from
    a button, a scramble or a gesture; and whenever no move is in flight
    every cubie is where these moves, applied in order, bring it from its
    place in the solved cube. *)
Theorem history_records_cube (math : JSMath) (events : list App.event) :
  quarter_exact math -> Forall playing events ->
  let a := App.run events App.initial in
  App.history a = completed (App.cube a) /\
  App.isSolving a = false /\
  (currentMove (App.cube a) = None ->
   cubieRefs (App.cube a) =
   map (option_map (moves_mesh (App.history a))) (cubieRefs mounted)).
Proof.
  intros exact Hev a.
  destruct (recording_run exact events Hev App.initial
              recording_initial)
    as (Hs & _ & Hh & _ & _ & Htr).
  fold a in Hs, Hh, Htr.
  split; [exact Hh|]. split; [exact Hs|].
  intro Hc. unfold tracked, finish_current in Htr. rewrite Hc in Htr.
  rewrite Hh. exact Htr.
Qed.

(** X11: when the interface is free and the cube idle after a session of
    clicks, scrambles and gestures, the reset button followed by enough
    frames of at least [dmin] seconds brings every cubie back to its place
    and orientation in the solved cube, clears the history and the
    progress, and frees the interface again. *)
Theorem app_reset (math : JSMath) (events : list App.event) (dmin : num) :
  quarter_exact math -> Forall playing events ->
  let a := App.run events App.initial in
  App.isBusy a = false -> currentMove (App.cube a) = None ->
  moveQueue (App.cube a) = [] -> (0 < dmin)%Q ->
  exists n : nat,
    forall deltas : list num,
      Forall (fun delta => (dmin <= delta)%Q) deltas ->
      (n <= List.length deltas)%nat ->
      let final :=
        App.run (App.Reset :: map (fun d => App.Cube (Frame d)) deltas) a in
      cubieRefs (App.cube final) = cubieRefs mounted /\
      currentMove (App.cube final) = None /\
      moveQueue (App.cube final) = [] /\
      App.history final = [] /\ App.isBusy final = false /\
      App.isSolving final = false /\ App.solveProgress final = None.
Proof.
  intros exact Hev a Hb Hc Hq Hdmin.
  destruct (recording_run exact events Hev App.initial
              recording_initial)
    as (Hs & Hp & Hh & Hok & Hvalid & Htr).
  fold a in Hs, Hp, Hh, Hok, Hvalid, Htr.
  unfold tracked, finish_current in Htr. rewrite Hc in Htr.
  assert (Hidle : isAnimating (App.cube a) = false).
  { destruct Hok as (_ & _ & Hcur). rewrite Hc in Hcur. apply Hcur. }
  destruct (App.history a) as [|m h] eqn:EH.
  - (* nothing to undo *)
    exists 0%nat. intros deltas _ _ final.
    assert (E : final = a).
    { assert (E1 : App.step a App.Reset = a).
      { unfold App.step, App.handleReset. rewrite Hb, EH.
        cbn [orb List.length Nat.eqb]. apply monitor_idle, Hp. }
      subst final. rewrite run_cons, E1.
      exact (frames_idle deltas a Hp Hidle Hq). }
    rewrite E. rewrite <- Hh in Htr.
    rewrite moves_mesh_nil in Htr.
    repeat split; assumption.
  - (* the replay of the history backwards *)
    assert (Hlen : (0 < List.length (App.history a))%nat)
      by (rewrite EH; cbn [List.length]; lia).
    rewrite <- EH in *. clear EH.
    set (c1 := addMoves (reverseMoves (App.history a)) (Some (lit 3.0))
                 (App.cube a)).
    destruct (frames_bound (queue_frames dmin
                (queued (reverseMoves (App.history a)) (Some (lit 3.0)))))
      as [n Hn].
    exists n. intros deltas Hd Hlength final.
    assert (Hrev : List.length (reverseMoves (App.history a)) =
                   List.length (App.history a)).
    { unfold reverseMoves. rewrite length_map, length_rev. reflexivity. }
    assert (E1 : App.step a App.Reset =
                 App.mk (App.history a) true true
                   (Some (App.mkProgress 0
                            (Z.of_nat (List.length (App.history a)))))
                   c1 (App.timeouts a)).
    { unfold App.step, App.handleReset. rewrite Hb. cbn [orb].
      destruct (Nat.eqb_spec (List.length (App.history a)) 0) as [E|_];
        [lia|].
      cbv zeta. rewrite Hrev. fold c1. unfold App.monitor.
      cbn [App.solveProgress App.total App.current].
      destruct (Z.leb_spec (Z.of_nat (List.length (App.history a))) 0);
        [lia|reflexivity]. }
    assert (Ec1 : c1 = with_moveQueue
                    (queued (reverseMoves (App.history a)) (Some (lit 3.0)))
                    (App.cube a)).
    { subst c1. rewrite addMoves_eq, Hq. reflexivity. }
    assert (Hrvalid : Forall valid_move (reverseMoves (App.history a))).
    { apply reverseMoves_valid. rewrite Hh. exact Hvalid. }
    assert (Hok1 : machine_ok c1).
    { rewrite Ec1.
      rewrite <- (app_nil_l (queued _ _)). rewrite <- Hq.
      apply (machine_ok_enqueue Hok).
      apply queued_valid; [exact Hrvalid|reflexivity]. }
    assert (Hrest1 : resting c1).
    { rewrite Ec1. split; [apply Hok|].
      cbn [cubieRefs with_moveQueue].
      apply (tracked_resting exact (completed (App.cube a))
               (cubieRefs (App.cube a)) Hvalid Htr). }
    assert (Hq1 : moveQueue c1 =
                  queued (reverseMoves (App.history a)) (Some (lit 3.0)))
      by (rewrite Ec1; reflexivity).
    assert (Hc1 : currentMove c1 = None) by (rewrite Ec1; exact Hc).
    assert (Hleft1 : (queue_frames dmin (moveQueue c1)
                      <= inject_Z (Z.of_nat (List.length deltas)))%Q).
    { rewrite Hq1. eapply Qle_trans; [exact Hn|]. rewrite <- Zle_Qle. lia. }
    destruct (settle_resting exact dmin deltas c1 Hdmin Hd Hok1 Hrest1 Hc1
                Hleft1) as (Rr & Rd & Rc & Ra & Rq & _ & _).
    assert (Efinal : App.cube final = run (map Frame deltas) c1).
    { subst final. rewrite run_cons, E1.
      exact (cube_run_frames deltas _). }
    rewrite <- Efinal in Rr, Rd, Rc, Ra, Rq.
    rewrite Hq1, map_move_queued in Rr, Rd.
    assert (Ed1 : completed c1 = App.history a)
      by (rewrite Ec1; symmetry; exact Hh).
    assert (Er1 : cubieRefs c1 = cubieRefs (App.cube a))
      by (rewrite Ec1; reflexivity).
    rewrite Ed1 in Rd. rewrite Er1, Htr, map_map, <- Hh in Rr.
    (* the lock *)
    assert (Hstart : resetting (App.history a)
                       (List.length (App.history a))
                       (List.length (App.history a))
                       (App.step a App.Reset)).
    { rewrite E1. unfold resetting.
      cbn [App.cube App.history App.isBusy App.isSolving App.solveProgress].
      split; [apply machine_ok_slots, Hok1|].
      split.
      - unfold pipeline, in_flight. rewrite Hc1, Hq1, map_move_queued, Ed1.
        cbn [app]. rewrite length_app, Hrev. reflexivity.
      - left. exists 0%nat. rewrite Ed1. split; [exact Hlen|].
        split; [lia|]. repeat split; reflexivity. }
    pose proof (resetting_frames (App.history a)
                  (List.length (App.history a))
                  (List.length (App.history a)) deltas _ Hstart)
      as (_ & _ & Hend).
    rewrite <- run_cons in Hend. fold final in Hend.
    assert (Hdone : List.length (completed (App.cube final)) =
                    (List.length (App.history a) +
                     List.length (App.history a))%nat).
    { rewrite Rd, length_app, Hrev. reflexivity. }
    destruct Hend as [(k & Hk & Hd' & _)|(_ & Fh & Fb & Fs & Fp)]; [lia|].
    split; [|repeat split; assumption].
    rewrite Rr. rewrite <- (map_id (cubieRefs mounted)) at 2.
    apply map_ext_in. intros ref Hin.
    destruct resting_mounted as [_ Hmounted].
    rewrite Forall_forall in Hmounted.
    destruct (Hmounted ref Hin) as [mesh [-> Hmesh]].
    cbn [option_map].
    rewrite (moves_mesh_reverse exact (App.history a)
               ltac:(rewrite Hh; exact Hvalid) mesh Hmesh).
    reflexivity.
Qed.

(** A click on R, run by two frames, then the reset. *)
Lemma app_reset_witness :
  exists n : nat,
    forall deltas : list num,
      Forall (fun delta => (1 # 60 <= delta)%Q) deltas ->
      (n <= List.length deltas)%nat ->
      cubieRefs
        (App.cube
           (@App.run quarter_math
              (App.Reset :: map (fun d => App.Cube (Frame d)) deltas)
              (@App.run quarter_math
                 [App.Click "R"; App.Cube (Frame (1 # 60));
                  App.Cube (Frame 1)]
                 App.initial))) =
      cubieRefs mounted.
Proof.
  assert (Hev : Forall playing
    [App.Click "R"; App.Cube (Frame (1 # 60)); App.Cube (Frame 1)]).
  { repeat constructor; discriminate. }
  destruct (app_reset quarter_math _ (1 # 60) quarter_math_exact Hev
              eq_refl eq_refl eq_refl eq_refl) as [n Hn].
  exists n. intros deltas Hd Hlen.
  exact (proj1 (Hn deltas Hd Hlen)).
Defined.

Lemma history_records_cube_witness :
  App.history
    (@App.run quarter_math
       [App.Click "R"; App.Cube (Frame (1 # 60)); App.Cube (Frame 1);
        App.Click "U'"; App.Cube (Frame (1 # 60)); App.Cube (Frame 1)]
       App.initial) =
  [getMoveFromNotation "R"; getMoveFromNotation "U'"].
Proof.
  assert (Hev : Forall playing
    [App.Click "R"; App.Cube (Frame (1 # 60)); App.Cube (Frame 1);
     App.Click "U'"; App.Cube (Frame (1 # 60)); App.Cube (Frame 1)]).
  { repeat constructor; discriminate. }
  rewrite (proj1 (history_records_cube quarter_math _ quarter_math_exact Hev)).
  reflexivity.
Defined.

(** *** Half turns and parallel moves *)







Section Algebra.
Context {math : JSMath}.
Hypothesis exact : quarter_exact math.










End Algebra.




